(** * Verification of [advanced-vector/vector.h]

    A shallow embedding of the two class templates of the header,
    [RawMemory<T>] and [Vector<T>], and of the standard-library algorithms
    they call, followed by theorems about the public operations.

    Modelling decisions.

    - Raw memory is a heap of blocks.  A block is a list of slots, a slot is
      [None] while it is raw and [Some x] while it holds a live object of
      value [x].  A [T*] is a block (or the null pointer) and an offset.
    - [Vector] objects live in an object store indexed by their address, so
      that the tests [this != &rhs] and the two-object operations are
      modelled with the aliasing the source has.  Local [RawMemory] objects
      are let-bound values whose destructor is called explicitly, both at
      the end of the scope and while an exception unwinds through it.
    - Every operation is a function from a state to an outcome: normal
      return, a C++ exception in flight, or undefined behaviour (a read or
      destruction of a raw slot, construction over a live one, an access out
      of a block, a double free, an exception escaping a [noexcept]
      function).
    - The element type is a parameter: which of its constructors and
      assignments throw (as a function of the value they receive), and what
      a move leaves behind.  A copy yields the value it copies.
    - The allocator has a budget [avail] of slots; [operator new] throws when
      a request exceeds it, and [operator delete] gives the slots back.
    - [size_t] is [nat], without wrap-around.  The header computes two
      products on it.  [capacity * 2] is computed for a full vector: a block
      that was allocated has at most [PTRDIFF_MAX] bytes, hence fewer than
      [2^63] slots, so the product stays below [2^64].  The byte count
      [n * sizeof(T)] inside [Allocate] is computed without a check: for
      [n ≥ 2^64 / sizeof(T)] it wraps, [operator new] is asked for a small
      block and may well return one.  The model has no such case; it is
      exact for the requests whose byte count does not wrap.  Those include
      every request within the budget (memory that is there can be
      addressed), the size of a live vector and the doubled capacity of a
      full one.  The theorems let an allocation fail only for the latter
      two; for a size chosen by the caller ([Vector(n)], [Reserve(n)],
      [Resize(n)]) they take the request to be within the budget. *)

From stdpp Require Import gmap list.

Set Default Proof Using "Type".

(** ** Outcomes and the state-and-exception monad *)

Inductive outcome (S A : Type) : Type :=
| Ret (a : A) (s : S)      (* normal return *)
| Throw (s : S)            (* an exception propagates *)
| Fault.                   (* undefined behaviour / std::terminate *)
Arguments Ret {S A} a s.
Arguments Throw {S A} s.
Arguments Fault {S A}.

Definition M (S A : Type) : Type := S → outcome S A.

Definition ret {S A} (a : A) : M S A := λ s, Ret a s.
Definition throw {S A} : M S A := λ s, Throw s.
Definition fault {S A} : M S A := λ _, Fault.

Definition bind {S A B} (m : M S A) (f : A → M S B) : M S B :=
  λ s, match m s with
       | Ret a s' => f a s'
       | Throw s' => Throw s'
       | Fault => Fault
       end.

(** Stack unwinding: when [m] throws, [cleanup] (the destructors of the
    locals in scope) runs and the exception goes on.  A destructor that
    throws while unwinding terminates the program. *)
Definition on_throw {S A} (m : M S A) (cleanup : M S unit) : M S A :=
  λ s, match m s with
       | Throw s' => match cleanup s' with
                     | Ret _ s'' => Throw s''
                     | _ => Fault
                     end
       | r => r
       end.

(** [try { m } catch (...) { handler }]: the handler's outcome replaces the
    exception; a handler that does not rethrow returns normally. *)
Definition try_catch {S A} (m : M S A) (handler : M S A) : M S A :=
  λ s, match m s with
       | Throw s' => handler s'
       | r => r
       end.

(** A call to a [noexcept] function: an exception that escapes terminates. *)
Definition noexcept {S A} (m : M S A) : M S A :=
  λ s, match m s with
       | Throw _ => Fault
       | r => r
       end.

Declare Scope cpp_scope.
Delimit Scope cpp_scope with cpp.
Notation "x <- m ;; k" := (bind m (λ x, k))
  (at level 100, m at next level, right associativity) : cpp_scope.
Notation "m ;; k" := (bind m (λ _, k))
  (at level 100, right associativity) : cpp_scope.
Open Scope cpp_scope.

(** ** Pointers, objects and the machine state *)

(** [T*]: [base] is the block the pointer points into ([None] for the null
    pointer), [off] the slot index. *)
Record ptr : Type := Ptr { base : option nat; off : nat }.

Global Instance ptr_eq_dec : EqDecision ptr.
Proof. solve_decision. Defined.

Definition ptr_add (p : ptr) (n : nat) : ptr := Ptr (base p) (off p + n).
Definition ptr_sub (p : ptr) (n : nat) : ptr := Ptr (base p) (off p - n).
Infix "+ₚ" := ptr_add (at level 50, left associativity).
Infix "-ₚ" := ptr_sub (at level 50, left associativity).

(** The data members of [RawMemory<T>] and [Vector<T>]. *)
Record RawMemory : Type := mkRaw { buffer_ : option nat; capacity_ : nat }.
Record Vector : Type := mkVec { data_ : RawMemory; size_ : nat }.

Global Instance RawMemory_eq_dec : EqDecision RawMemory.
Proof. solve_decision. Defined.
Global Instance Vector_eq_dec : EqDecision Vector.
Proof. solve_decision. Defined.

(** ** The element type *)

Class Element (T : Type) : Type := {
  (** the argument packs [T] can be constructed from *)
  Args : Type;
  (** [T(std::forward<Args>(args)...)]; [None] when the constructor throws *)
  construct : Args → option T;
  (** [T()]; [None] when value-initialisation throws *)
  value_init : option T;
  (** [T(const T&)] throws when given this value *)
  copy_throws : T → bool;
  (** [T(T&&)] throws when given this value *)
  move_throws : T → bool;
  (** [operator=(const T&)] throws when given this right-hand side *)
  copy_assign_throws : T → bool;
  (** [operator=(T&&)] throws when given this right-hand side *)
  move_assign_throws : T → bool;
  (** the value a move leaves in its source *)
  moved_from : T → T;
  (** [std::is_nothrow_move_constructible_v<T>] *)
  is_nothrow_move_constructible : bool;
  (** [std::is_copy_constructible_v<T>] *)
  is_copy_constructible : bool;
  nothrow_move_sound :
    is_nothrow_move_constructible = true → ∀ x, move_throws x = false
}.

(** a slot of a block: raw storage ([None]) or a live object *)
Abbreviation slot T := (option T).

Section vector.
Context {T : Type} `{!Element T}.

Record State : Type := mkState {
  heap : gmap nat (list (slot T));   (* the blocks handed out by the allocator *)
  objs : gmap nat Vector;        (* the Vector objects, by address *)
  avail : nat                    (* slots the allocator can still hand out *)
}.

Definition set_heap (s : State) (h : gmap nat (list (slot T))) : State :=
  mkState h (objs s) (avail s).
Definition set_objs (s : State) (o : gmap nat Vector) : State :=
  mkState (heap s) o (avail s).

Abbreviation Op := (M State).

(** ** Slots *)

Definition slot_at (s : State) (p : ptr) : option (slot T) :=
  b ← base p; blk ← heap s !! b; blk !! off p.

Definition set_slot (p : ptr) (v : slot T) (s : State) : State :=
  match base p with
  | Some b => set_heap s (alter (<[off p := v]>) b (heap s))
  | None => s
  end.

(** [p[0]] read as an rvalue: the slot must hold a live object. *)
Definition read (p : ptr) : Op T :=
  λ s, match slot_at s p with
       | Some (Some x) => Ret x s
       | _ => Fault
       end.

(** the end of a constructor call [new (p) T(...)] that produced [x]: the
    slot must be raw storage inside a block *)
Definition emplace_at (p : ptr) (x : T) : Op unit :=
  λ s, match slot_at s p with
       | Some None => Ret tt (set_slot p (Some x) s)
       | _ => Fault
       end.

(** the end of an assignment to [*p] that gave it the value [x]: the slot
    must hold a live object *)
Definition store (p : ptr) (x : T) : Op unit :=
  λ s, match slot_at s p with
       | Some (Some _) => Ret tt (set_slot p (Some x) s)
       | _ => Fault
       end.

(** [static void Destroy(T* buf) noexcept { buf->~T(); }] *)
Definition Destroy (buf : ptr) : Op unit :=
  λ s, match slot_at s buf with
       | Some (Some _) => Ret tt (set_slot buf None s)
       | _ => Fault
       end.

(** ** Element operations on slots *)

(** the three ways [Emplace] receives its arguments: a pack for some
    constructor, a [const T&] (copy constructor) or a [T&&] (move
    constructor); a reference is represented by the value it refers to *)
Inductive emplace_args : Type :=
| FromArgs (a : Args)
| ByCopy (value : T)
| ByMove (value : T).

(** the value [T(std::forward<Args>(args)...)] constructs, [None] when the
    constructor throws *)
Definition arg_value (a : emplace_args) : option T :=
  match a with
  | FromArgs a => construct a
  | ByCopy v => if copy_throws v then None else Some v
  | ByMove v => if move_throws v then None else Some v
  end.

(** [T(std::forward<Args>(args)...)] *)
Definition construct_from (a : emplace_args) : Op T :=
  match arg_value a with
  | Some x => ret x
  | None => throw
  end.

(** [new (dst) T(src[0])] *)
Definition copy_construct_at (dst src : ptr) : Op unit :=
  x <- read src;;
  if copy_throws x then throw else emplace_at dst x.

(** [new (dst) T(std::move(src[0]))] *)
Definition move_construct_at (dst src : ptr) : Op unit :=
  x <- read src;;
  if move_throws x then throw
  else (emplace_at dst x;; store src (moved_from x)).

(** [new (dst) T()] *)
Definition value_construct_at (dst : ptr) : Op unit :=
  match value_init with
  | Some x => emplace_at dst x
  | None => throw
  end.

(** [dst[0] = src[0]] *)
Definition copy_assign (dst src : ptr) : Op unit :=
  x <- read src;;
  if copy_assign_throws x then throw else store dst x.

(** [dst[0] = std::move(src[0])] *)
Definition move_assign (dst src : ptr) : Op unit :=
  x <- read src;;
  if move_assign_throws x then throw
  else (store dst x;; store src (moved_from x)).

(** [dst[0] = std::move(tmp)] for a local [tmp] of value [x] *)
Definition move_assign_local (dst : ptr) (x : T) : Op unit :=
  if move_assign_throws x then throw else store dst x.

(** ** The standard-library algorithms the header calls

    Each follows the C++ standard's description of the algorithm; ranges are
    given by their first pointer and their length. *)

(** [last - first] for two pointers into one array; anything else is
    undefined *)
Definition distance (first last : ptr) : Op nat :=
  if decide (base first = base last ∧ off first ≤ off last)
  then ret (off last - off first)
  else fault.

(** [std::uninitialized_copy_n(first, n, d_first)]: when a copy constructor
    throws, the objects already constructed are destroyed (in an unspecified
    order) and the exception goes on *)
Fixpoint uninitialized_copy_n (first : ptr) (n : nat) (d_first : ptr) : Op unit :=
  match n with
  | 0 => ret tt
  | S n' =>
      copy_construct_at d_first first;;
      on_throw (uninitialized_copy_n (first +ₚ 1) n' (d_first +ₚ 1))
               (Destroy d_first)
  end.

(** [std::uninitialized_move_n(first, n, d_first)] *)
Fixpoint uninitialized_move_n (first : ptr) (n : nat) (d_first : ptr) : Op unit :=
  match n with
  | 0 => ret tt
  | S n' =>
      move_construct_at d_first first;;
      on_throw (uninitialized_move_n (first +ₚ 1) n' (d_first +ₚ 1))
               (Destroy d_first)
  end.

(** [std::uninitialized_value_construct_n(first, n)] *)
Fixpoint uninitialized_value_construct_n (first : ptr) (n : nat) : Op unit :=
  match n with
  | 0 => ret tt
  | S n' =>
      value_construct_at first;;
      on_throw (uninitialized_value_construct_n (first +ₚ 1) n')
               (Destroy first)
  end.

(** the loop of [std::copy]: [n] copy assignments, front to back *)
Fixpoint copy_n (first : ptr) (n : nat) (d_first : ptr) : Op unit :=
  match n with
  | 0 => ret tt
  | S n' => copy_assign d_first first;; copy_n (first +ₚ 1) n' (d_first +ₚ 1)
  end.

(** [std::copy(first, last, d_first)] *)
Definition std_copy (first last d_first : ptr) : Op unit :=
  n <- distance first last;; copy_n first n d_first.

(** the loop of [std::move]: [n] move assignments, front to back *)
Fixpoint move_n (first : ptr) (n : nat) (d_first : ptr) : Op unit :=
  match n with
  | 0 => ret tt
  | S n' => move_assign d_first first;; move_n (first +ₚ 1) n' (d_first +ₚ 1)
  end.

(** [std::move(first, last, d_first)] *)
Definition std_move (first last d_first : ptr) : Op unit :=
  n <- distance first last;; move_n first n d_first.

(** the loop of [std::move_backward]: [n] move assignments, back to front *)
Fixpoint move_backward_n (last : ptr) (n : nat) (d_last : ptr) : Op unit :=
  match n with
  | 0 => ret tt
  | S n' =>
      move_assign (d_last -ₚ 1) (last -ₚ 1);;
      move_backward_n (last -ₚ 1) n' (d_last -ₚ 1)
  end.

(** [std::move_backward(first, last, d_last)] *)
Definition std_move_backward (first last d_last : ptr) : Op unit :=
  n <- distance first last;; move_backward_n last n d_last.

(** [static void DestroyN(T* buf, size_t n) noexcept] *)
Fixpoint DestroyN (buf : ptr) (n : nat) : Op unit :=
  match n with
  | 0 => ret tt
  | S n' => Destroy buf;; DestroyN (buf +ₚ 1) n'
  end.

(** [std::destroy_n(first, n)] *)
Definition destroy_n (first : ptr) (n : nat) : Op unit := DestroyN first n.

(** ** [RawMemory<T>] *)

(** [static T* Allocate(size_t n)]: a null pointer for [n = 0], otherwise a
    fresh block of [n] raw slots, or [std::bad_alloc] when the budget does
    not cover them.  This is what the source does as long as [n * sizeof(T)]
    fits [size_t]; a request large enough for this product to wrap is not
    covered. *)
Definition Allocate (n : nat) : Op (option nat) :=
  λ s, if decide (n = 0) then Ret None s
       else if decide (n ≤ avail s) then
         let b := fresh (dom (heap s)) in
         Ret (Some b)
             (mkState (<[b := replicate n None]> (heap s)) (objs s) (avail s - n))
       else Throw s.

(** [static void Deallocate(T* buf) noexcept]: [operator delete] of a null
    pointer does nothing *)
Definition Deallocate (buf : option nat) : Op unit :=
  λ s, match buf with
       | None => Ret tt s
       | Some b =>
           match heap s !! b with
           | Some blk =>
               Ret tt (mkState (delete b (heap s)) (objs s) (avail s + length blk))
           | None => Fault
           end
       end.

(** [RawMemory() = default] *)
Definition RawMemory_default : RawMemory := mkRaw None 0.

(** [explicit RawMemory(size_t capacity)] *)
Definition RawMemory_ctor (capacity : nat) : Op RawMemory :=
  buf <- Allocate capacity;; ret (mkRaw buf capacity).

(** [~RawMemory()] *)
Definition RawMemory_dtor (r : RawMemory) : Op unit := Deallocate (buffer_ r).

(** [void Swap(RawMemory& other) noexcept], on two distinct objects: the new
    values of [*this] and of [other] *)
Definition RawMemory_Swap (this other : RawMemory) : RawMemory * RawMemory :=
  (mkRaw (buffer_ other) (capacity_ other), mkRaw (buffer_ this) (capacity_ this)).

Definition GetAddress (r : RawMemory) : ptr := Ptr (buffer_ r) 0.

(** [RawMemory(RawMemory&& other) noexcept]: the new object and what is left
    in [other] *)
Definition RawMemory_ctor_move (other : RawMemory) : RawMemory * RawMemory :=
  (mkRaw (buffer_ other) (capacity_ other), mkRaw None 0).

(** [RawMemory& operator=(RawMemory&& rhs) noexcept] for the objects at the
    addresses [this_addr] and [rhs_addr]: the new values of [*this] and of
    [rhs] *)
Definition RawMemory_assign_move (this_addr rhs_addr : nat)
    (this rhs : RawMemory) : Op (RawMemory * RawMemory) :=
  if decide (this_addr ≠ rhs_addr) then
    Deallocate (buffer_ this);;
    ret (mkRaw (buffer_ rhs) (capacity_ rhs), mkRaw None 0)
  else ret (this, rhs).

(** [T* operator+(size_t offset) noexcept], with its assertion *)
Definition RawMemory_plus (r : RawMemory) (offset : nat) : Op ptr :=
  if decide (offset ≤ capacity_ r) then ret (GetAddress r +ₚ offset) else fault.

(** ** [Vector<T>]: access to the data members of the object at an address *)

Definition get_obj (a : nat) : Op Vector :=
  λ s, match objs s !! a with
       | Some v => Ret v s
       | None => Fault
       end.
Definition put_obj (a : nat) (v : Vector) : Op unit :=
  λ s, Ret tt (set_objs s (<[a := v]> (objs s))).
Definition del_obj (a : nat) : Op unit :=
  λ s, Ret tt (set_objs s (delete a (objs s))).
(** the address of a new local object *)
Definition alloca : Op nat := λ s, Ret (fresh (dom (objs s))) s.

Definition get_data (this : nat) : Op RawMemory :=
  v <- get_obj this;; ret (data_ v).
Definition set_data (this : nat) (d : RawMemory) : Op unit :=
  v <- get_obj this;; put_obj this (mkVec d (size_ v)).
Definition set_size (this : nat) (n : nat) : Op unit :=
  v <- get_obj this;; put_obj this (mkVec (data_ v) n).

(** [size_t Size() const noexcept] *)
Definition Size (this : nat) : Op nat := v <- get_obj this;; ret (size_ v).
(** [size_t Capacity() const noexcept] *)
Definition Capacity (this : nat) : Op nat :=
  v <- get_obj this;; ret (capacity_ (data_ v)).
(** [iterator begin() noexcept] *)
Definition begin_ (this : nat) : Op ptr :=
  v <- get_obj this;; ret (GetAddress (data_ v)).
(** [iterator end() noexcept] *)
Definition end_ (this : nat) : Op ptr :=
  v <- get_obj this;; ret (GetAddress (data_ v) +ₚ size_ v).

(** [T& operator[](size_t index) noexcept], with its assertion *)
Definition index (this : nat) (i : nat) : Op ptr :=
  v <- get_obj this;;
  if decide (i < size_ v)
  then (if decide (i < capacity_ (data_ v))
        then ret (GetAddress (data_ v) +ₚ i) else fault)
  else fault.

(** [void Swap(Vector& other) noexcept] *)
Definition Swap (this other : nat) : Op unit :=
  d <- get_data this;; od <- get_data other;;
  set_data this (RawMemory_Swap d od).1;;
  set_data other (RawMemory_Swap d od).2;;
  n <- Size this;; m <- Size other;;
  set_size this m;;
  set_size other n.

(** [void CopyOrMoveData(T* begin, size_t size, T* end)] *)
Definition CopyOrMoveData (begin : ptr) (size : nat) (end_ : ptr) : Op unit :=
  if is_nothrow_move_constructible || negb is_copy_constructible
  then uninitialized_move_n begin size end_
  else uninitialized_copy_n begin size end_.

(** ** Constructors, destructor and assignment *)

(** [Vector() = default] *)
Definition Vector_ctor (this : nat) : Op unit :=
  put_obj this (mkVec RawMemory_default 0).

(** [explicit Vector(size_t size)]: when the body throws, the member [data_]
    is destroyed and the object never comes to exist *)
Definition Vector_ctor_size (this : nat) (size : nat) : Op unit :=
  d <- RawMemory_ctor size;;
  put_obj this (mkVec d size);;
  on_throw (uninitialized_value_construct_n (GetAddress d) size)
           (RawMemory_dtor d;; del_obj this).

(** [Vector(const Vector& other)] *)
Definition Vector_ctor_copy (this other : nat) : Op unit :=
  o <- get_obj other;;
  d <- RawMemory_ctor (size_ o);;
  put_obj this (mkVec d (size_ o));;
  on_throw (uninitialized_copy_n (GetAddress (data_ o)) (size_ o) (GetAddress d))
           (RawMemory_dtor d;; del_obj this).

(** [Vector(Vector&& other) noexcept] *)
Definition Vector_ctor_move (this other : nat) : Op unit :=
  put_obj this (mkVec RawMemory_default 0);;
  noexcept (Swap this other).

(** [~Vector()], followed by the destructor of the member [data_] *)
Definition Vector_dtor (this : nat) : Op unit :=
  v <- get_obj this;;
  DestroyN (GetAddress (data_ v)) (size_ v);;
  RawMemory_dtor (data_ v);;
  del_obj this.

(** [Vector& operator=(const Vector& rhs)]; the result is the address of
    [*this] *)
Definition assign_copy (this rhs : nat) : Op nat :=
  (if decide (this ≠ rhs) then
     r <- get_obj rhs;;
     cap <- Capacity this;;
     (if decide (cap < size_ r) then
        rhs_copy <- alloca;;
        Vector_ctor_copy rhs_copy rhs;;
        Swap this rhs_copy;;
        Vector_dtor rhs_copy
      else
        v <- get_obj this;;
        if decide (size_ r < size_ v) then
          std_copy (GetAddress (data_ r)) (GetAddress (data_ r) +ₚ size_ r)
                   (GetAddress (data_ v));;
          destroy_n (GetAddress (data_ v) +ₚ size_ r) (size_ v - size_ r)
        else
          std_copy (GetAddress (data_ r)) (GetAddress (data_ r) +ₚ size_ v)
                   (GetAddress (data_ v));;
          uninitialized_copy_n (GetAddress (data_ r) +ₚ size_ v)
                               (size_ r - size_ v)
                               (GetAddress (data_ v) +ₚ size_ v));;
     r <- get_obj rhs;;
     set_size this (size_ r)
   else ret tt);;
  ret this.

(** [Vector& operator=(Vector&& rhs) noexcept] *)
Definition assign_move (this rhs : nat) : Op nat :=
  (if decide (this ≠ rhs) then noexcept (Swap this rhs) else ret tt);;
  ret this.

(** ** Capacity management *)

(** [void Reserve(size_t new_capacity)] *)
Definition Reserve (this : nat) (new_capacity : nat) : Op unit :=
  d <- get_data this;;
  if decide (new_capacity ≤ capacity_ d) then ret tt
  else
    new_data <- RawMemory_ctor new_capacity;;
    size <- Size this;;
    on_throw (CopyOrMoveData (GetAddress d) size (GetAddress new_data))
             (RawMemory_dtor new_data);;
    set_data this (RawMemory_Swap new_data d).2;;
    let new_data := (RawMemory_Swap new_data d).1 in
    destroy_n (GetAddress new_data) size;;
    RawMemory_dtor new_data.

(** [void Resize(size_t new_size)] *)
Definition Resize (this : nat) (new_size : nat) : Op unit :=
  size <- Size this;;
  if decide (new_size < size) then
    d <- get_data this;;
    DestroyN (GetAddress d +ₚ new_size) (size - new_size);;
    set_size this new_size
  else if decide (size < new_size) then
    Reserve this new_size;;
    d <- get_data this;;
    uninitialized_value_construct_n (GetAddress d +ₚ size) (new_size - size);;
    set_size this new_size
  else ret tt.

(** ** Insertion and removal *)

(** [template <typename... Args> iterator Emplace(const_iterator pos, Args&&... args)] *)
Definition Emplace (this : nat) (pos : ptr) (args : emplace_args) : Op ptr :=
  let nc_pos := pos in
  size <- Size this;;
  cap <- Capacity this;;
  if decide (size < cap) then
    e <- end_ this;;
    nc_pos <- (if decide (pos = e) then
                 x <- construct_from args;;
                 emplace_at e x;;
                 end_ this
               else
                 tmp <- construct_from args;;
                 uninitialized_move_n (e -ₚ 1) 1 e;;
                 std_move_backward nc_pos (e -ₚ 1) e;;
                 move_assign_local nc_pos tmp;;
                 ret nc_pos);;
    set_size this (S size);;
    ret nc_pos
  else
    d <- get_data this;;
    let size := if decide (capacity_ d = 0) then 1 else capacity_ d * 2 in
    new_data <- RawMemory_ctor size;;
    k <- distance (GetAddress d) nc_pos;;
    let new_data_pos := GetAddress new_data +ₚ k in
    on_throw (x <- construct_from args;; emplace_at new_data_pos x)
             (RawMemory_dtor new_data);;
    b <- begin_ this;;
    e <- end_ this;;
    (if decide (b ≠ e) then
       try_catch (n <- distance (GetAddress d) nc_pos;;
                  CopyOrMoveData (GetAddress d) n (GetAddress new_data))
                 (Destroy new_data_pos)
     else ret tt);;
    try_catch (n <- distance nc_pos e;;
               CopyOrMoveData nc_pos n (new_data_pos +ₚ 1))
              (n <- distance (GetAddress new_data) new_data_pos;;
               DestroyN (GetAddress new_data) n);;
    set_data this (RawMemory_Swap d new_data).1;;
    let new_data := (RawMemory_Swap d new_data).2 in
    n <- Size this;;
    DestroyN (GetAddress new_data) n;;
    set_size this (S n);;
    RawMemory_dtor new_data;;
    ret new_data_pos.

(** [template <typename... Args> T& EmplaceBack(Args&&... args)] *)
Definition EmplaceBack (this : nat) (args : emplace_args) : Op ptr :=
  e <- end_ this;; Emplace this e args.

(** [iterator Erase(const_iterator pos)] *)
Definition Erase (this : nat) (pos : ptr) : Op ptr :=
  let nc_pos := pos in
  e <- end_ this;;
  std_move (nc_pos +ₚ 1) e nc_pos;;
  Destroy (e -ₚ 1);;
  size <- Size this;;
  set_size this (size - 1);;
  ret nc_pos.

(** [iterator Insert(const_iterator pos, const T& value)] *)
Definition Insert (this : nat) (pos : ptr) (value : T) : Op ptr :=
  Emplace this pos (ByCopy value).
(** [iterator Insert(const_iterator pos, T&& value)] *)
Definition Insert_move (this : nat) (pos : ptr) (value : T) : Op ptr :=
  Emplace this pos (ByMove value).

(** [void PopBack() noexcept] *)
Definition PopBack (this : nat) : Op unit :=
  e <- end_ this;;
  Destroy (e -ₚ 1);;
  size <- Size this;;
  set_size this (size - 1).

(** [void PushBack(const T& value)] *)
Definition PushBack (this : nat) (value : T) : Op unit :=
  EmplaceBack this (ByCopy value);; ret tt.
(** [void PushBack(T&& value)] *)
Definition PushBack_move (this : nat) (value : T) : Op unit :=
  EmplaceBack this (ByMove value);; ret tt.

(** a caller: [for (const T& x : xs) v.PushBack(x);] *)
Fixpoint PushBack_all (this : nat) (xs : list T) : Op unit :=
  match xs with
  | [] => ret tt
  | x :: xs' => PushBack this x;; PushBack_all this xs'
  end.

End vector.

(** * Specification vocabulary

    The states and predicates the properties below are stated with. *)

Section specification.
Context {T : Type} `{!Element T}.

(** an element none of whose copy and move operations throws *)
Definition nothrow (x : T) : Prop :=
  copy_throws x = false ∧ move_throws x = false ∧
  copy_assign_throws x = false ∧ move_assign_throws x = false.

(** the values left in the old block by the relocation [CopyOrMoveData]
    performs *)
Definition relocated_from (xs : list T) : list T :=
  if is_nothrow_move_constructible || negb is_copy_constructible
  then moved_from <$> xs else xs.

(** the state in which block [b] has the contents [blk] *)
Definition upd_blk (b : nat) (blk : list (slot T)) (s : @State T) : @State T :=
  set_heap s (<[b := blk]> (heap s)).

(** the state in which the object at [a] has the members [v] *)
Definition upd_obj (a : nat) (v : Vector) (s : @State T) : @State T :=
  set_objs s (<[a := v]> (objs s)).

(** a block of [cap] slots whose first slots hold the elements [l] *)
Definition block_of (l : list T) (cap : nat) : list (slot T) :=
  (Some <$> l) ++ replicate (cap - length l) None.

(** The representation invariant: the members [v] describe a vector that
    holds exactly the elements [l].  Slots [0, size) of its block are live
    and hold [l], slots [size, capacity) are raw, and size is at most
    capacity; a null block has capacity zero. *)
Definition holds (s : @State T) (v : Vector) (l : list T) : Prop :=
  size_ v = length l ∧
  length l ≤ capacity_ (data_ v) ∧
  match buffer_ (data_ v) with
  | Some b => heap s !! b = Some (block_of l (capacity_ (data_ v)))
  | None => capacity_ (data_ v) = 0
  end.

(** the object at address [this] has members [v] and holds [l] *)
Definition vec_at (s : @State T) (this : nat) (v : Vector) (l : list T) : Prop :=
  objs s !! this = Some v ∧ holds s v l.

(** two vectors that do not share their block *)
Definition separate (va vb : Vector) : Prop :=
  ∀ b, buffer_ (data_ va) = Some b → buffer_ (data_ vb) ≠ Some b.

(** the blocks of a heap once the block [buf] is released *)
Definition free_buf (buf : option nat) (h : gmap nat (list (slot T)))
  : gmap nat (list (slot T)) :=
  match buf with
  | Some b => delete b h
  | None => h
  end.

(** The state after the vector at [this], whose members were [v], has moved
    to a fresh block of [newcap] slots that holds [l']. *)
Definition realloc_state (s : @State T) (this : nat) (v : Vector)
    (l' : list T) (newcap : nat) : @State T :=
  let nb := fresh (dom (heap s)) in
  mkState (<[nb := block_of l' newcap]> (free_buf (buffer_ (data_ v)) (heap s)))
          (<[this := mkVec (mkRaw (Some nb) newcap) (length l')]> (objs s))
          (avail s + capacity_ (data_ v) - newcap).

(** the state after a vector holding [l] in a block of exactly [length l]
    slots has been constructed at [this] *)
Definition constructed_state (s : @State T) (this : nat) (l : list T) : @State T :=
  let nb := fresh (dom (heap s)) in
  mkState (<[nb := block_of l (length l)]> (heap s))
          (<[this := mkVec (mkRaw (Some nb) (length l)) (length l)]> (objs s))
          (avail s - length l).

(** [CopyOrMoveData] relocates by move *)
Definition relocates_by_move : bool :=
  is_nothrow_move_constructible || negb is_copy_constructible.

(** the constructor [CopyOrMoveData] uses does not throw on [x] *)
Definition relocatable (x : T) : Prop :=
  if relocates_by_move then move_throws x = false else copy_throws x = false.

(** The state after an append to the full vector at [this], whose members
    were [v], has swallowed the failure of the relocation: a fresh block of
    [newcap] raw slots, and a size that counts [n] elements. *)
Definition hollow_state (s : @State T) (this : nat) (v : Vector)
    (n newcap : nat) : @State T :=
  let nb := fresh (dom (heap s)) in
  mkState (<[nb := replicate newcap None]> (free_buf (buffer_ (data_ v)) (heap s)))
          (<[this := mkVec (mkRaw (Some nb) newcap) n]> (objs s))
          (avail s + capacity_ (data_ v) - newcap).

(** the capacity [Emplace] grows a full vector to *)
Definition grown (cap : nat) : nat := if decide (cap = 0) then 1 else cap * 2.

(** The capacity a sequence of appends to an empty vector maintains: zero
    for no element, otherwise the power of two [c] with [n ≤ c < 2 n]. *)
Definition cap_inv (n c : nat) : Prop :=
  (n = 0 ∧ c = 0) ∨ (∃ k, c = 2 ^ k ∧ n ≤ c ∧ c < 2 * n).

End specification.

(** * Concrete vectors of integers

    The element type: integers whose copy constructor throws on negative
    values; the move constructor is not [noexcept], so relocation copies. *)
Module IntElem.

Definition elem : Element Z.
Proof.
  refine {|
    Args := Z;
    construct := λ a, Some a;
    value_init := Some 0%Z;
    copy_throws := λ x, bool_decide (x < 0)%Z;
    move_throws := λ _, false;
    copy_assign_throws := λ _, false;
    move_assign_throws := λ _, false;
    moved_from := λ x, x;
    is_nothrow_move_constructible := false;
    is_copy_constructible := true
  |}.
  discriminate.
Defined.
#[export] Existing Instance elem.

Local Open Scope Z_scope.

(** a vector at address 0 holding [1, 2, 3] in a block of 4 slots *)
Definition v123 : Vector := mkVec (mkRaw (Some 1%nat) 4) 3.
Definition st123 : @State Z :=
  mkState {[1%nat := [Some 1; Some 2; Some 3; None]]} {[0%nat := v123]} 50.

(** a full vector at address 0 holding [1, 2] *)
Definition v_full : Vector := mkVec (mkRaw (Some 1%nat) 2) 2.
Definition st_full : @State Z :=
  mkState {[1%nat := [Some 1; Some 2]]} {[0%nat := v_full]} 98.

(** a full vector at address 0 holding [1, -2]; copying [-2] throws *)
Definition st_bad : @State Z :=
  mkState {[1%nat := [Some 1; Some (-2)]]} {[0%nat := v_full]} 98.

(** the calls that build it: [Vector<T> v; v.EmplaceBack(1); v.EmplaceBack(-2);] *)
Definition build_bad : M (@State Z) unit :=
  Vector_ctor 0%nat;;
  EmplaceBack 0%nat (@FromArgs Z elem 1);;
  EmplaceBack 0%nat (@FromArgs Z elem (-2));;
  ret tt.

(** an empty vector at address 0 *)
Definition st_empty : @State Z :=
  mkState ∅ {[0%nat := mkVec RawMemory_default 0]} 50.

(** two vectors: [7] at address 0 and [1, 2] at address 1 *)
Definition v7 : Vector := mkVec (mkRaw (Some 1%nat) 1) 1.
Definition v12 : Vector := mkVec (mkRaw (Some 2%nat) 2) 2.
Definition st_two : @State Z :=
  mkState {[1%nat := [Some 7]; 2%nat := [Some 1; Some 2]]}
          {[0%nat := v7; 1%nat := v12]} 50.

Local Close Scope Z_scope.

End IntElem.

(** An integer-like element type with a [noexcept] move constructor, a
    default constructor that throws, and a copy constructor and a copy
    assignment that throw on negative values. *)
Module MoveElem.

Definition elem : Element Z.
Proof.
  refine {|
    Args := Z;
    construct := λ a, Some a;
    value_init := None;
    copy_throws := λ x, bool_decide (x < 0)%Z;
    move_throws := λ _, false;
    copy_assign_throws := λ x, bool_decide (x < 0)%Z;
    move_assign_throws := λ _, false;
    moved_from := λ x, x;
    is_nothrow_move_constructible := true;
    is_copy_constructible := true
  |}.
  done.
Defined.

Local Open Scope Z_scope.


Local Close Scope Z_scope.

End MoveElem.

(** * Reasoning principles *)

#[global] Arguments Allocate : simpl never.
#[global] Arguments Deallocate : simpl never.
#[global] Arguments read : simpl never.
#[global] Arguments emplace_at : simpl never.
#[global] Arguments store : simpl never.
#[global] Arguments Destroy : simpl never.
#[global] Arguments get_obj : simpl never.
#[global] Arguments put_obj : simpl never.

(** ** The monad *)

Section monad_lemmas.
Context {S A B : Type}.
Implicit Types (m : M S A) (f : A → M S B).

Lemma bind_Ret m f s a s' : m s = Ret a s' → bind m f s = f a s'.
Proof. unfold bind. by intros ->. Qed.

Lemma bind_Throw m f s s' : m s = Throw s' → bind m f s = Throw s'.
Proof. unfold bind. by intros ->. Qed.

Lemma bind_Fault m f s : m s = Fault → bind m f s = Fault.
Proof. unfold bind. by intros ->. Qed.

Lemma on_throw_Ret m c s a s' : m s = Ret a s' → on_throw m c s = Ret a s'.
Proof. unfold on_throw. by intros ->. Qed.

Lemma on_throw_Throw m c s s' s'' :
  m s = Throw s' → c s' = Ret tt s'' → on_throw m c s = Throw s''.
Proof. unfold on_throw. by intros -> ->. Qed.

Lemma try_catch_Ret m (h : M S A) s a s' :
  m s = Ret a s' → try_catch m h s = Ret a s'.
Proof. unfold try_catch. by intros ->. Qed.

Lemma try_catch_Throw m (h : M S A) s s' :
  m s = Throw s' → try_catch m h s = h s'.
Proof. unfold try_catch. by intros ->. Qed.

Lemma noexcept_Ret m s a s' : m s = Ret a s' → noexcept m s = Ret a s'.
Proof. unfold noexcept. by intros ->. Qed.

End monad_lemmas.

Lemma bind_ret_l {S A B} (a : A) (f : A → M S B) s : bind (ret a) f s = f a s.
Proof. done. Qed.

Lemma bind_assoc {S A B C} (m : M S A) (f : A → M S B) (g : B → M S C) s :
  bind (bind m f) g s = bind m (λ x, bind (f x) g) s.
Proof. unfold bind. by destruct (m s). Qed.

(** ** Blocks and slots *)

Section heap_lemmas.
Context {T : Type} `{!Element T}.
Implicit Types (s : @State T) (blk : list (slot T)) (b : nat) (x : T).

Lemma Ret_state_eq {A} (a : A) h h' o o' n n' :
  h = h' → o = o' → n = n' →
  @Ret (@State T) A a (mkState h o n) = Ret a (mkState h' o' n').
Proof. by intros -> -> ->. Qed.

Lemma heap_upd_blk b blk s : heap (upd_blk b blk s) = <[b := blk]> (heap s).
Proof. done. Qed.
Lemma objs_upd_blk b blk s : objs (upd_blk b blk s) = objs s.
Proof. done. Qed.
Lemma avail_upd_blk b blk s : avail (upd_blk b blk s) = avail s.
Proof. done. Qed.

Lemma lookup_upd_blk b blk s : heap (upd_blk b blk s) !! b = Some blk.
Proof. apply lookup_insert_eq. Qed.

Lemma lookup_upd_blk_ne b b' blk s :
  b ≠ b' → heap (upd_blk b blk s) !! b' = heap s !! b'.
Proof. intros. by apply lookup_insert_ne. Qed.

Lemma upd_blk_upd_blk b blk blk' s :
  upd_blk b blk' (upd_blk b blk s) = upd_blk b blk' s.
Proof. unfold upd_blk, set_heap; simpl. by rewrite insert_insert_eq. Qed.

Lemma upd_blk_id b blk s : heap s !! b = Some blk → upd_blk b blk s = s.
Proof.
  intros Hb. destruct s as [h o a]; unfold upd_blk, set_heap; simpl in *.
  by rewrite insert_id.
Qed.

Lemma upd_blk_comm b b' blk blk' s :
  b ≠ b' → upd_blk b blk (upd_blk b' blk' s) = upd_blk b' blk' (upd_blk b blk s).
Proof.
  intros. unfold upd_blk, set_heap; simpl. by rewrite insert_insert_ne.
Qed.

Lemma set_slot_upd b i v blk s :
  heap s !! b = Some blk →
  set_slot (Ptr (Some b) i) v s = upd_blk b (<[i := v]> blk) s.
Proof.
  intros Hb. unfold set_slot, upd_blk; simpl. f_equal.
  apply map_eq; intros j. rewrite lookup_alter, lookup_insert.
  destruct (decide (b = j)) as [->|]; [by rewrite Hb|done].
Qed.

Lemma slot_at_Some b i blk s :
  heap s !! b = Some blk → slot_at s (Ptr (Some b) i) = blk !! i.
Proof. intros Hb. unfold slot_at; simpl. by rewrite Hb. Qed.

Lemma read_eq b i blk x s :
  heap s !! b = Some blk → blk !! i = Some (Some x) →
  read (Ptr (Some b) i) s = Ret x s.
Proof. intros Hb Hi. unfold read. by rewrite (slot_at_Some _ _ _ _ Hb), Hi. Qed.

Lemma emplace_at_eq b i blk x s :
  heap s !! b = Some blk → blk !! i = Some None →
  emplace_at (Ptr (Some b) i) x s = Ret tt (upd_blk b (<[i := Some x]> blk) s).
Proof.
  intros Hb Hi. unfold emplace_at.
  by rewrite (slot_at_Some _ _ _ _ Hb), Hi, (set_slot_upd _ _ _ _ _ Hb).
Qed.

Lemma store_eq b i blk x y s :
  heap s !! b = Some blk → blk !! i = Some (Some y) →
  store (Ptr (Some b) i) x s = Ret tt (upd_blk b (<[i := Some x]> blk) s).
Proof.
  intros Hb Hi. unfold store.
  by rewrite (slot_at_Some _ _ _ _ Hb), Hi, (set_slot_upd _ _ _ _ _ Hb).
Qed.

Lemma Destroy_eq b i blk y s :
  heap s !! b = Some blk → blk !! i = Some (Some y) →
  Destroy (Ptr (Some b) i) s = Ret tt (upd_blk b (<[i := None]> blk) s).
Proof.
  intros Hb Hi. unfold Destroy.
  by rewrite (slot_at_Some _ _ _ _ Hb), Hi, (set_slot_upd _ _ _ _ _ Hb).
Qed.

(** the slot in the middle of a block *)
Lemma lookup_mid (pre post : list (slot T)) (v : @slot T) :
  (pre ++ v :: post) !! length pre = Some v.
Proof. by rewrite list_lookup_middle. Qed.

Lemma insert_mid (pre post : list (slot T)) (v w : @slot T) :
  <[length pre := w]> (pre ++ v :: post) = pre ++ w :: post.
Proof. by rewrite insert_app_r_alt, Nat.sub_diag by lia. Qed.

End heap_lemmas.

(** ** The algorithms on segments of blocks

    A segment is described by the slots before it ([pre]), its own slots and
    the slots after it ([post]); a pointer to it has offset [length pre]. *)

Section algorithm_lemmas.
Context {T : Type} `{!Element T}.
Implicit Types (s : @State T) (b : nat) (x y z : T) (xs ys : list T).
Implicit Types (pre post spre spost dpre dpost : list (slot T)).

Lemma ptr_add_Some b i n : Ptr (Some b) i +ₚ n = Ptr (Some b) (i + n).
Proof. done. Qed.

Lemma ptr_succ_app b pre (v : slot T) :
  Ptr (Some b) (length pre) +ₚ 1 = Ptr (Some b) (length (pre ++ [v])).
Proof. by rewrite length_app. Qed.

(** [DestroyN] turns a segment of live objects into raw storage. *)
Lemma DestroyN_eq xs : ∀ pre post b s,
  heap s !! b = Some (pre ++ (Some <$> xs) ++ post) →
  DestroyN (Ptr (Some b) (length pre)) (length xs) s
  = Ret tt (upd_blk b (pre ++ replicate (length xs) None ++ post) s).
Proof.
  induction xs as [|x xs IH]; intros pre post b s Hb; simpl in *.
  - unfold ret. by rewrite upd_blk_id.
  - rewrite (bind_Ret _ _ _ _ _ (Destroy_eq _ _ _ _ _ Hb (lookup_mid _ _ _))).
    rewrite insert_mid, (ptr_succ_app _ _ None).
    rewrite (IH (pre ++ [None]) post b).
    + rewrite upd_blk_upd_blk. by rewrite <- (assoc_L (++) pre).
    + rewrite lookup_upd_blk. by rewrite <- (assoc_L (++) pre).
Qed.

(** [std::uninitialized_copy_n] between two blocks: it fills the raw
    destination segment, or it throws and leaves the state as it found it. *)
Lemma uninitialized_copy_n_eq xs : ∀ spre spost dpre dpost bs bd s,
  bs ≠ bd →
  heap s !! bs = Some (spre ++ (Some <$> xs) ++ spost) →
  heap s !! bd = Some (dpre ++ replicate (length xs) None ++ dpost) →
  uninitialized_copy_n (Ptr (Some bs) (length spre)) (length xs)
                       (Ptr (Some bd) (length dpre)) s
  = if forallb (λ x, negb (copy_throws x)) xs
    then Ret tt (upd_blk bd (dpre ++ (Some <$> xs) ++ dpost) s)
    else Throw s.
Proof.
  induction xs as [|x xs IH]; intros spre spost dpre dpost bs bd s Hne Hs Hd; simpl in *.
  - unfold ret. by rewrite upd_blk_id.
  - unfold copy_construct_at at 1. rewrite bind_assoc.
    rewrite (bind_Ret _ _ _ _ _ (read_eq _ _ _ _ _ Hs (lookup_mid _ _ _))).
    unfold bind at 1.
    destruct (copy_throws x) eqn:Hx; simpl; [done|].
    rewrite (emplace_at_eq _ _ _ _ _ Hd (lookup_mid _ _ _)), insert_mid.
    rewrite (ptr_succ_app _ spre (Some x)), (ptr_succ_app _ dpre (Some x)).
    set (s1 := upd_blk bd _ s).
    assert (Hs1 : heap s1 !! bs = Some ((spre ++ [Some x]) ++ (Some <$> xs) ++ spost)).
    { unfold s1. rewrite lookup_upd_blk_ne by done.
      by rewrite <- (assoc_L (++) spre). }
    assert (Hd1 : heap s1 !! bd
                  = Some ((dpre ++ [Some x]) ++ replicate (length xs) None ++ dpost)).
    { unfold s1. rewrite lookup_upd_blk. by rewrite <- (assoc_L (++) dpre). }
    unfold on_throw. rewrite (IH _ _ _ _ _ _ _ Hne Hs1 Hd1).
    destruct (forallb _ xs).
    + unfold s1. rewrite upd_blk_upd_blk. by rewrite <- (assoc_L (++) dpre).
    + rewrite (Destroy_eq _ (length dpre) _ x _ Hd1).
      2:{ rewrite <- (assoc_L (++) dpre). apply lookup_mid. }
      rewrite <- (assoc_L (++) dpre); simpl. rewrite insert_mid.
      unfold s1. rewrite upd_blk_upd_blk. by rewrite upd_blk_id.
Qed.

(** [std::uninitialized_move_n] between two blocks, when no move
    constructor throws: the sources are left in their moved-from state. *)
Lemma uninitialized_move_n_eq xs : ∀ spre spost dpre dpost bs bd s,
  bs ≠ bd →
  heap s !! bs = Some (spre ++ (Some <$> xs) ++ spost) →
  heap s !! bd = Some (dpre ++ replicate (length xs) None ++ dpost) →
  Forall (λ x, move_throws x = false) xs →
  uninitialized_move_n (Ptr (Some bs) (length spre)) (length xs)
                       (Ptr (Some bd) (length dpre)) s
  = Ret tt (upd_blk bs (spre ++ (Some <$> (moved_from <$> xs)) ++ spost)
              (upd_blk bd (dpre ++ (Some <$> xs) ++ dpost) s)).
Proof.
  induction xs as [|x xs IH];
    intros spre spost dpre dpost bs bd s Hne Hs Hd Hok; simpl in *.
  - unfold ret. rewrite (upd_blk_id bd) by done. by rewrite upd_blk_id.
  - apply Forall_cons in Hok as [Hx Hok].
    unfold move_construct_at at 1. rewrite bind_assoc.
    rewrite (bind_Ret _ _ _ _ _ (read_eq _ _ _ _ _ Hs (lookup_mid _ _ _))).
    rewrite Hx, bind_assoc.
    rewrite (bind_Ret _ _ _ _ _ (emplace_at_eq _ _ _ _ _ Hd (lookup_mid _ _ _))).
    rewrite insert_mid. set (s1 := upd_blk bd _ s).
    assert (Hs1 : heap s1 !! bs = Some (spre ++ Some x :: (Some <$> xs) ++ spost)).
    { unfold s1. by rewrite lookup_upd_blk_ne. }
    rewrite (bind_Ret _ _ _ _ _ (store_eq _ _ _ _ _ _ Hs1 (lookup_mid _ _ _))).
    rewrite insert_mid. set (s2 := upd_blk bs _ s1).
    rewrite (ptr_succ_app _ spre (Some (moved_from x))), (ptr_succ_app _ dpre (Some x)).
    unfold on_throw. rewrite (IH (spre ++ [Some (moved_from x)]) spost
                                 (dpre ++ [Some x]) dpost bs bd s2 Hne); [| | |done].
    + unfold s2, s1. f_equal.
      rewrite (upd_blk_comm bd bs) by done. rewrite !upd_blk_upd_blk.
      by rewrite <- !(assoc_L (++) _ [_]).
    + unfold s2. rewrite lookup_upd_blk. by rewrite <- (assoc_L (++) spre).
    + unfold s2, s1. rewrite lookup_upd_blk_ne by done. rewrite lookup_upd_blk.
      by rewrite <- (assoc_L (++) dpre).
Qed.

Lemma length_relocated_from xs : length (relocated_from xs) = length xs.
Proof. unfold relocated_from. destruct (_ || _); by rewrite ?length_fmap. Qed.

Lemma forallb_copy_ok xs :
  Forall (λ x, copy_throws x = false) xs →
  forallb (λ x, negb (copy_throws x)) xs = true.
Proof. induction 1 as [|x xs Hx _ IH]; simpl; [done|]. by rewrite Hx, IH. Qed.

Lemma Forall_nothrow_move_assign xs :
  Forall nothrow xs → Forall (λ x, move_assign_throws x = false) xs.
Proof. intros H. eapply Forall_impl; [exact H|]. by intros x (_ & _ & _ & ?). Qed.

Lemma forallb_nothrow_copy xs :
  Forall nothrow xs → forallb (λ x, negb (copy_throws x)) xs = true.
Proof.
  induction 1 as [|x xs (Hx & _) _ IH]; simpl; [done|]. by rewrite Hx, IH.
Qed.

Lemma Forall_nothrow_move xs :
  Forall nothrow xs → Forall (λ x, move_throws x = false) xs.
Proof. intros H. eapply Forall_impl; [exact H|]. by intros x (_ & ? & _). Qed.

Lemma CopyOrMoveData_eq xs spre spost dpre dpost bs bd s :
  bs ≠ bd →
  heap s !! bs = Some (spre ++ (Some <$> xs) ++ spost) →
  heap s !! bd = Some (dpre ++ replicate (length xs) None ++ dpost) →
  Forall nothrow xs →
  CopyOrMoveData (Ptr (Some bs) (length spre)) (length xs)
                 (Ptr (Some bd) (length dpre)) s
  = Ret tt (upd_blk bs (spre ++ (Some <$> relocated_from xs) ++ spost)
              (upd_blk bd (dpre ++ (Some <$> xs) ++ dpost) s)).
Proof.
  intros Hne Hs Hd Hok. unfold CopyOrMoveData, relocated_from.
  destruct (_ || _).
  - apply uninitialized_move_n_eq; auto using Forall_nothrow_move.
  - rewrite (uninitialized_copy_n_eq _ _ _ _ _ _ _ _ Hne Hs Hd).
    rewrite forallb_nothrow_copy by done. f_equal. symmetry.
    apply upd_blk_id. by rewrite lookup_upd_blk_ne.
Qed.

(** [std::uninitialized_value_construct_n] on a raw segment *)
Lemma uninitialized_value_construct_n_eq n d : ∀ pre post b s,
  value_init = Some d →
  heap s !! b = Some (pre ++ replicate n None ++ post) →
  uninitialized_value_construct_n (Ptr (Some b) (length pre)) n s
  = Ret tt (upd_blk b (pre ++ replicate n (Some d) ++ post) s).
Proof.
  induction n as [|n IH]; intros pre post b s Hd Hb; simpl in *.
  - unfold ret. by rewrite upd_blk_id.
  - unfold value_construct_at at 1. rewrite Hd.
    rewrite (bind_Ret _ _ _ _ _ (emplace_at_eq _ _ _ _ _ Hb (lookup_mid _ _ _))).
    rewrite insert_mid, (ptr_succ_app _ pre (Some d)).
    unfold on_throw. rewrite (IH (pre ++ [Some d]) post b _ Hd).
    + rewrite upd_blk_upd_blk. by rewrite <- (assoc_L (++) pre).
    + rewrite lookup_upd_blk. by rewrite <- (assoc_L (++) pre).
Qed.

(** ... and when value-initialisation throws: nothing is left constructed *)
Lemma uninitialized_value_construct_n_throw n pre post b s :
  value_init = None → 0 < n →
  uninitialized_value_construct_n (Ptr (Some b) (length pre)) n s = Throw s.
Proof.
  intros Hd Hn. destruct n as [|n]; [lia|]. simpl.
  unfold value_construct_at. by rewrite Hd.
Qed.

(** [std::copy] between two blocks, onto live objects *)
Lemma copy_n_eq xs : ∀ ys spre spost dpre dpost bs bd s,
  bs ≠ bd → length ys = length xs →
  heap s !! bs = Some (spre ++ (Some <$> xs) ++ spost) →
  heap s !! bd = Some (dpre ++ (Some <$> ys) ++ dpost) →
  Forall (λ x, copy_assign_throws x = false) xs →
  copy_n (Ptr (Some bs) (length spre)) (length xs) (Ptr (Some bd) (length dpre)) s
  = Ret tt (upd_blk bd (dpre ++ (Some <$> xs) ++ dpost) s).
Proof.
  induction xs as [|x xs IH];
    intros [|y ys] spre spost dpre dpost bs bd s Hne Hlen Hs Hd Hok;
    simpl in *; try done.
  - unfold ret. by rewrite upd_blk_id.
  - apply Forall_cons in Hok as [Hx Hok].
    unfold copy_assign at 1. rewrite bind_assoc.
    rewrite (bind_Ret _ _ _ _ _ (read_eq _ _ _ _ _ Hs (lookup_mid _ _ _))).
    rewrite Hx.
    rewrite (bind_Ret _ _ _ _ _ (store_eq _ _ _ _ _ _ Hd (lookup_mid _ _ _))).
    rewrite insert_mid.
    rewrite (ptr_succ_app _ spre (Some x)), (ptr_succ_app _ dpre (Some x)).
    rewrite (IH ys (spre ++ [Some x]) spost (dpre ++ [Some x]) dpost bs bd);
      [|done|lia| | |done].
    + rewrite upd_blk_upd_blk. by rewrite <- (assoc_L (++) dpre).
    + rewrite lookup_upd_blk_ne by done. by rewrite <- (assoc_L (++) spre).
    + rewrite lookup_upd_blk. by rewrite <- (assoc_L (++) dpre).
Qed.

(** *** Shifts inside one block *)

Lemma lookup_mid_at (pre post : list (slot T)) (v : slot T) i :
  i = length pre → (pre ++ v :: post) !! i = Some v.
Proof. intros ->. apply lookup_mid. Qed.

Lemma insert_mid_at (pre post : list (slot T)) (v w : slot T) i :
  i = length pre → <[i := w]> (pre ++ v :: post) = pre ++ w :: post.
Proof. intros ->. apply insert_mid. Qed.

(** [move_assign] between two adjacent slots, to the left ... *)
Lemma move_assign_left pre post x y b s i :
  i = length pre →
  heap s !! b = Some (pre ++ Some x :: Some y :: post) →
  move_assign_throws y = false →
  move_assign (Ptr (Some b) i) (Ptr (Some b) (S i)) s
  = Ret tt (upd_blk b (pre ++ Some y :: Some (moved_from y) :: post) s).
Proof.
  intros -> Hb Hy. unfold move_assign.
  assert (Hsrc : (pre ++ Some x :: Some y :: post) !! S (length pre) = Some (Some y)).
  { rewrite (cons_middle (Some x)), (assoc_L (++)).
    apply lookup_mid_at. rewrite length_app; simpl; lia. }
  rewrite (bind_Ret _ _ _ _ _ (read_eq _ _ _ _ _ Hb Hsrc)), Hy.
  rewrite (bind_Ret _ _ _ _ _ (store_eq _ _ _ _ _ _ Hb (lookup_mid _ _ _))).
  rewrite insert_mid.
  erewrite store_eq; [|apply lookup_upd_blk|].
  - rewrite upd_blk_upd_blk. do 2 f_equal.
    rewrite (cons_middle (Some y)), (assoc_L (++)).
    rewrite insert_mid_at by (rewrite length_app; simpl; lia).
    by rewrite <- (assoc_L (++)).
  - rewrite (cons_middle (Some y)), (assoc_L (++)).
    apply lookup_mid_at. rewrite length_app; simpl; lia.
Qed.

(** ... and to the right *)
Lemma move_assign_right pre post x y b s i :
  i = length pre →
  heap s !! b = Some (pre ++ Some y :: Some x :: post) →
  move_assign_throws y = false →
  move_assign (Ptr (Some b) (S i)) (Ptr (Some b) i) s
  = Ret tt (upd_blk b (pre ++ Some (moved_from y) :: Some y :: post) s).
Proof.
  intros -> Hb Hy. unfold move_assign.
  rewrite (bind_Ret _ _ _ _ _ (read_eq _ _ _ _ _ Hb (lookup_mid _ _ _))), Hy.
  assert (Hdst : (pre ++ Some y :: Some x :: post) !! S (length pre) = Some (Some x)).
  { rewrite (cons_middle (Some y)), (assoc_L (++)).
    apply lookup_mid_at. rewrite length_app; simpl; lia. }
  rewrite (bind_Ret _ _ _ _ _ (store_eq _ _ _ _ _ _ Hb Hdst)).
  erewrite store_eq; [|apply lookup_upd_blk|].
  - rewrite upd_blk_upd_blk. do 2 f_equal.
    rewrite (cons_middle (Some y)), (assoc_L (++)).
    rewrite insert_mid_at by (rewrite length_app; simpl; lia).
    rewrite <- (assoc_L (++)); simpl. by rewrite insert_mid.
  - rewrite (cons_middle (Some y)), (assoc_L (++)).
    rewrite insert_mid_at by (rewrite length_app; simpl; lia).
    rewrite <- (assoc_L (++)); simpl. apply lookup_mid.
Qed.

(** [std::move] of a segment one slot to the left: the slot after the
    segment keeps a moved-from (or, for an empty segment, the old) object *)
Lemma move_n_left ys : ∀ pre post x b s i,
  i = length pre →
  heap s !! b = Some (pre ++ Some x :: (Some <$> ys) ++ post) →
  Forall (λ y, move_assign_throws y = false) ys →
  ∃ w, move_n (Ptr (Some b) (S i)) (length ys) (Ptr (Some b) i) s
       = Ret tt (upd_blk b (pre ++ (Some <$> ys) ++ Some w :: post) s).
Proof.
  induction ys as [|y ys IH]; intros pre post x b s i -> Hb Hok; simpl in *.
  - exists x. unfold ret. by rewrite upd_blk_id.
  - apply Forall_cons in Hok as [Hy Hok].
    rewrite (bind_Ret _ _ _ _ _ (move_assign_left _ _ _ _ _ _ _ eq_refl Hb Hy)).
    destruct (IH (pre ++ [Some y]) post (moved_from y) b
                 (upd_blk b (pre ++ Some y :: Some (moved_from y)
                                 :: (Some <$> ys) ++ post) s)
                 (length pre + 1)) as [w Hw]; [| |done|].
    + rewrite length_app; simpl; lia.
    + rewrite lookup_upd_blk. by rewrite <- (assoc_L (++) pre).
    + exists w. etrans; [exact Hw|]. rewrite upd_blk_upd_blk.
      by rewrite <- (assoc_L (++) pre).
Qed.

(** [std::move_backward] of a segment one slot to the right, onto a live
    object: the first slot of the segment keeps a moved-from object *)
Lemma move_backward_n_right ys : ∀ pre post z b s i,
  i = length pre + length ys →
  heap s !! b = Some (pre ++ (Some <$> ys) ++ Some z :: post) →
  Forall (λ y, move_assign_throws y = false) ys →
  ∃ w, move_backward_n (Ptr (Some b) i) (length ys) (Ptr (Some b) (S i)) s
       = Ret tt (upd_blk b (pre ++ Some w :: (Some <$> ys) ++ post) s).
Proof.
  induction ys as [|y ys IH] using rev_ind; intros pre post z b s i -> Hb Hok.
  - exists z. simpl in *. unfold ret. by rewrite upd_blk_id.
  - apply Forall_app in Hok as [Hok Hy].
    rewrite Forall_singleton in Hy.
    rewrite length_app, Nat.add_1_r; simpl.
    unfold ptr_sub; simpl. rewrite Nat.sub_0_r.
    replace (length pre + S (length ys) - 1) with (length pre + length ys) by lia.
    replace (length pre + S (length ys)) with (S (length pre + length ys)) by lia.
    rewrite fmap_app in Hb; simpl in Hb.
    rewrite <- (assoc_L (++) (Some <$> ys)), (assoc_L (++) pre) in Hb; simpl in Hb.
    rewrite (bind_Ret _ _ _ _ _
               (move_assign_right (pre ++ (Some <$> ys)) _ z y b s
                  (length pre + length ys) ltac:(by rewrite length_app, length_fmap)
                  Hb Hy)).
    destruct (IH pre (Some y :: post) (moved_from y) b
                 (upd_blk b ((pre ++ (Some <$> ys)) ++ Some (moved_from y)
                                 :: Some y :: post) s)
                 (length pre + length ys)) as [w Hw]; [done| |done|].
    + rewrite lookup_upd_blk. by rewrite <- (assoc_L (++) pre).
    + exists w. rewrite Hw, upd_blk_upd_blk. do 2 f_equal.
      rewrite fmap_app; simpl. by rewrite <- (assoc_L (++) (Some <$> ys)).
Qed.

(** [std::uninitialized_move_n] of the last object into the raw slot after
    it *)
Lemma uninitialized_move_1_right pre post y b s i :
  i = length pre →
  heap s !! b = Some (pre ++ Some y :: None :: post) →
  move_throws y = false →
  uninitialized_move_n (Ptr (Some b) i) 1 (Ptr (Some b) (S i)) s
  = Ret tt (upd_blk b (pre ++ Some (moved_from y) :: Some y :: post) s).
Proof.
  intros -> Hb Hy. simpl. unfold move_construct_at. rewrite ?bind_assoc.
  rewrite (bind_Ret _ _ _ _ _ (read_eq _ _ _ _ _ Hb (lookup_mid _ _ _))), Hy.
  assert (Hdst : (pre ++ Some y :: None :: post) !! S (length pre) = Some None).
  { rewrite (cons_middle (Some y)), (assoc_L (++)).
    apply lookup_mid_at. rewrite length_app; simpl; lia. }
  rewrite bind_assoc.
  rewrite (bind_Ret _ _ _ _ _ (emplace_at_eq _ _ _ _ _ Hb Hdst)).
  erewrite bind_Ret; cycle 1.
  { eapply store_eq; [apply lookup_upd_blk|].
    rewrite (cons_middle (Some y)), (assoc_L (++)).
    rewrite insert_mid_at by (rewrite length_app; simpl; lia).
    rewrite <- (assoc_L (++)); simpl. apply lookup_mid. }
  unfold on_throw, ret. rewrite upd_blk_upd_blk. do 2 f_equal.
  rewrite (cons_middle (Some y)), (assoc_L (++)).
  rewrite insert_mid_at by (rewrite length_app; simpl; lia).
  rewrite <- (assoc_L (++)); simpl. by rewrite insert_mid.
Qed.

End algorithm_lemmas.

#[global] Arguments uninitialized_copy_n : simpl never.
#[global] Arguments uninitialized_move_n : simpl never.
#[global] Arguments uninitialized_value_construct_n : simpl never.
#[global] Arguments copy_n : simpl never.
#[global] Arguments move_n : simpl never.
#[global] Arguments move_backward_n : simpl never.
#[global] Arguments DestroyN : simpl never.

(** ** Vectors in a state *)

Section vector_lemmas.
Context {T : Type} `{!Element T}.
Implicit Types (s : @State T) (v : Vector) (l : list T) (this b : nat).

Lemma length_block_of l cap : length l ≤ cap → length (block_of l cap) = cap.
Proof.
  intros. unfold block_of. rewrite length_app, length_fmap, length_replicate. lia.
Qed.

Lemma block_of_nil cap : block_of ([] : list T) cap = replicate cap None.
Proof. unfold block_of; simpl. by rewrite Nat.sub_0_r. Qed.

Lemma replicate_split {A} (a : A) n k :
  k ≤ n → replicate n a = replicate k a ++ replicate (n - k) a.
Proof. intros. rewrite <- replicate_add. f_equal. lia. Qed.

Lemma replicate_S_pred {A} (a : A) n :
  0 < n → replicate n a = a :: replicate (n - 1) a.
Proof. destruct n; [lia|]. simpl. by rewrite Nat.sub_0_r. Qed.

Lemma objs_upd_obj a v s : objs (upd_obj a v s) = <[a := v]> (objs s).
Proof. done. Qed.
Lemma lookup_upd_obj a v s : objs (upd_obj a v s) !! a = Some v.
Proof. apply lookup_insert_eq. Qed.
Lemma upd_obj_upd_obj a v v' s : upd_obj a v' (upd_obj a v s) = upd_obj a v' s.
Proof. unfold upd_obj, set_objs; simpl. by rewrite insert_insert_eq. Qed.
Lemma upd_obj_id a v s : objs s !! a = Some v → upd_obj a v s = s.
Proof.
  intros. destruct s; unfold upd_obj, set_objs; simpl in *. by rewrite insert_id.
Qed.

Lemma get_obj_eq this v s : objs s !! this = Some v → get_obj this s = Ret v s.
Proof. unfold get_obj. by intros ->. Qed.

Lemma put_obj_eq a v s : put_obj a v s = Ret tt (upd_obj a v s).
Proof. done. Qed.

Lemma get_data_eq this v s :
  objs s !! this = Some v → get_data this s = Ret (data_ v) s.
Proof. intros H. unfold get_data. by rewrite (bind_Ret _ _ _ _ _ (get_obj_eq _ _ _ H)). Qed.

Lemma Size_eq this v s : objs s !! this = Some v → Size this s = Ret (size_ v) s.
Proof. intros H. unfold Size. by rewrite (bind_Ret _ _ _ _ _ (get_obj_eq _ _ _ H)). Qed.

Lemma Capacity_eq this v s :
  objs s !! this = Some v → Capacity this s = Ret (capacity_ (data_ v)) s.
Proof. intros H. unfold Capacity. by rewrite (bind_Ret _ _ _ _ _ (get_obj_eq _ _ _ H)). Qed.

Lemma begin_eq this v s :
  objs s !! this = Some v → begin_ this s = Ret (GetAddress (data_ v)) s.
Proof. intros H. unfold begin_. by rewrite (bind_Ret _ _ _ _ _ (get_obj_eq _ _ _ H)). Qed.

Lemma end_eq this v s :
  objs s !! this = Some v →
  end_ this s = Ret (GetAddress (data_ v) +ₚ size_ v) s.
Proof. intros H. unfold end_. by rewrite (bind_Ret _ _ _ _ _ (get_obj_eq _ _ _ H)). Qed.

Lemma set_data_eq this v d s :
  objs s !! this = Some v →
  set_data this d s = Ret tt (upd_obj this (mkVec d (size_ v)) s).
Proof. intros H. unfold set_data. by rewrite (bind_Ret _ _ _ _ _ (get_obj_eq _ _ _ H)). Qed.

Lemma set_size_eq this v n s :
  objs s !! this = Some v →
  set_size this n s = Ret tt (upd_obj this (mkVec (data_ v) n) s).
Proof. intros H. unfold set_size. by rewrite (bind_Ret _ _ _ _ _ (get_obj_eq _ _ _ H)). Qed.

Lemma fresh_block s : heap s !! fresh (dom (heap s)) = None.
Proof. apply not_elem_of_dom, is_fresh. Qed.

Lemma fresh_block_ne s b blk :
  heap s !! b = Some blk → b ≠ fresh (dom (heap s)).
Proof. intros Hb ->. by rewrite fresh_block in Hb. Qed.

Lemma Allocate_eq n s :
  n ≠ 0 → n ≤ avail s →
  Allocate n s
  = Ret (Some (fresh (dom (heap s))))
        (mkState (<[fresh (dom (heap s)) := replicate n None]> (heap s))
                 (objs s) (avail s - n)).
Proof. intros. unfold Allocate. by rewrite !decide_False, decide_True by done. Qed.

Lemma Allocate_throw n s : avail s < n → Allocate n s = Throw s.
Proof.
  intros. unfold Allocate. rewrite decide_False by lia. by rewrite decide_False by lia.
Qed.

Lemma Deallocate_eq b blk s :
  heap s !! b = Some blk →
  Deallocate (Some b) s
  = Ret tt (mkState (delete b (heap s)) (objs s) (avail s + length blk)).
Proof. unfold Deallocate. by intros ->. Qed.

Lemma CopyOrMoveData_0 (p q : ptr) : CopyOrMoveData p 0 q = ret tt.
Proof. unfold CopyOrMoveData. by destruct (_ || _). Qed.

Lemma vec_at_realloc_state s this v l' newcap :
  length l' ≤ newcap →
  vec_at (realloc_state s this v l' newcap) this
         (mkVec (mkRaw (Some (fresh (dom (heap s)))) newcap) (length l')) l'.
Proof.
  intros. split; [apply lookup_insert_eq|].
  split; [done|]. split; [done|]. simpl. apply lookup_insert_eq.
Qed.

Lemma Reserve_grow s this v l n :
  vec_at s this v l → capacity_ (data_ v) < n → n ≤ avail s →
  Forall nothrow l →
  Reserve this n s = Ret tt (realloc_state s this v l n).
Proof.
  intros [Hobj (Hsz & Hcap & Hblk)] Hn Havail Hok. unfold Reserve.
  rewrite (bind_Ret _ _ _ _ _ (get_data_eq _ _ _ Hobj)).
  rewrite decide_False by lia.
  unfold RawMemory_ctor. rewrite bind_assoc.
  rewrite (bind_Ret _ _ _ _ _ (Allocate_eq n s ltac:(lia) Havail)).
  set (nb := fresh (dom (heap s))).
  set (s1 := mkState _ _ _).
  assert (Hobj1 : objs s1 !! this = Some v) by done.
  rewrite bind_ret_l, (bind_Ret _ _ _ _ _ (Size_eq _ _ _ Hobj1)).
  destruct v as [[[ob|] cap] sz]; simpl in *.
  - (* the vector owns a block *)
    assert (Hne : ob ≠ nb) by (by eapply fresh_block_ne).
    assert (Hs1 : heap s1 !! ob = Some ([] ++ (Some <$> l) ++ replicate (cap - length l) None)).
    { unfold s1; simpl. by rewrite lookup_insert_ne. }
    assert (Hd1 : heap s1 !! nb = Some ([] ++ replicate (length l) None
                                           ++ replicate (n - length l) None)).
    { unfold s1; simpl. rewrite lookup_insert_eq. simpl.
      by rewrite <- replicate_split by lia. }
    unfold GetAddress; simpl. rewrite Hsz.
    erewrite bind_Ret; cycle 1.
    { apply on_throw_Ret.
      apply (CopyOrMoveData_eq l [] _ [] _ ob nb s1 Hne Hs1 Hd1 Hok). }
    simpl. set (s2 := upd_blk ob _ _).
    assert (Hobj2 : objs s2 !! this = Some (mkVec (mkRaw (Some ob) cap) sz)) by done.
    rewrite (bind_Ret _ _ _ _ _ (set_data_eq _ _ _ _ Hobj2)).
    unfold destroy_n, GetAddress; simpl.
    erewrite bind_Ret; cycle 1.
    { rewrite <- (length_relocated_from l).
      apply (DestroyN_eq (relocated_from l) [] (replicate (cap - length l) None) ob).
      apply lookup_upd_blk. }
    unfold RawMemory_dtor; simpl.
    erewrite Deallocate_eq by apply lookup_upd_blk.
    unfold realloc_state; simpl. fold nb. apply Ret_state_eq.
    + rewrite !delete_insert_eq, insert_insert_eq.
      by rewrite delete_insert_ne by done.
    + by rewrite Hsz.
    + rewrite length_app, !length_replicate, length_relocated_from. lia.
  - (* the vector has no block *)
    subst cap. destruct l; [|simpl in *; lia]. simpl in *. subst sz.
    rewrite CopyOrMoveData_0. simpl.
    unfold on_throw, ret, bind; simpl.
    rewrite (set_data_eq this _ _ s1 Hobj1). unfold RawMemory_dtor, Deallocate; simpl.
    unfold realloc_state; simpl. fold nb. rewrite block_of_nil.
    unfold upd_obj, set_objs, s1; simpl. apply Ret_state_eq; [done..|lia].
Qed.

Lemma Reserve_noop s this v n :
  objs s !! this = Some v → n ≤ capacity_ (data_ v) → Reserve this n s = Ret tt s.
Proof.
  intros Hobj Hn. unfold Reserve.
  rewrite (bind_Ret _ _ _ _ _ (get_data_eq _ _ _ Hobj)). by rewrite decide_True.
Qed.

(** [Reserve] in either case: afterwards the capacity is the larger of the
    old one and the request *)
Lemma Reserve_ensures s this v l n :
  vec_at s this v l →
  (capacity_ (data_ v) < n → Forall nothrow l ∧ n ≤ avail s) →
  ∃ s' v', Reserve this n s = Ret tt s' ∧ vec_at s' this v' l ∧
           capacity_ (data_ v') = capacity_ (data_ v) `max` n ∧
           size_ v' = size_ v.
Proof.
  intros Hv Hgrow. destruct (decide (n ≤ capacity_ (data_ v))) as [Hn|Hn].
  - exists s, v. split; [apply (Reserve_noop _ _ _ _ (proj1 Hv) Hn)|].
    split; [done|]. split; [lia|done].
  - destruct Hgrow as [Hok Havail]; [lia|].
    eexists _, _. split; [apply (Reserve_grow _ _ _ _ _ Hv); [lia|done..]|].
    split; [apply vec_at_realloc_state; destruct Hv as (_ & _ & ? & _); lia|].
    simpl. split; [lia|]. by destruct Hv as (_ & -> & _).
Qed.

Lemma Resize_shrink s this v l n :
  vec_at s this v l → n < length l →
  ∃ s', Resize this n s = Ret tt s' ∧
        vec_at s' this (mkVec (data_ v) n) (take n l) ∧
        avail s' = avail s.
Proof.
  intros [Hobj (Hsz & Hcap & Hblk)] Hn. unfold Resize.
  rewrite (bind_Ret _ _ _ _ _ (Size_eq _ _ _ Hobj)).
  rewrite Hsz, decide_True by done.
  rewrite (bind_Ret _ _ _ _ _ (get_data_eq _ _ _ Hobj)).
  destruct v as [[[b|] cap] sz]; simpl in *; [|lia].
  unfold GetAddress; simpl.
  assert (Hb : heap s !! b = Some ((Some <$> take n l) ++ (Some <$> drop n l)
                                     ++ replicate (cap - length l) None)).
  { rewrite Hblk. unfold block_of.
    by rewrite (assoc_L (++)), <- fmap_app, take_drop. }
  pose proof (DestroyN_eq (drop n l) _ _ _ _ Hb) as HD.
  rewrite length_fmap, length_take, Nat.min_l, length_drop in HD by lia.
  rewrite (bind_Ret _ _ _ _ _ HD).
  eexists. split; [by apply set_size_eq|].
  split; [|done]. split; [apply lookup_upd_obj|].
  unfold holds; simpl. rewrite length_take, Nat.min_l by lia.
  split; [done|]. split; [lia|].
  rewrite lookup_insert_eq. unfold block_of.
  rewrite length_take, Nat.min_l by lia. rewrite <- replicate_add.
  do 3 f_equal. lia.
Qed.

Lemma Resize_grow s this v l n d :
  vec_at s this v l → length l < n → value_init = Some d →
  (capacity_ (data_ v) < n → Forall nothrow l ∧ n ≤ avail s) →
  ∃ s' v', Resize this n s = Ret tt s' ∧
           vec_at s' this v' (l ++ replicate (n - length l) d) ∧
           capacity_ (data_ v') = capacity_ (data_ v) `max` n ∧
           size_ v' = n.
Proof.
  intros Hv Hn Hd Hgrow. unfold Resize.
  rewrite (bind_Ret _ _ _ _ _ (Size_eq _ _ _ (proj1 Hv))).
  destruct Hv as [Hobj (Hsz & Hcap & Hblk)].
  rewrite Hsz, decide_False, decide_True by lia.
  destruct (Reserve_ensures s this v l n) as (s1 & v1 & HR & Hv1 & Hcap1 & Hsz1);
    [done..|].
  rewrite (bind_Ret _ _ _ _ _ HR).
  destruct Hv1 as [Hobj1 (_ & _ & Hblk1)].
  rewrite (bind_Ret _ _ _ _ _ (get_data_eq _ _ _ Hobj1)).
  destruct v1 as [[[b|] cap1] sz1]; simpl in *; [|lia].
  unfold GetAddress; simpl.
  assert (Hb : heap s1 !! b = Some ((Some <$> l) ++ replicate (n - length l) None
                                      ++ replicate (cap1 - n) None)).
  { rewrite Hblk1. unfold block_of. rewrite <- replicate_add. do 3 f_equal. lia. }
  pose proof (uninitialized_value_construct_n_eq (n - length l) d _ _ _ _ Hd Hb) as HC.
  rewrite length_fmap in HC. rewrite (bind_Ret _ _ _ _ _ HC).
  eexists _, _. split; [by apply set_size_eq|].
  split.
  { split; [apply lookup_upd_obj|]. unfold holds; simpl.
    rewrite length_app, length_replicate.
    split; [lia|]. split; [lia|].
    rewrite lookup_insert_eq. unfold block_of.
    rewrite length_app, length_replicate, fmap_app, fmap_replicate.
    rewrite <- (assoc_L (++)). do 4 f_equal. lia. }
  by simpl.
Qed.

Lemma block_of_split l cap p :
  block_of l cap
  = (Some <$> take p l) ++ (Some <$> drop p l) ++ replicate (cap - length l) None.
Proof. unfold block_of. by rewrite (assoc_L (++)), <- fmap_app, take_drop. Qed.

Lemma distance_eq b i j (s : @State T) :
  i ≤ j → distance (Ptr (Some b) i) (Ptr (Some b) j) s = Ret (j - i) s.
Proof. intros. unfold distance; simpl. by rewrite decide_True. Qed.

Lemma Erase_eq s this v l p :
  vec_at s this v l → p < length l →
  Forall (λ x, move_assign_throws x = false) (drop (S p) l) →
  ∃ s', Erase this (GetAddress (data_ v) +ₚ p) s
        = Ret (GetAddress (data_ v) +ₚ p) s' ∧
        vec_at s' this (mkVec (data_ v) (length l - 1)) (take p l ++ drop (S p) l) ∧
        avail s' = avail s.
Proof.
  intros [Hobj (Hsz & Hcap & Hblk)] Hp Hok. unfold Erase.
  rewrite (bind_Ret _ _ _ _ _ (end_eq _ _ _ Hobj)).
  destruct v as [[[b|] cap] sz]; simpl in *; [|lia]. subst sz.
  unfold GetAddress, ptr_add, ptr_sub; simpl.
  destruct (lookup_lt_is_Some_2 l p Hp) as [x Hx].
  pose proof (take_drop_middle l p x Hx) as Hl.
  assert (Hlen : length (drop (S p) l) = length l - (p + 1))
    by (rewrite length_drop; lia).
  assert (Hb : heap s !! b = Some ((Some <$> take p l) ++ Some x
                :: (Some <$> drop (S p) l) ++ replicate (cap - length l) None)).
  { rewrite Hblk. unfold block_of. rewrite <- Hl at 1.
    rewrite fmap_app, fmap_cons, <- (assoc_L (++)). done. }
  destruct (move_n_left (drop (S p) l) (Some <$> take p l)
              (replicate (cap - length l) None) x b s p) as [w Hw].
  { rewrite length_fmap, length_take; lia. }
  { exact Hb. }
  { exact Hok. }
  unfold std_move. rewrite bind_assoc.
  rewrite (bind_Ret _ _ _ _ _ (distance_eq b (p + 1) (length l) s ltac:(lia))).
  rewrite <- Hlen, Nat.add_1_r, (bind_Ret _ _ _ _ _ Hw).
  erewrite bind_Ret; cycle 1.
  { eapply Destroy_eq; [apply lookup_upd_blk|].
    rewrite (assoc_L (++)). apply lookup_mid_at.
    rewrite length_app, !length_fmap, length_take, Hlen. lia. }
  rewrite upd_blk_upd_blk.
  set (s1 := upd_blk _ _ _).
  assert (Hobj1 : objs s1 !! this = Some (mkVec (mkRaw (Some b) cap) (length l))) by done.
  rewrite (bind_Ret _ _ _ _ _ (Size_eq _ _ _ Hobj1)).
  rewrite (bind_Ret _ _ _ _ _ (set_size_eq _ _ _ _ Hobj1)).
  eexists. split; [done|]. split; [|done].
  split; [apply lookup_upd_obj|].
  assert (Hlen' : length (take p l ++ drop (S p) l) = length l - 1).
  { rewrite length_app, length_take, Hlen. lia. }
  unfold holds; simpl. rewrite Hlen'.
  split; [done|]. split; [lia|].
  unfold s1. rewrite lookup_insert_eq. f_equal.
  rewrite (assoc_L (++)), insert_mid_at
    by (rewrite length_app, !length_fmap, length_take, Hlen; lia).
  unfold block_of. rewrite Hlen', fmap_app, <- !(assoc_L (++)).
  do 2 f_equal. replace (cap - (length l - 1)) with (S (cap - length l)) by lia.
  done.
Qed.

Lemma construct_from_eq args x (s : @State T) :
  arg_value args = Some x → construct_from args s = Ret x s.
Proof. unfold construct_from. by intros ->. Qed.

(** [Emplace] when a slot is free: the elements from the position on move one
    slot to the right inside the block *)
Lemma Emplace_fast s this v l p args x :
  vec_at s this v l → length l < capacity_ (data_ v) → p ≤ length l →
  arg_value args = Some x → Forall nothrow (x :: l) →
  ∃ s', Emplace this (GetAddress (data_ v) +ₚ p) args s
        = Ret (GetAddress (data_ v) +ₚ p) s' ∧
        vec_at s' this (mkVec (data_ v) (S (length l))) (take p l ++ x :: drop p l) ∧
        avail s' = avail s.
Proof.
  intros [Hobj (Hsz & Hcap & Hblk)] Hfree Hp Hx Hok. unfold Emplace.
  apply Forall_cons in Hok as [(_ & _ & _ & Hxa) Hok].
  rewrite (bind_Ret _ _ _ _ _ (Size_eq _ _ _ Hobj)).
  rewrite (bind_Ret _ _ _ _ _ (Capacity_eq _ _ _ Hobj)).
  rewrite Hsz, decide_True by done.
  rewrite (bind_Ret _ _ _ _ _ (end_eq _ _ _ Hobj)).
  destruct v as [[[b|] cap] sz]; simpl in *; [|lia]. subst sz.
  unfold GetAddress, ptr_add, ptr_sub; simpl.
  assert (Hlen' : length (take p l ++ x :: drop p l) = S (length l)).
  { rewrite length_app, length_take; simpl. rewrite length_drop. lia. }
  assert (Hfin : ∀ s1 blk,
    blk = block_of (take p l ++ x :: drop p l) cap →
    objs s1 = objs s →
    heap s1 !! b = Some blk →
    vec_at (upd_obj this (mkVec (mkRaw (Some b) cap) (S (length l))) s1) this
           (mkVec (mkRaw (Some b) cap) (S (length l))) (take p l ++ x :: drop p l)).
  { intros s1 blk -> Ho Hb1. split; [apply lookup_upd_obj|].
    unfold holds; simpl. rewrite Hlen'. split; [done|]. split; [lia|done]. }
  destruct (decide (_ = _)) as [Heq|Hne].
  - (* at the end: constructed in place *)
    injection Heq as ->.
    rewrite ?bind_assoc, (bind_Ret _ _ _ _ _ (construct_from_eq _ _ _ Hx)).
    rewrite bind_assoc.
    erewrite bind_Ret; cycle 1.
    { eapply emplace_at_eq; [exact Hblk|].
      unfold block_of. rewrite (replicate_S_pred None (cap - length l)) by lia.
      apply lookup_mid_at. by rewrite length_fmap. }
    set (s1 := upd_blk _ _ _).
    assert (Hobj1 : objs s1 !! this = Some (mkVec (mkRaw (Some b) cap) (length l))) by done.
    rewrite (bind_Ret _ _ _ _ _ (end_eq _ _ _ Hobj1)).
    rewrite (bind_Ret _ _ _ _ _ (set_size_eq _ _ _ _ Hobj1)).
    eexists. split; [done|]. split; [|done].
    eapply (Hfin s1); [|done|apply lookup_upd_blk].
    unfold block_of at 1.
    rewrite (replicate_S_pred None (cap - length l)) by lia.
    rewrite insert_mid_at by (by rewrite length_fmap).
    unfold block_of. rewrite Hlen', take_ge, drop_ge by lia.
    rewrite fmap_app, <- (assoc_L (++)). simpl. do 3 f_equal. lia.
  - (* in the middle: through a temporary *)
    assert (p < length l) as Hlt.
    { destruct (decide (p = length l)) as [->|]; [done|lia]. }
    rewrite ?bind_assoc, (bind_Ret _ _ _ _ _ (construct_from_eq _ _ _ Hx)).
    rewrite bind_assoc.
    destruct (drop p l) as [|y ys _] eqn:Hdrop using rev_ind.
    { apply (f_equal length) in Hdrop. rewrite length_drop in Hdrop.
      simpl in Hdrop. lia. }
    assert (Hys : length ys = length l - 1 - p).
    { apply (f_equal length) in Hdrop.
      rewrite length_drop, length_app in Hdrop. simpl in Hdrop. lia. }
    assert (Hoky : Forall nothrow (ys ++ [y])) by (rewrite <- Hdrop; by apply Forall_drop).
    apply Forall_app in Hoky as [Hoky Hy].
    apply Forall_singleton in Hy as (_ & Hym & _).
    assert (Hb : heap s !! b = Some (((Some <$> take p l) ++ (Some <$> ys))
                  ++ Some y :: None :: replicate (cap - length l - 1) None)).
    { rewrite Hblk, (block_of_split l cap p), Hdrop, fmap_app. simpl.
      rewrite <- !(assoc_L (++)). simpl.
      by rewrite (replicate_S_pred None (cap - length l)) by lia. }
    erewrite bind_Ret; cycle 1.
    { replace (length l) with (S (length l - 1)) at 2 by lia.
      eapply (uninitialized_move_1_right _ _ y b s); [|exact Hb|exact Hym].
      rewrite length_app, !length_fmap, length_take. lia. }
    set (s1 := upd_blk _ _ _).
    unfold std_move_backward. rewrite ?bind_assoc.
    rewrite (bind_Ret _ _ _ _ _ (distance_eq b p (length l - 1) s1 ltac:(lia))).
    destruct (move_backward_n_right ys (Some <$> take p l)
                (Some y :: replicate (cap - length l - 1) None) (moved_from y)
                b s1 (length l - 1)) as [w Hw];
      [| |by apply Forall_nothrow_move_assign|].
    { rewrite length_fmap, length_take. lia. }
    { unfold s1. rewrite lookup_upd_blk. by rewrite <- (assoc_L (++)). }
    rewrite <- Hys. replace (S (length l - 1)) with (length l) in Hw by lia.
    rewrite (bind_Ret _ _ _ _ _ Hw). unfold s1. rewrite upd_blk_upd_blk.
    unfold move_assign_local. rewrite Hxa, bind_assoc.
    erewrite bind_Ret; cycle 1.
    { eapply store_eq; [apply lookup_upd_blk|].
      apply lookup_mid_at. rewrite length_fmap, length_take. lia. }
    rewrite upd_blk_upd_blk, bind_ret_l.
    set (s2 := upd_blk _ _ _).
    assert (Hobj2 : objs s2 !! this = Some (mkVec (mkRaw (Some b) cap) (length l))) by done.
    rewrite (bind_Ret _ _ _ _ _ (set_size_eq _ _ _ _ Hobj2)).
    eexists. split; [done|]. split; [|done].
    eapply (Hfin s2); [|done|apply lookup_upd_blk].
    rewrite insert_mid_at by (rewrite length_fmap, length_take; lia).
    unfold block_of. rewrite Hlen', fmap_app, fmap_cons, fmap_app.
    rewrite <- !(assoc_L (++)). simpl. rewrite <- !(assoc_L (++)). simpl.
    do 5 f_equal. lia.
Qed.

Ltac heap_norm :=
  repeat (rewrite delete_insert_eq || rewrite delete_insert_ne by done);
  rewrite ?insert_insert_eq.

(** [Emplace] on a full vector, when nothing throws: the elements are
    relocated around the new one into a fresh block of [grown] capacity *)
Lemma Emplace_full s this v l p args x :
  vec_at s this v l → length l = capacity_ (data_ v) → p ≤ length l →
  arg_value args = Some x → Forall nothrow l →
  grown (capacity_ (data_ v)) ≤ avail s →
  Emplace this (GetAddress (data_ v) +ₚ p) args s
  = Ret (Ptr (Some (fresh (dom (heap s)))) p)
        (realloc_state s this v (take p l ++ x :: drop p l)
                       (grown (capacity_ (data_ v)))).
Proof.
  intros [Hobj (Hsz & Hcap & Hblk)] Hfull Hp Hx Hok Havail. unfold Emplace.
  rewrite (bind_Ret _ _ _ _ _ (Size_eq _ _ _ Hobj)).
  rewrite (bind_Ret _ _ _ _ _ (Capacity_eq _ _ _ Hobj)).
  rewrite Hsz, decide_False by lia.
  rewrite (bind_Ret _ _ _ _ _ (get_data_eq _ _ _ Hobj)).
  fold (grown (capacity_ (data_ v))).
  set (newcap := grown (capacity_ (data_ v))) in *.
  assert (Hnew : capacity_ (data_ v) < newcap).
  { unfold newcap, grown. case_decide; lia. }
  unfold RawMemory_ctor. rewrite bind_assoc.
  rewrite (bind_Ret _ _ _ _ _ (Allocate_eq newcap s ltac:(lia) Havail)).
  set (nb := fresh (dom (heap s))). set (s1 := mkState _ _ _).
  rewrite bind_ret_l.
  assert (Hlen' : length (take p l ++ x :: drop p l) = S (length l)).
  { rewrite length_app, length_take; simpl. rewrite length_drop. lia. }
  assert (Hokt : Forall nothrow (take p l)) by (by apply Forall_take).
  assert (Hokd : Forall nothrow (drop p l)) by (by apply Forall_drop).
  destruct v as [[[ob|] cap] sz]; simpl in *; subst sz cap.
  - (* the vector owns a block *)
    assert (Hne : ob ≠ nb) by (by eapply fresh_block_ne).
    unfold GetAddress, ptr_add; simpl.
    rewrite (bind_Ret _ _ _ _ _ (distance_eq ob 0 p s1 ltac:(lia))).
    rewrite Nat.sub_0_r.
    (* the new element *)
    assert (Hd1 : heap s1 !! nb = Some (replicate p None ++ None
                                          :: replicate (newcap - S p) None)).
    { unfold s1; simpl. rewrite lookup_insert_eq. f_equal.
      rewrite (replicate_split None newcap p) by lia. f_equal.
      rewrite (replicate_S_pred None (newcap - p)) by lia. do 2 f_equal. lia. }
    erewrite bind_Ret; cycle 1.
    { apply on_throw_Ret.
      rewrite (bind_Ret _ _ _ _ _ (construct_from_eq _ _ _ Hx)).
      eapply emplace_at_eq; [exact Hd1|].
      apply lookup_mid_at. by rewrite length_replicate. }
    rewrite insert_mid_at by (by rewrite length_replicate).
    set (s2 := upd_blk nb _ s1).
    assert (Hobj2 : objs s2 !! this = Some (mkVec (mkRaw (Some ob) (length l)) (length l)))
      by done.
    rewrite (bind_Ret _ _ _ _ _ (begin_eq _ _ _ Hobj2)).
    rewrite (bind_Ret _ _ _ _ _ (end_eq _ _ _ Hobj2)).
    unfold GetAddress, ptr_add; simpl.
    (* the prefix *)
    set (s3 := upd_blk ob ((Some <$> relocated_from (take p l)) ++ (Some <$> drop p l)
                             ++ replicate (length l - length l) None)
                 (upd_blk nb ((Some <$> take p l) ++ Some x
                                :: replicate (newcap - S p) None) s2)).
    assert (Hs2 : heap s2 !! ob = Some ([] ++ (Some <$> take p l) ++ (Some <$> drop p l)
                                          ++ replicate (length l - length l) None)).
    { unfold s2, s1; simpl. rewrite !lookup_insert_ne by done.
      rewrite Hblk. f_equal. apply block_of_split. }
    assert (Hd2 : heap s2 !! nb = Some ([] ++ replicate (length (take p l)) None
                                          ++ Some x :: replicate (newcap - S p) None)).
    { unfold s2. rewrite lookup_upd_blk. by rewrite length_take, Nat.min_l. }
    assert (Hpre : CopyOrMoveData (Ptr (Some ob) 0) p (Ptr (Some nb) 0) s2 = Ret tt s3).
    { pose proof (CopyOrMoveData_eq (take p l) [] _ [] _ ob nb s2 Hne Hs2 Hd2 Hokt)
        as HC.
      rewrite length_take, Nat.min_l in HC by done. exact HC. }
    erewrite bind_Ret with (s' := s3); cycle 1.
    { case_decide as Hbe.
      - apply try_catch_Ret.
        rewrite (bind_Ret _ _ _ _ _ (distance_eq ob 0 p s2 ltac:(lia))).
        by rewrite Nat.sub_0_r.
      - injection Hbe as Hl0.
        assert (p = 0) as -> by lia.
        rewrite <- Hpre. by rewrite CopyOrMoveData_0. }
    (* the suffix *)
    assert (Hs3 : heap s3 !! ob = Some ((Some <$> relocated_from (take p l))
                    ++ (Some <$> drop p l) ++ replicate (length l - length l) None)).
    { unfold s3. apply lookup_upd_blk. }
    assert (Hd3 : heap s3 !! nb = Some (((Some <$> take p l) ++ [Some x])
                    ++ replicate (length (drop p l)) None
                    ++ replicate (newcap - S (length l)) None)).
    { unfold s3. rewrite lookup_upd_blk_ne by done. rewrite lookup_upd_blk.
      rewrite <- (assoc_L (++)); simpl. do 3 f_equal.
      rewrite <- replicate_add. f_equal. rewrite length_drop. lia. }
    pose proof (CopyOrMoveData_eq (drop p l) _ _ _ _ ob nb s3 Hne Hs3 Hd3 Hokd) as HC.
    rewrite length_fmap, length_relocated_from, length_take, Nat.min_l in HC by done.
    rewrite length_app, length_fmap, length_take, Nat.min_l, length_drop in HC by done.
    simpl in HC.
    erewrite bind_Ret; cycle 1.
    { apply try_catch_Ret.
      rewrite (bind_Ret _ _ _ _ _ (distance_eq ob p (length l) s3 ltac:(lia))).
      exact HC. }
    set (s4 := upd_blk ob _ _).
    assert (Hobj4 : objs s4 !! this = Some (mkVec (mkRaw (Some ob) (length l)) (length l)))
      by done.
    rewrite (bind_Ret _ _ _ _ _ (set_data_eq _ _ _ _ Hobj4)). simpl.
    set (s5 := upd_obj _ _ _).
    assert (Hobj5 : objs s5 !! this = Some (mkVec (mkRaw (Some nb) newcap) (length l)))
      by apply lookup_upd_obj.
    rewrite (bind_Ret _ _ _ _ _ (Size_eq _ _ _ Hobj5)). simpl.
    assert (Hs5 : heap s5 !! ob = Some ([] ++ (Some <$> (relocated_from (take p l)
                     ++ relocated_from (drop p l)))
                     ++ replicate (length l - length l) None)).
    { unfold s5, s4; simpl. rewrite lookup_insert_eq.
      by rewrite fmap_app, <- (assoc_L (++)). }
    pose proof (DestroyN_eq _ _ _ _ _ Hs5) as HD.
    rewrite length_app, !length_relocated_from, length_take, Nat.min_l, length_drop in HD
      by done.
    replace (p + (length l - p)) with (length l) in HD by lia. simpl in HD.
    unfold GetAddress; simpl.
    rewrite (bind_Ret _ _ _ _ _ HD).
    erewrite bind_Ret; cycle 1.
    { apply set_size_eq. exact Hobj5. }
    simpl. unfold RawMemory_dtor; simpl.
    erewrite bind_Ret; cycle 1.
    { eapply Deallocate_eq. apply lookup_upd_blk. }
    unfold ret, realloc_state; simpl. fold nb. apply Ret_state_eq.
    + heap_norm. f_equal. unfold block_of.
      rewrite Hlen', fmap_app, fmap_cons, <- !(assoc_L (++)). done.
    + by rewrite insert_insert_eq, Hlen'.
    + rewrite length_app, !length_replicate. lia.
  - (* the vector has no block *)
    destruct l; [|simpl in *; lia]. assert (p = 0) as -> by (simpl in *; lia).
    clear Hnew. unfold newcap, grown in *; simpl in *.
    unfold GetAddress, ptr_add; simpl.
    unfold distance at 1; simpl. rewrite bind_ret_l.
    assert (Hd1 : heap s1 !! nb = Some [None]).
    { unfold s1; simpl. by rewrite lookup_insert_eq. }
    erewrite bind_Ret; cycle 1.
    { apply on_throw_Ret.
      rewrite (bind_Ret _ _ _ _ _ (construct_from_eq _ _ _ Hx)).
      by eapply emplace_at_eq. }
    simpl. set (s2 := upd_blk nb _ s1).
    assert (Hobj2 : objs s2 !! this = Some (mkVec (mkRaw None 0) 0)) by done.
    rewrite (bind_Ret _ _ _ _ _ (begin_eq _ _ _ Hobj2)).
    rewrite (bind_Ret _ _ _ _ _ (end_eq _ _ _ Hobj2)).
    unfold GetAddress, ptr_add; simpl.
    rewrite bind_ret_l.
    erewrite bind_Ret with (s' := s2); cycle 1.
    { apply try_catch_Ret. unfold distance; simpl.
      by rewrite bind_ret_l, CopyOrMoveData_0. }
    rewrite (bind_Ret _ _ _ _ _ (set_data_eq _ _ _ _ Hobj2)). simpl.
    set (s5 := upd_obj _ _ _).
    assert (Hobj5 : objs s5 !! this = Some (mkVec (mkRaw (Some nb) 1) 0))
      by apply lookup_upd_obj.
    rewrite (bind_Ret _ _ _ _ _ (Size_eq _ _ _ Hobj5)). simpl.
    unfold DestroyN. rewrite bind_ret_l.
    rewrite (bind_Ret _ _ _ _ _ (set_size_eq _ _ _ _ Hobj5)). simpl.
    unfold RawMemory_dtor, Deallocate; simpl.
    unfold bind, ret, realloc_state, s5, s2, upd_obj, upd_blk; simpl.
    fold nb. apply Ret_state_eq.
    + by rewrite insert_insert_eq.
    + by rewrite insert_insert_eq.
    + unfold s1; simpl. lia.
Qed.

(** [Emplace] in both cases *)
Lemma Emplace_ok s this v l p args x :
  vec_at s this v l → p ≤ length l →
  arg_value args = Some x → Forall nothrow (x :: l) →
  (length l = capacity_ (data_ v) → grown (capacity_ (data_ v)) ≤ avail s) →
  ∃ s' v', Emplace this (GetAddress (data_ v) +ₚ p) args s
           = Ret (GetAddress (data_ v') +ₚ p) s' ∧
           vec_at s' this v' (take p l ++ x :: drop p l) ∧
           size_ v' = S (size_ v) ∧
           capacity_ (data_ v')
           = (if decide (length l < capacity_ (data_ v))
              then capacity_ (data_ v) else grown (capacity_ (data_ v))) ∧
           avail s' + capacity_ (data_ v') = avail s + capacity_ (data_ v).
Proof.
  intros Hv Hp Hx Hok Havail.
  assert (Hlen' : length (take p l ++ x :: drop p l) = S (length l)).
  { rewrite length_app, length_take; simpl. rewrite length_drop. lia. }
  destruct (decide (length l < capacity_ (data_ v))) as [Hfree|Hfull].
  - destruct (Emplace_fast _ _ _ _ _ _ _ Hv Hfree Hp Hx Hok) as (s' & HE & Hv' & Ha).
    exists s', (mkVec (data_ v) (S (length l))). simpl.
    split; [done|]. split; [done|]. destruct Hv as (_ & -> & _). by rewrite Ha.
  - assert (length l = capacity_ (data_ v)) as Heq.
    { destruct Hv as (_ & _ & ? & _). lia. }
    apply Forall_cons in Hok as [_ Hok].
    pose proof (Emplace_full _ _ _ _ _ _ _ Hv Heq Hp Hx Hok (Havail Heq)) as HE.
    exists (realloc_state s this v (take p l ++ x :: drop p l)
                          (grown (capacity_ (data_ v)))),
           (mkVec (mkRaw (Some (fresh (dom (heap s)))) (grown (capacity_ (data_ v))))
                  (length (take p l ++ x :: drop p l))).
    split; [exact HE|].
    split; [apply vec_at_realloc_state|].
    { rewrite Hlen', Heq. unfold grown. case_decide; lia. }
    simpl. destruct Hv as (_ & -> & _). split; [done|]. split; [done|].
    specialize (Havail Heq). lia.
Qed.

(** *** [Swap] and the moves *)

Lemma Swap_eq s this other va vb :
  this ≠ other → objs s !! this = Some va → objs s !! other = Some vb →
  Swap this other s = Ret tt (upd_obj other va (upd_obj this vb s)).
Proof.
  intros Hne Ha Hb. unfold Swap.
  rewrite (bind_Ret _ _ _ _ _ (get_data_eq _ _ _ Ha)).
  rewrite (bind_Ret _ _ _ _ _ (get_data_eq _ _ _ Hb)).
  rewrite (bind_Ret _ _ _ _ _ (set_data_eq _ _ _ _ Ha)).
  erewrite bind_Ret; cycle 1.
  { apply set_data_eq. rewrite objs_upd_obj, lookup_insert_ne by done. exact Hb. }
  erewrite bind_Ret; cycle 1.
  { apply Size_eq. rewrite !objs_upd_obj, lookup_insert_ne by done.
    apply lookup_insert_eq. }
  erewrite bind_Ret; cycle 1.
  { apply Size_eq. apply lookup_upd_obj. }
  erewrite bind_Ret; cycle 1.
  { apply set_size_eq. rewrite !objs_upd_obj, lookup_insert_ne by done.
    apply lookup_insert_eq. }
  erewrite set_size_eq; cycle 1.
  { rewrite !objs_upd_obj, lookup_insert_ne by done. apply lookup_insert_eq. }
  destruct s as [h o a], va as [[ba ca] na], vb as [[bb cb] nb].
  unfold upd_obj, set_objs, RawMemory_Swap; simpl. apply Ret_state_eq; [done| |done].
  apply map_eq; intros k. rewrite !lookup_insert. by repeat case_decide.
Qed.

Lemma Swap_self s this v :
  objs s !! this = Some v → Swap this this s = Ret tt s.
Proof.
  intros Ha. unfold Swap.
  rewrite !(bind_Ret _ _ _ _ _ (get_data_eq _ _ _ Ha)).
  rewrite (bind_Ret _ _ _ _ _ (set_data_eq _ _ _ _ Ha)).
  destruct v as [[bv cv] nv]. unfold RawMemory_Swap; simpl.
  rewrite (upd_obj_id _ _ _ Ha).
  rewrite (bind_Ret _ _ _ _ _ (set_data_eq _ _ _ _ Ha)). simpl.
  rewrite (upd_obj_id _ _ _ Ha).
  rewrite !(bind_Ret _ _ _ _ _ (Size_eq _ _ _ Ha)).
  rewrite (bind_Ret _ _ _ _ _ (set_size_eq _ _ _ _ Ha)). simpl.
  rewrite (upd_obj_id _ _ _ Ha).
  rewrite (set_size_eq _ _ _ _ Ha). simpl. by rewrite (upd_obj_id _ _ _ Ha).
Qed.

(** an object's elements do not depend on the other objects of the store *)
Lemma holds_upd_obj a w s v l : holds (upd_obj a w s) v l ↔ holds s v l.
Proof. done. Qed.

Lemma Vector_ctor_move_eq s this other va :
  this ≠ other → objs s !! other = Some va →
  Vector_ctor_move this other s
  = Ret tt (upd_obj other (mkVec RawMemory_default 0) (upd_obj this va s)).
Proof.
  intros Hne Ha. unfold Vector_ctor_move.
  rewrite (bind_Ret _ _ _ _ _ (put_obj_eq _ _ _)).
  erewrite noexcept_Ret; cycle 1.
  { apply Swap_eq; [done|apply lookup_upd_obj|].
    rewrite objs_upd_obj. by rewrite lookup_insert_ne. }
  unfold upd_obj, set_objs; simpl. apply Ret_state_eq; [done| |done].
  by rewrite insert_insert_eq.
Qed.

Lemma assign_move_eq s this rhs va vb :
  this ≠ rhs → objs s !! this = Some va → objs s !! rhs = Some vb →
  assign_move this rhs s = Ret this (upd_obj rhs va (upd_obj this vb s)).
Proof.
  intros Hne Ha Hb. unfold assign_move. rewrite decide_True by done.
  by rewrite (bind_Ret _ _ _ _ _ (noexcept_Ret _ _ _ _ (Swap_eq _ _ _ _ _ Hne Ha Hb))).
Qed.

(** *** Copy construction and copy assignment *)

Lemma fresh_obj s : objs s !! fresh (dom (objs s)) = None.
Proof. apply not_elem_of_dom, is_fresh. Qed.

Lemma fresh_obj_ne s a v : objs s !! a = Some v → a ≠ fresh (dom (objs s)).
Proof. intros Ha ->. by rewrite fresh_obj in Ha. Qed.

(** Copy construction of a non-empty vector: it succeeds, or it throws and
    leaves no trace. *)
Lemma Vector_ctor_copy_eq s this other vb lb :
  objs s !! this = None → vec_at s other vb lb → 0 < length lb →
  Vector_ctor_copy this other s
  = if decide (length lb ≤ avail s) then
      if forallb (λ x, negb (copy_throws x)) lb
      then Ret tt (constructed_state s this lb)
      else Throw s
    else Throw s.
Proof.
  intros Hnew [Hobj (Hsz & Hcap & Hblk)] Hpos. unfold Vector_ctor_copy.
  rewrite (bind_Ret _ _ _ _ _ (get_obj_eq _ _ _ Hobj)).
  unfold RawMemory_ctor. rewrite bind_assoc, Hsz.
  case_decide as Havail; cycle 1.
  { assert (avail s < length lb) as Hlt by lia.
    by rewrite (bind_Throw _ _ _ _ (Allocate_throw _ s Hlt)). }
  assert (length lb ≠ 0) as Hnz by lia.
  rewrite (bind_Ret _ _ _ _ _ (Allocate_eq _ s Hnz Havail)).
  set (nb := fresh (dom (heap s))). set (s1 := mkState _ _ _).
  rewrite bind_ret_l, (bind_Ret _ _ _ _ _ (put_obj_eq _ _ _)).
  set (s2 := upd_obj _ _ s1).
  destruct vb as [[[rb|] capb] szb]; simpl in *; [|lia]. subst szb.
  assert (Hne : rb ≠ nb) by (by eapply fresh_block_ne).
  assert (Hs2 : heap s2 !! rb = Some ([] ++ (Some <$> lb)
                                        ++ replicate (capb - length lb) None)).
  { unfold s2, s1; simpl. by rewrite lookup_insert_ne. }
  assert (Hd2 : heap s2 !! nb = Some ([] ++ replicate (length lb) None ++ [])).
  { unfold s2, s1; simpl. rewrite lookup_insert_eq. by rewrite app_nil_r. }
  unfold GetAddress; simpl. unfold on_throw.
  rewrite (uninitialized_copy_n_eq lb [] _ [] [] rb nb s2 Hne Hs2 Hd2).
  destruct (forallb _ lb).
  - unfold constructed_state, s2, s1, upd_blk, upd_obj; simpl. fold nb.
    apply Ret_state_eq; [|done..].
    rewrite insert_insert_eq. unfold block_of.
    by rewrite Nat.sub_diag.
  - unfold RawMemory_dtor; simpl.
    erewrite bind_Ret; cycle 1.
    { apply Deallocate_eq. unfold s2, s1; simpl. apply lookup_insert_eq. }
    unfold del_obj, s2, s1, upd_obj, set_objs; simpl.
    rewrite (delete_insert_id (heap s)) by apply fresh_block.
    rewrite (delete_insert_id (objs s)) by done.
    rewrite length_replicate.
    replace (avail s - length lb + length lb) with (avail s) by lia.
    by destruct s.
Qed.

(** Copy assignment when the right-hand side does not fit: copy-and-swap.
    It adopts a fresh block holding a copy, or it throws and leaves the
    state exactly as it was. *)
Lemma assign_copy_realloc s this rhs va la vb lb :
  this ≠ rhs → vec_at s this va la → vec_at s rhs vb lb → separate va vb →
  capacity_ (data_ va) < length lb →
  assign_copy this rhs s
  = if decide (length lb ≤ avail s) then
      if forallb (λ x, negb (copy_throws x)) lb
      then Ret this (realloc_state s this va lb (length lb))
      else Throw s
    else Throw s.
Proof.
  intros Hne [Ha (Hsza & Hcapa & Hblka)] Hvb Hsep Hbig.
  pose proof Hvb as [Hb (Hszb & Hcapb & Hblkb)].
  unfold assign_copy. rewrite decide_True by done.
  rewrite bind_assoc, (bind_Ret _ _ _ _ _ (get_obj_eq _ _ _ Hb)).
  rewrite bind_assoc, (bind_Ret _ _ _ _ _ (Capacity_eq _ _ _ Ha)).
  rewrite Hszb, decide_True by done.
  unfold alloca at 1. rewrite ?bind_assoc. unfold bind at 1.
  set (tmp := fresh (dom (objs s))).
  assert (Htmp : objs s !! tmp = None) by apply fresh_obj.
  assert (Hta : this ≠ tmp) by (by eapply fresh_obj_ne).
  assert (Htb : rhs ≠ tmp) by (by eapply fresh_obj_ne).
  assert (0 < length lb) as Hpos by lia.
  rewrite ?bind_assoc. unfold bind at 1.
  rewrite (Vector_ctor_copy_eq s tmp rhs vb lb Htmp Hvb Hpos).
  case_decide as Havail; [|done].
  destruct (forallb _ lb); [|done].
  set (nb := fresh (dom (heap s))).
  set (new := mkVec (mkRaw (Some nb) (length lb)) (length lb)).
  set (s1 := constructed_state s tmp lb).
  assert (Ha1 : objs s1 !! this = Some va).
  { unfold s1, constructed_state; simpl. by rewrite lookup_insert_ne. }
  assert (Ht1 : objs s1 !! tmp = Some new).
  { unfold s1, constructed_state; simpl. by rewrite lookup_insert_eq. }
  rewrite ?bind_assoc, (bind_Ret _ _ _ _ _ (Swap_eq _ _ _ _ _ Hta Ha1 Ht1)).
  set (s2 := upd_obj tmp va _).
  assert (Ht2 : objs s2 !! tmp = Some va) by apply lookup_upd_obj.
  unfold Vector_dtor. rewrite ?bind_assoc.
  rewrite (bind_Ret _ _ _ _ _ (get_obj_eq _ _ _ Ht2)).
  assert (Hfin : ∀ h a,
    h = free_buf (buffer_ (data_ va)) (<[nb := block_of lb (length lb)]> (heap s)) →
    a = avail s - length lb + capacity_ (data_ va) →
    (del_obj tmp;; ((r <- get_obj rhs;; set_size this (size_ r));; ret this))
      (mkState h (objs s2) a)
    = Ret this (realloc_state s this va lb (length lb))).
  { intros h a -> ->. unfold del_obj. unfold bind at 1; simpl.
    rewrite bind_assoc. erewrite bind_Ret; cycle 1.
    { apply get_obj_eq; simpl. rewrite lookup_delete_ne by done.
      rewrite !lookup_insert_ne by done. exact Hb. }
    erewrite bind_Ret; cycle 1.
    { apply set_size_eq; simpl. rewrite lookup_delete_ne by done.
      rewrite lookup_insert_ne by done. apply lookup_insert_eq. }
    unfold ret, realloc_state, upd_obj, set_objs; simpl. fold nb. rewrite Hszb.
    apply Ret_state_eq.
    - destruct (buffer_ (data_ va)) as [ob|] eqn:Hob; simpl; [|done].
      rewrite delete_insert_ne; [done|]. intros ->.
      unfold nb in Hblka. by rewrite fresh_block in Hblka.
    - apply map_eq; intros k. rewrite lookup_insert, lookup_delete.
      rewrite !lookup_insert. repeat case_decide; subst; try done.
    - lia. }
  destruct va as [[[ob|] capa] sza]; simpl in *; subst sza.
  - (* the old block is destroyed and released *)
    assert (Hon : ob ≠ nb) by (by eapply fresh_block_ne).
    assert (Hs2 : heap s2 !! ob = Some ([] ++ (Some <$> la)
                                          ++ replicate (capa - length la) None)).
    { unfold s2, s1, constructed_state; simpl. by rewrite lookup_insert_ne. }
    unfold GetAddress; simpl.
    pose proof (DestroyN_eq la [] _ ob s2 Hs2) as HD. simpl in HD.
    rewrite ?bind_assoc, (bind_Ret _ _ _ _ _ HD).
    rewrite ?bind_assoc. unfold RawMemory_dtor; simpl.
    erewrite bind_Ret; cycle 1.
    { apply Deallocate_eq. apply lookup_upd_blk. }
    apply Hfin; simpl.
    + by rewrite delete_insert_eq.
    + rewrite length_app, !length_replicate. lia.
  - (* there was no block *)
    destruct la; [|simpl in *; lia].
    unfold GetAddress; simpl. unfold DestroyN.
    rewrite ?bind_assoc, bind_ret_l, ?bind_assoc.
    unfold RawMemory_dtor, Deallocate; simpl. unfold bind at 1.
    destruct s2 as [h2 o2 a2] eqn:Hs2e.
    assert (h2 = heap s2) as -> by (by rewrite Hs2e).
    assert (a2 = avail s2) as -> by (by rewrite Hs2e).
    assert (o2 = objs s2) as -> by (by rewrite Hs2e).
    apply Hfin; simpl; [done|lia].
Qed.

Lemma vec_at_frame s s' a v l :
  vec_at s a v l → objs s' !! a = Some v →
  (∀ b, buffer_ (data_ v) = Some b → heap s' !! b = heap s !! b) →
  vec_at s' a v l.
Proof.
  intros [Ha (Hsz & Hcap & Hblk)] Ha' Hh. split; [done|].
  split; [done|]. split; [done|].
  destruct (buffer_ (data_ v)) as [b|]; [|done]. by rewrite Hh.
Qed.

(** Copy assignment when the right-hand side fits, and nothing throws: the
    elements are assigned and constructed in the block the vector has. *)
Lemma assign_copy_in_place s this rhs va la vb lb :
  this ≠ rhs → vec_at s this va la → vec_at s rhs vb lb → separate va vb →
  length lb ≤ capacity_ (data_ va) →
  Forall (λ x, copy_assign_throws x = false) (take (length la) lb) →
  Forall (λ x, copy_throws x = false) (drop (length la) lb) →
  ∃ s', assign_copy this rhs s = Ret this s' ∧
        vec_at s' this (mkVec (data_ va) (length lb)) lb ∧
        vec_at s' rhs vb lb ∧
        avail s' = avail s.
Proof.
  intros Hne [Ha (Hsza & Hcapa & Hblka)] Hvb Hsep Hfit Hokt Hokd.
  pose proof Hvb as [Hb (Hszb & Hcapb & Hblkb)].
  unfold assign_copy. rewrite decide_True by done.
  rewrite ?bind_assoc, (bind_Ret _ _ _ _ _ (get_obj_eq _ _ _ Hb)).
  rewrite ?bind_assoc, (bind_Ret _ _ _ _ _ (Capacity_eq _ _ _ Ha)).
  rewrite Hszb, decide_False by lia.
  rewrite ?bind_assoc, (bind_Ret _ _ _ _ _ (get_obj_eq _ _ _ Ha)).
  rewrite Hsza.
  (* what remains once the elements are in place *)
  assert (Hfin : ∀ s1,
    objs s1 = objs s → avail s1 = avail s →
    holds s1 (mkVec (data_ va) (length lb)) lb →
    (∀ b, buffer_ (data_ vb) = Some b → heap s1 !! b = heap s !! b) →
    ∃ s', ((r <- get_obj rhs;; set_size this (size_ r));; ret this) s1 = Ret this s' ∧
          vec_at s' this (mkVec (data_ va) (length lb)) lb ∧
          vec_at s' rhs vb lb ∧ avail s' = avail s).
  { intros s1 Ho Hav Hh Hfr. rewrite bind_assoc.
    erewrite bind_Ret; [|apply get_obj_eq; by rewrite Ho].
    erewrite bind_Ret; [|apply set_size_eq; by rewrite Ho].
    eexists. split; [done|]. rewrite Hszb. split; [|split; [|done]].
    - split; [apply lookup_upd_obj|done].
    - apply (vec_at_frame s); [done| |done].
      rewrite objs_upd_obj, lookup_insert_ne by done. by rewrite Ho. }
  destruct lb as [|x0 lb0] eqn:Hlb.
  { (* nothing to copy *)
    simpl. destruct la as [|y0 la0] eqn:Hla; simpl.
    - unfold std_copy, distance; simpl.
      rewrite decide_True by (split; [done|lia]).
      rewrite ?bind_assoc, bind_ret_l. simpl.
      replace (off (GetAddress (data_ vb)) + 0 - off (GetAddress (data_ vb))) with 0
        by (simpl; lia).
      unfold copy_n, uninitialized_copy_n. rewrite !bind_ret_l.
      apply Hfin; [done..| |done].
      split; [done|]. split; [simpl; lia|]. simpl.
      destruct (buffer_ (data_ va)); [|done]. by rewrite Hblka.
    - destruct va as [[[ob|] capa] sza]; simpl in *; [|lia].
      unfold std_copy, distance; simpl.
      rewrite decide_True by (split; [done|lia]).
      rewrite ?bind_assoc, bind_ret_l.
      replace (off (GetAddress (data_ vb)) + 0 - off (GetAddress (data_ vb))) with 0
        by (simpl; lia).
      unfold copy_n. rewrite bind_ret_l.
      unfold destroy_n, GetAddress, ptr_add; simpl.
      pose proof (DestroyN_eq (y0 :: la0) [] _ ob s Hblka) as HD. simpl in HD.
      rewrite (bind_Ret _ _ _ _ _ HD).
      apply Hfin; [done..| |].
      + split; [done|]. split; [simpl; lia|]. simpl.
        rewrite lookup_insert_eq, block_of_nil. f_equal.
        rewrite (replicate_split None capa (S (length la0))) by lia. done.
      + intros b Hbb. simpl. rewrite lookup_insert_ne; [done|].
        intros ->. by apply (Hsep b). }
  rewrite <- Hlb in *. assert (0 < length lb) as Hpos by (rewrite Hlb; simpl; lia).
  clear Hlb x0 lb0.
  destruct vb as [[[rb|] capb] szb]; simpl in *; [|lia]. subst szb.
  destruct va as [[[ob|] capa] sza]; simpl in *; [|lia]. subst sza.
  assert (Hrne : rb ≠ ob) by (intros ->; by apply (Hsep ob)).
  unfold GetAddress, ptr_add; simpl.
  case_decide as Hshrink.
  - (* fewer elements: assign, then destroy the rest *)
    assert (Hs : heap s !! rb = Some ([] ++ (Some <$> lb)
                                        ++ replicate (capb - length lb) None)) by done.
    assert (Hd : heap s !! ob = Some ([] ++ (Some <$> take (length lb) la)
                   ++ (Some <$> drop (length lb) la)
                   ++ replicate (capa - length la) None)).
    { rewrite Hblka. f_equal. apply block_of_split. }
    rewrite take_ge in Hokt by lia.
    pose proof (copy_n_eq lb (take (length lb) la) [] _ [] _ rb ob s Hrne
                  ltac:(rewrite length_take; lia) Hs Hd Hokt) as HC. simpl in HC.
    unfold std_copy. rewrite ?bind_assoc.
    rewrite (bind_Ret _ _ _ _ _ (distance_eq rb 0 (length lb) s ltac:(lia))).
    rewrite Nat.sub_0_r, ?bind_assoc, (bind_Ret _ _ _ _ _ HC).
    unfold destroy_n. rewrite ?bind_assoc.
    erewrite bind_Ret; cycle 1.
    { pose proof (DestroyN_eq (drop (length lb) la) (Some <$> lb)
                    (replicate (capa - length la) None) ob
                    (upd_blk ob ((Some <$> lb) ++ (Some <$> drop (length lb) la)
                                   ++ replicate (capa - length la) None) s)
                    (lookup_upd_blk _ _ _)) as HD.
      rewrite length_fmap, length_drop in HD. exact HD. }
    rewrite upd_blk_upd_blk. apply Hfin; [done..| |].
    + split; [done|]. split; [done|]. simpl. rewrite lookup_insert_eq.
      unfold block_of. rewrite <- replicate_add. do 3 f_equal. lia.
    + intros b [= <-]. simpl. by rewrite lookup_insert_ne.
  - (* at least as many: assign, then construct the rest *)
    assert (Hs : heap s !! rb = Some ([] ++ (Some <$> take (length la) lb)
                   ++ (Some <$> drop (length la) lb)
                   ++ replicate (capb - length lb) None)).
    { rewrite Hblkb. f_equal. apply block_of_split. }
    assert (Hd : heap s !! ob = Some ([] ++ (Some <$> la)
                   ++ replicate (capa - length la) None)) by done.
    pose proof (copy_n_eq (take (length la) lb) la [] _ [] _ rb ob s Hrne
                  ltac:(rewrite length_take; lia) Hs Hd Hokt) as HC.
    rewrite length_take, Nat.min_l in HC by lia. simpl in HC.
    unfold std_copy. rewrite ?bind_assoc.
    rewrite (bind_Ret _ _ _ _ _ (distance_eq rb 0 (length la) s ltac:(lia))).
    rewrite Nat.sub_0_r, ?bind_assoc, (bind_Ret _ _ _ _ _ HC).
    set (s1 := upd_blk ob _ s).
    assert (Hs1 : heap s1 !! rb = Some ((Some <$> take (length la) lb)
                    ++ (Some <$> drop (length la) lb)
                    ++ replicate (capb - length lb) None)).
    { unfold s1. by rewrite lookup_upd_blk_ne. }
    assert (Hd1 : heap s1 !! ob = Some ((Some <$> take (length la) lb)
                    ++ replicate (length (drop (length la) lb)) None
                    ++ replicate (capa - length lb) None)).
    { unfold s1. rewrite lookup_upd_blk. do 2 f_equal.
      rewrite length_drop, <- replicate_add. f_equal. lia. }
    pose proof (uninitialized_copy_n_eq (drop (length la) lb) _ _ _ _ rb ob s1
                  Hrne Hs1 Hd1) as HU.
    rewrite forallb_copy_ok in HU by done.
    rewrite length_fmap, length_take, Nat.min_l, length_drop in HU by lia.
    rewrite (bind_Ret _ _ _ _ _ HU).
    unfold s1. rewrite upd_blk_upd_blk. apply Hfin; [done..| |].
    + split; [done|]. split; [done|]. simpl. rewrite lookup_insert_eq.
      unfold block_of. by rewrite (assoc_L (++)), <- fmap_app, take_drop.
    + intros b [= <-]. simpl. by rewrite lookup_insert_ne.
Qed.

(** *** Appending *)

Lemma PushBack_ok s this v l x :
  vec_at s this v l → Forall nothrow (x :: l) →
  (length l = capacity_ (data_ v) → grown (capacity_ (data_ v)) ≤ avail s) →
  ∃ s' v', PushBack this x s = Ret tt s' ∧
           vec_at s' this v' (l ++ [x]) ∧
           capacity_ (data_ v')
           = (if decide (length l < capacity_ (data_ v))
              then capacity_ (data_ v) else grown (capacity_ (data_ v))) ∧
           avail s' + capacity_ (data_ v') = avail s + capacity_ (data_ v).
Proof.
  intros Hv Hok Havail.
  assert (Hx : arg_value (ByCopy x) = Some x).
  { apply Forall_cons in Hok as [(Hx & _) _]. simpl. by rewrite Hx. }
  destruct (Emplace_ok s this v l (length l) (ByCopy x) x Hv (le_n _) Hx Hok Havail)
    as (s' & v' & HE & Hv' & _ & Hcap & Hav).
  rewrite take_ge, drop_ge in Hv' by lia.
  exists s', v'. split; [|done].
  unfold PushBack, EmplaceBack. rewrite ?bind_assoc.
  rewrite (bind_Ret _ _ _ _ _ (end_eq _ _ _ (proj1 Hv))).
  destruct Hv as (_ & -> & _). by rewrite (bind_Ret _ _ _ _ _ HE).
Qed.

Lemma cap_inv_step n c :
  cap_inv n c → n ≤ c →
  cap_inv (S n) (if decide (n < c) then c else grown c).
Proof.
  intros [[-> ->]|(k & -> & Hle & Hlt)] Hnc.
  - right. exists 0. rewrite decide_False by lia. unfold grown.
    rewrite decide_True by done. simpl. lia.
  - right. case_decide.
    + exists k. lia.
    + exists (S k). unfold grown. rewrite decide_False by lia.
      rewrite Nat.pow_succ_r'. lia.
Qed.

Lemma cap_inv_least n c k : cap_inv n c → n ≤ 2 ^ k → c ≤ 2 ^ k.
Proof.
  intros [[-> ->]|(k0 & -> & Hle & Hlt)] Hk; [lia|].
  destruct (le_lt_dec k0 k) as [Hkk|Hkk].
  - by apply Nat.pow_le_mono_r.
  - assert (2 ^ S k ≤ 2 ^ k0) as Hp by (apply Nat.pow_le_mono_r; lia).
    rewrite Nat.pow_succ_r' in Hp. lia.
Qed.

Lemma PushBack_all_ok xs : ∀ s this v l,
  vec_at s this v l → Forall nothrow l → Forall nothrow xs →
  cap_inv (length l) (capacity_ (data_ v)) →
  3 * (length l + length xs) ≤ avail s + capacity_ (data_ v) →
  ∃ s' v', PushBack_all this xs s = Ret tt s' ∧
           vec_at s' this v' (l ++ xs) ∧
           cap_inv (length (l ++ xs)) (capacity_ (data_ v')).
Proof.
  induction xs as [|x xs IH]; intros s this v l Hv Hl Hxs Hinv Hres; simpl.
  - exists s, v. by rewrite app_nil_r.
  - apply Forall_cons in Hxs as [Hx Hxs].
    assert (Hcap : length l ≤ capacity_ (data_ v)) by (by destruct Hv as (_ & _ & ? & _)).
    destruct (PushBack_ok s this v l x Hv) as (s1 & v1 & HP & Hv1 & Hc1 & Ha1).
    { by apply Forall_cons. }
    { intros Heq. simpl in Hres. unfold grown. case_decide; lia. }
    rewrite (bind_Ret _ _ _ _ _ HP).
    destruct (IH s1 this v1 (l ++ [x])) as (s' & v' & HA & Hv' & Hinv').
    + done.
    + apply Forall_app. split; [done|by apply Forall_singleton].
    + done.
    + rewrite length_app, Nat.add_1_r, Hc1. by apply cap_inv_step.
    + rewrite length_app. simpl in *. lia.
    + exists s', v'. by rewrite <- (assoc_L (++)) in Hv', Hinv'.
Qed.

(** The destructor of a vector that satisfies the invariant destroys its
    [size] live elements, releases the block and ends the object. *)
Lemma Vector_dtor_eq s this v l :
  vec_at s this v l →
  Vector_dtor this s
  = Ret tt (mkState (free_buf (buffer_ (data_ v)) (heap s)) (delete this (objs s))
                    (avail s + capacity_ (data_ v))).
Proof.
  intros [Hobj (Hsz & Hcap & Hblk)]. unfold Vector_dtor.
  rewrite (bind_Ret _ _ _ _ _ (get_obj_eq _ _ _ Hobj)).
  destruct v as [[[b|] cap] sz]; simpl in *; subst sz.
  - unfold GetAddress; simpl.
    pose proof (DestroyN_eq l [] _ b s Hblk) as HD. simpl in HD.
    rewrite (bind_Ret _ _ _ _ _ HD). unfold RawMemory_dtor; simpl.
    erewrite bind_Ret; [|apply Deallocate_eq, lookup_upd_blk].
    unfold del_obj, set_objs; simpl. apply Ret_state_eq; [|done|].
    + by rewrite delete_insert_eq.
    + rewrite length_app, !length_replicate. lia.
  - destruct l; [|simpl in *; lia]. subst cap.
    unfold GetAddress, DestroyN; simpl. rewrite bind_ret_l.
    unfold RawMemory_dtor, Deallocate; simpl. unfold bind, del_obj, set_objs; simpl.
    apply Ret_state_eq; [done..|lia].
Qed.

End vector_lemmas.

(** * The properties of the public operations *)

Section properties.
Context {T : Type} `{!Element T}.
Implicit Types (s : @State T) (v : Vector) (l : list T) (this : nat).

(** X21. For a vector holding [l] and a position [begin + p] with
    [p ≤ size], an [Emplace] in which nothing fails (the constructor yields
    [x], no element operation throws, the allocator has room when the vector
    is full) returns normally; afterwards the vector holds [l] with [x]
    inserted at index [p] and every other element in its old relative order,
    its size is one more, and the iterator returned is [begin + p] of the
    vector as it is now, which is where [x] lives. *)
Theorem Emplace_inserts_one s this v l p args x :
  vec_at s this v l → p ≤ length l →
  arg_value args = Some x → Forall nothrow (x :: l) →
  (length l = capacity_ (data_ v) → grown (capacity_ (data_ v)) ≤ avail s) →
  ∃ s' v',
    Emplace this (GetAddress (data_ v) +ₚ p) args s
    = Ret (GetAddress (data_ v') +ₚ p) s' ∧
    vec_at s' this v' (take p l ++ x :: drop p l) ∧
    size_ v' = S (size_ v) ∧
    (take p l ++ x :: drop p l) !! p = Some x.
Proof.
  intros Hv Hp Hx Hok Havail.
  destruct (Emplace_ok s this v l p args x Hv Hp Hx Hok Havail)
    as (s' & v' & HE & Hv' & Hsz & _).
  exists s', v'. split; [done|]. split; [done|]. split; [done|].
  apply list_lookup_middle. rewrite length_take. lia.
Qed.

(** C4. Copy assignment [a = b] between two distinct vectors that do not
    share a block.  When [b]'s size exceeds [a]'s capacity, the assignment
    either adopts a fresh block of exactly [b]'s size holding a copy of [b]'s
    elements (when the allocator has room and no copy throws), or throws and
    leaves the whole state, [a] included, exactly as it was.  When the
    capacity suffices and no element operation throws, [a] keeps its block
    and capacity and holds [b]'s elements.  In every successful case [b] is
    unchanged. *)
Theorem assign_copy_spec s a b va la vb lb :
  a ≠ b → vec_at s a va la → vec_at s b vb lb → separate va vb →
  (capacity_ (data_ va) < length lb →
     (length lb ≤ avail s ∧ Forall (λ x, copy_throws x = false) lb →
        ∃ s' va', assign_copy a b s = Ret a s' ∧
                  vec_at s' a va' lb ∧ vec_at s' b vb lb ∧
                  capacity_ (data_ va') = length lb ∧
                  buffer_ (data_ va') ≠ buffer_ (data_ va)) ∧
     (¬ (length lb ≤ avail s ∧ Forall (λ x, copy_throws x = false) lb) →
        assign_copy a b s = Throw s)) ∧
  (length lb ≤ capacity_ (data_ va) →
   Forall (λ x, copy_assign_throws x = false) (take (length la) lb) →
   Forall (λ x, copy_throws x = false) (drop (length la) lb) →
     ∃ s', assign_copy a b s = Ret a s' ∧
           vec_at s' a (mkVec (data_ va) (length lb)) lb ∧
           vec_at s' b vb lb).
Proof.
  intros Hne Hva Hvb Hsep. split.
  - intros Hbig.
    pose proof (assign_copy_realloc s a b va la vb lb Hne Hva Hvb Hsep Hbig) as HA.
    assert (Hall : forallb (λ x, negb (copy_throws x)) lb = true
                   ↔ Forall (λ x, copy_throws x = false) lb).
    { rewrite forallb_forall, Forall_forall. setoid_rewrite negb_true_iff.
      split; intros H x Hx; apply H; by apply list_elem_of_In. }
    split.
    + intros [Hav Hok]. rewrite decide_True in HA by done.
      apply Hall in Hok. rewrite Hok in HA.
      eexists _, _. split; [exact HA|].
      split; [apply vec_at_realloc_state; lia|].
      split; [|split; [done|]].
      * apply (vec_at_frame s); [done| |].
        -- simpl. rewrite lookup_insert_ne by done. apply Hvb.
        -- intros rb Hrb. simpl.
           assert (heap s !! rb = Some (block_of lb (capacity_ (data_ vb)))) as Hblk.
           { destruct Hvb as (_ & _ & _ & Hblk). by rewrite Hrb in Hblk. }
           rewrite lookup_insert_ne by (symmetry; by eapply fresh_block_ne).
           destruct (buffer_ (data_ va)) as [ob|] eqn:Hob; simpl; [|done].
           rewrite lookup_delete_ne; [done|]. intros ->. by apply (Hsep rb).
      * simpl. intros Heq.
        destruct Hva as (_ & _ & _ & Hblk). rewrite <- Heq in Hblk.
        by rewrite fresh_block in Hblk.
    + intros Hno. case_decide as Hav; [|done].
      destruct (forallb _ lb) eqn:Hok; [|done].
      exfalso. apply Hno. split; [done|]. by apply Hall.
  - intros Hfit Hokt Hokd.
    destruct (assign_copy_in_place s a b va la vb lb Hne Hva Hvb Hsep Hfit Hokt Hokd)
      as (s' & HA & Ha' & Hb' & _).
    by exists s'.
Qed.

(** C5, amended. Moving from a vector [a] never fails.  Move construction of
    a new vector [c] from [a] leaves [a] empty (size 0, capacity 0, no block)
    and gives [c] the block, size, capacity and elements [a] had.  Move
    assignment [b = std::move(a)] gives [b] what [a] had and leaves in [a]
    what [b] had: its block, size, capacity and elements. *)
Theorem move_spec s a b c va la vb lb :
  a ≠ b → c ≠ a → vec_at s a va la → vec_at s b vb lb →
  (∃ s', Vector_ctor_move c a s = Ret tt s' ∧
         vec_at s' c va la ∧
         vec_at s' a (mkVec RawMemory_default 0) []) ∧
  (∃ s', assign_move b a s = Ret b s' ∧
         vec_at s' b va la ∧
         vec_at s' a vb lb).
Proof.
  intros Hab Hca [Ha Hla] [Hb Hlb]. split.
  - eexists. split; [by apply Vector_ctor_move_eq|]. split.
    + split; [|done]. rewrite !objs_upd_obj, lookup_insert_ne by done.
      apply lookup_insert_eq.
    + split; [apply lookup_upd_obj|]. by repeat split.
  - eexists. split; [by apply assign_move_eq|]. split.
    + split; [|done]. rewrite !objs_upd_obj, lookup_insert_ne by done.
      apply lookup_insert_eq.
    + split; [apply lookup_upd_obj|done].
Qed.

(** C6. An insertion that finds size equal to capacity gives the vector the
    capacity [max(1, 2 * capacity)]; and [n] appends to an empty vector
    leave a capacity that is at most every power of two that is at least
    [n], and exactly 1 after the first append. *)
Theorem growth_doubles s this v l p args x s0 xs :
  vec_at s this v l → length l = capacity_ (data_ v) → p ≤ length l →
  arg_value args = Some x → Forall nothrow (x :: l) →
  grown (capacity_ (data_ v)) ≤ avail s →
  vec_at s0 this (mkVec RawMemory_default 0) [] → Forall nothrow xs →
  3 * length xs ≤ avail s0 →
  (∃ s' v', Emplace this (GetAddress (data_ v) +ₚ p) args s
            = Ret (GetAddress (data_ v') +ₚ p) s' ∧
            objs s' !! this = Some v' ∧
            capacity_ (data_ v') = 1 `max` (2 * capacity_ (data_ v))) ∧
  (∃ s' v', PushBack_all this xs s0 = Ret tt s' ∧
            vec_at s' this v' xs ∧
            (∀ k, length xs ≤ 2 ^ k → capacity_ (data_ v') ≤ 2 ^ k) ∧
            (length xs = 1 → capacity_ (data_ v') = 1)).
Proof.
  intros Hv Hfull Hp Hx Hok Havail Hv0 Hxs Hres. split.
  - destruct (Emplace_ok s this v l p args x Hv Hp Hx Hok (λ _, Havail))
      as (s' & v' & HE & Hv' & _ & Hcap & _).
    exists s', v'. split; [done|]. split; [apply Hv'|].
    rewrite Hcap, decide_False by lia. unfold grown.
    destruct (decide (capacity_ (data_ v) = 0)); lia.
  - destruct (PushBack_all_ok xs s0 this _ [] Hv0) as (s' & v' & HP & Hv' & Hinv).
    + done.
    + done.
    + left. by simpl.
    + simpl. lia.
    + simpl in *. exists s', v'. split; [done|]. split; [done|]. split.
      * intros k. by apply cap_inv_least.
      * intros H1. rewrite H1 in Hinv.
        destruct Hinv as [[? _]|(k & -> & ? & ?)]; lia.
Qed.

(** C7. [Reserve(n)] with [n ≤ capacity] returns with the state exactly as
    it was; with [n > capacity] (when no relocation throws and the allocator
    has room) it returns with capacity exactly [n], the same size and the
    same elements. *)
Theorem Reserve_spec s this v l n :
  vec_at s this v l →
  (capacity_ (data_ v) < n → Forall nothrow l ∧ n ≤ avail s) →
  ∃ s' v', Reserve this n s = Ret tt s' ∧
           vec_at s' this v' l ∧ size_ v' = size_ v ∧
           (n ≤ capacity_ (data_ v) → s' = s ∧ v' = v) ∧
           (capacity_ (data_ v) < n → capacity_ (data_ v') = n).
Proof.
  intros Hv Hgrow. destruct (decide (n ≤ capacity_ (data_ v))) as [Hn|Hn].
  - exists s, v. split; [by apply (Reserve_noop _ _ v), Hn; apply Hv|].
    repeat split; try done; try apply Hv. lia.
  - destruct Hgrow as [Hok Hav]; [lia|].
    exists (realloc_state s this v l n),
           (mkVec (mkRaw (Some (fresh (dom (heap s)))) n) (length l)).
    split; [apply Reserve_grow; [done|lia|done..]|].
    split; [apply vec_at_realloc_state; destruct Hv as (_ & _ & ? & _); lia|].
    simpl. split; [by destruct Hv as (_ & -> & _)|]. split; [lia|done].
Qed.

(** C8. [Resize(n)] with [n < size] leaves the block and the capacity as
    they were, keeps the first [n] elements and turns the slots of the
    trailing [size - n] ones into raw storage; with [n > size] (when nothing
    throws and the allocator has room) it ends with capacity at least [n],
    the old elements unchanged and [n - size] value-initialised elements
    after them.  In both cases the size becomes [n]. *)
Theorem Resize_spec s this v l n d :
  vec_at s this v l →
  (length l < n → value_init = Some d) →
  (capacity_ (data_ v) < n → Forall nothrow l ∧ n ≤ avail s) →
  ∃ s' v', Resize this n s = Ret tt s' ∧ size_ v' = n ∧
           (n < length l →
              v' = mkVec (data_ v) n ∧ vec_at s' this v' (take n l)) ∧
           (length l < n →
              vec_at s' this v' (l ++ replicate (n - length l) d) ∧
              capacity_ (data_ v') = capacity_ (data_ v) `max` n).
Proof.
  intros Hv Hd Hgrow.
  destruct (lt_eq_lt_dec n (length l)) as [[Hlt|Heq]|Hgt].
  - destruct (Resize_shrink s this v l n Hv Hlt) as (s' & HR & Hv' & _).
    exists s', (mkVec (data_ v) n). split; [done|]. split; [done|].
    split; [done|lia].
  - exists s, v. destruct Hv as (Hobj & Hsz & ?). split.
    + unfold Resize. rewrite (bind_Ret _ _ _ _ _ (Size_eq _ _ _ Hobj)).
      by rewrite !decide_False by lia.
    + split; [lia|]. split; lia.
  - destruct (Resize_grow s this v l n d Hv Hgt (Hd Hgt) Hgrow)
      as (s' & v' & HR & Hv' & Hcap & Hsz).
    exists s', v'. split; [done|]. split; [done|]. split; [lia|done].
Qed.

(** C9. [Erase(begin + p)] with [p < size] (when no move assignment of a
    later element throws) returns the position it was given; the vector keeps
    its block and capacity, holds the elements before [p] followed by the
    elements after [p] in their old order, and its size is one less.  The
    slot that held the last element is raw storage again. *)
Theorem Erase_spec s this v l p :
  vec_at s this v l → p < length l →
  Forall (λ x, move_assign_throws x = false) (drop (S p) l) →
  ∃ s', Erase this (GetAddress (data_ v) +ₚ p) s
        = Ret (GetAddress (data_ v) +ₚ p) s' ∧
        vec_at s' this (mkVec (data_ v) (size_ v - 1)) (take p l ++ drop (S p) l) ∧
        length (take p l ++ drop (S p) l) = length l - 1.
Proof.
  intros Hv Hp Hok.
  destruct (Erase_eq s this v l p Hv Hp Hok) as (s' & HE & Hv' & _).
  exists s'. destruct Hv as (_ & -> & _). split; [done|]. split; [done|].
  rewrite length_app, length_take, length_drop. lia.
Qed.

(** C10. Self-assignment does nothing: both [v = v] and [v = std::move(v)]
    return [*this] and leave the whole state, hence the vector's size,
    capacity and elements, exactly as it was. *)
Theorem self_assignment_noop s this :
  assign_copy this this s = Ret this s ∧ assign_move this this s = Ret this s.
Proof.
  split.
  - unfold assign_copy. by rewrite decide_False by (intros H; by apply H).
  - unfold assign_move. by rewrite decide_False by (intros H; by apply H).
Qed.

End properties.

(** * Further properties of the operations *)

Section more_lemmas.
Context {T : Type} `{!Element T}.
Implicit Types (s : @State T) (v : Vector) (l : list T) (this b : nat).

Lemma relocatable_move x : relocates_by_move = true → relocatable x → move_throws x = false.
Proof. unfold relocatable. by intros ->. Qed.

Lemma relocatable_copy x : relocates_by_move = false → relocatable x → copy_throws x = false.
Proof. unfold relocatable. by intros ->. Qed.

(** [CopyOrMoveData] needs only the constructor it uses *)
Lemma CopyOrMoveData_relocatable (xs : list T) spre spost dpre dpost bs bd s :
  bs ≠ bd →
  heap s !! bs = Some (spre ++ (Some <$> xs) ++ spost) →
  heap s !! bd = Some (dpre ++ replicate (length xs) None ++ dpost) →
  Forall relocatable xs →
  CopyOrMoveData (Ptr (Some bs) (length spre)) (length xs)
                 (Ptr (Some bd) (length dpre)) s
  = Ret tt (upd_blk bs (spre ++ (Some <$> relocated_from xs) ++ spost)
              (upd_blk bd (dpre ++ (Some <$> xs) ++ dpost) s)).
Proof.
  intros Hne Hs Hd Hok. unfold CopyOrMoveData, relocated_from.
  fold relocates_by_move. destruct relocates_by_move eqn:Hmode.
  - apply uninitialized_move_n_eq; [done..|].
    eapply Forall_impl; [exact Hok|]. intros x. by apply relocatable_move.
  - rewrite (uninitialized_copy_n_eq _ _ _ _ _ _ _ _ Hne Hs Hd).
    rewrite forallb_copy_ok.
    + f_equal. symmetry. apply upd_blk_id. by rewrite lookup_upd_blk_ne.
    + eapply Forall_impl; [exact Hok|]. intros x. by apply relocatable_copy.
Qed.

(** *** [Reserve] *)

Lemma Reserve_grow_relocatable s this v l n :
  vec_at s this v l → capacity_ (data_ v) < n → n ≤ avail s →
  Forall relocatable l →
  Reserve this n s = Ret tt (realloc_state s this v l n).
Proof.
  intros [Hobj (Hsz & Hcap & Hblk)] Hn Havail Hok. unfold Reserve.
  rewrite (bind_Ret _ _ _ _ _ (get_data_eq _ _ _ Hobj)).
  rewrite decide_False by lia.
  unfold RawMemory_ctor. rewrite bind_assoc.
  rewrite (bind_Ret _ _ _ _ _ (Allocate_eq n s ltac:(lia) Havail)).
  set (nb := fresh (dom (heap s))).
  set (s1 := mkState _ _ _).
  assert (Hobj1 : objs s1 !! this = Some v) by done.
  rewrite bind_ret_l, (bind_Ret _ _ _ _ _ (Size_eq _ _ _ Hobj1)).
  destruct v as [[[ob|] cap] sz]; simpl in *.
  - assert (Hne : ob ≠ nb) by (by eapply fresh_block_ne).
    assert (Hs1 : heap s1 !! ob = Some ([] ++ (Some <$> l) ++ replicate (cap - length l) None)).
    { unfold s1; simpl. by rewrite lookup_insert_ne. }
    assert (Hd1 : heap s1 !! nb = Some ([] ++ replicate (length l) None
                                           ++ replicate (n - length l) None)).
    { unfold s1; simpl. rewrite lookup_insert_eq. simpl.
      by rewrite <- replicate_split by lia. }
    unfold GetAddress; simpl. rewrite Hsz.
    erewrite bind_Ret; cycle 1.
    { apply on_throw_Ret.
      apply (CopyOrMoveData_relocatable l [] _ [] _ ob nb s1 Hne Hs1 Hd1 Hok). }
    simpl. set (s2 := upd_blk ob _ _).
    assert (Hobj2 : objs s2 !! this = Some (mkVec (mkRaw (Some ob) cap) sz)) by done.
    rewrite (bind_Ret _ _ _ _ _ (set_data_eq _ _ _ _ Hobj2)).
    unfold destroy_n, GetAddress; simpl.
    erewrite bind_Ret; cycle 1.
    { rewrite <- (length_relocated_from l).
      apply (DestroyN_eq (relocated_from l) [] (replicate (cap - length l) None) ob).
      apply lookup_upd_blk. }
    unfold RawMemory_dtor; simpl.
    erewrite Deallocate_eq by apply lookup_upd_blk.
    unfold realloc_state; simpl. fold nb. apply Ret_state_eq.
    + rewrite !delete_insert_eq, insert_insert_eq.
      by rewrite delete_insert_ne by done.
    + by rewrite Hsz.
    + rewrite length_app, !length_replicate, length_relocated_from. lia.
  - subst cap. destruct l; [|simpl in *; lia]. simpl in *. subst sz.
    rewrite CopyOrMoveData_0. simpl.
    unfold on_throw, ret, bind; simpl.
    rewrite (set_data_eq this _ _ s1 Hobj1). unfold RawMemory_dtor, Deallocate; simpl.
    unfold realloc_state; simpl. fold nb. rewrite block_of_nil.
    unfold upd_obj, set_objs, s1; simpl. apply Ret_state_eq; [done..|lia].
Qed.

(** when relocation copies and a copy throws, [Reserve] releases the new
    block and leaves the state as it found it *)
Lemma Reserve_copy_throw s this v l n :
  relocates_by_move = false →
  vec_at s this v l → capacity_ (data_ v) < n → n ≤ avail s →
  forallb (λ x, negb (copy_throws x)) l = false →
  Reserve this n s = Throw s.
Proof.
  intros Hmode [Hobj (Hsz & Hcap & Hblk)] Hn Havail Hbad. unfold Reserve.
  rewrite (bind_Ret _ _ _ _ _ (get_data_eq _ _ _ Hobj)).
  rewrite decide_False by lia.
  unfold RawMemory_ctor. rewrite bind_assoc.
  rewrite (bind_Ret _ _ _ _ _ (Allocate_eq n s ltac:(lia) Havail)).
  set (nb := fresh (dom (heap s))).
  set (s1 := mkState _ _ _).
  assert (Hobj1 : objs s1 !! this = Some v) by done.
  rewrite bind_ret_l, (bind_Ret _ _ _ _ _ (Size_eq _ _ _ Hobj1)).
  destruct v as [[[ob|] cap] sz]; simpl in *.
  - assert (Hne : ob ≠ nb) by (by eapply fresh_block_ne).
    assert (Hs1 : heap s1 !! ob = Some ([] ++ (Some <$> l) ++ replicate (cap - length l) None)).
    { unfold s1; simpl. by rewrite lookup_insert_ne. }
    assert (Hd1 : heap s1 !! nb = Some ([] ++ replicate (length l) None
                                           ++ replicate (n - length l) None)).
    { unfold s1; simpl. rewrite lookup_insert_eq. simpl.
      by rewrite <- replicate_split by lia. }
    unfold GetAddress; simpl. rewrite Hsz.
    erewrite bind_Throw; [done|].
    eapply on_throw_Throw.
    + unfold CopyOrMoveData. fold relocates_by_move. rewrite Hmode.
      rewrite (uninitialized_copy_n_eq l [] _ [] _ ob nb s1 Hne Hs1 Hd1).
      by rewrite Hbad.
    + unfold RawMemory_dtor; simpl.
      erewrite Deallocate_eq by (unfold s1; simpl; apply lookup_insert_eq).
      unfold s1; simpl. rewrite delete_insert_id by apply fresh_block.
      rewrite length_replicate.
      replace (avail s - n + n) with (avail s) by lia. by destruct s.
  - subst cap. destruct l; [|simpl in *; lia]. discriminate Hbad.
Qed.

(** *** Constructors and destructor *)

Lemma State_eta s : mkState (heap s) (objs s) (avail s) = s.
Proof. by destruct s. Qed.

Lemma Vector_ctor_size_0 s this :
  Vector_ctor_size this 0 s = Ret tt (upd_obj this (mkVec RawMemory_default 0) s).
Proof. done. Qed.

Lemma Vector_ctor_size_eq s this n :
  objs s !! this = None → 0 < n → n ≤ avail s →
  Vector_ctor_size this n s
  = match value_init with
    | Some d => Ret tt (constructed_state s this (replicate n d))
    | None => Throw s
    end.
Proof.
  intros Hnew Hpos Havail.
  unfold Vector_ctor_size, RawMemory_ctor. rewrite bind_assoc.
  assert (n ≠ 0) as Hnz by lia.
  rewrite (bind_Ret _ _ _ _ _ (Allocate_eq _ s Hnz Havail)).
  set (nb := fresh (dom (heap s))). set (s1 := mkState _ _ _).
  rewrite bind_ret_l, (bind_Ret _ _ _ _ _ (put_obj_eq _ _ _)).
  set (s2 := upd_obj _ _ s1).
  assert (Hd2 : heap s2 !! nb = Some ([] ++ replicate n None ++ [])).
  { unfold s2, s1; simpl. rewrite lookup_insert_eq. by rewrite app_nil_r. }
  unfold GetAddress; simpl. unfold on_throw.
  destruct value_init as [d|] eqn:Hd.
  - pose proof (uninitialized_value_construct_n_eq n d [] [] nb s2 Hd Hd2) as HU.
    simpl in HU. rewrite HU.
    unfold constructed_state, s2, s1, upd_blk, upd_obj; simpl. fold nb.
    rewrite length_replicate. apply Ret_state_eq; [|done..].
    rewrite insert_insert_eq. unfold block_of.
    by rewrite length_replicate, Nat.sub_diag, fmap_replicate.
  - pose proof (uninitialized_value_construct_n_throw n [] [] nb s2 Hd Hpos) as HU.
    simpl in HU. rewrite HU.
    unfold RawMemory_dtor; simpl.
    erewrite bind_Ret; cycle 1.
    { apply Deallocate_eq. unfold s2, s1; simpl. apply lookup_insert_eq. }
    unfold del_obj, s2, s1, upd_obj, set_objs; simpl.
    rewrite (delete_insert_id (heap s)) by apply fresh_block.
    rewrite (delete_insert_id (objs s)) by done.
    rewrite length_replicate.
    replace (avail s - n + n) with (avail s) by lia.
    by rewrite State_eta.
Qed.

Lemma Vector_ctor_copy_empty s this other vb :
  vec_at s other vb [] →
  Vector_ctor_copy this other s
  = Ret tt (upd_obj this (mkVec RawMemory_default 0) s).
Proof.
  intros [Hobj (Hsz & _)]. unfold Vector_ctor_copy.
  rewrite (bind_Ret _ _ _ _ _ (get_obj_eq _ _ _ Hobj)). simpl in Hsz. by rewrite Hsz.
Qed.

Lemma vec_at_constructed_state s this l :
  vec_at (constructed_state s this l) this
         (mkVec (mkRaw (Some (fresh (dom (heap s)))) (length l)) (length l)) l.
Proof.
  split; [apply lookup_insert_eq|].
  split; [done|]. split; [done|]. simpl. apply lookup_insert_eq.
Qed.

Lemma vec_at_default s this :
  vec_at (upd_obj this (mkVec RawMemory_default 0) s) this
         (mkVec RawMemory_default 0) ([] : list T).
Proof. split; [apply lookup_upd_obj|done]. Qed.

(** *** [PopBack] *)

Lemma PopBack_eq s this v l x :
  vec_at s this v (l ++ [x]) →
  ∃ b, buffer_ (data_ v) = Some b ∧
       PopBack this s
       = Ret tt (upd_obj this (mkVec (data_ v) (length l))
                   (upd_blk b (block_of l (capacity_ (data_ v))) s)).
Proof.
  intros [Hobj (Hsz & Hcap & Hblk)]. rewrite length_app in Hsz, Hcap. simpl in *.
  destruct v as [[[b|] cap] sz]; simpl in *; [|lia]. exists b. split; [done|].
  unfold PopBack. rewrite (bind_Ret _ _ _ _ _ (end_eq _ _ _ Hobj)).
  unfold GetAddress, ptr_add, ptr_sub; simpl.
  assert (Hb : heap s !! b = Some ((Some <$> l) ++ Some x
                                     :: replicate (cap - (length l + 1)) None)).
  { rewrite Hblk. unfold block_of. rewrite fmap_app, length_app, <- (assoc_L (++)).
    done. }
  erewrite bind_Ret; cycle 1.
  { eapply Destroy_eq; [exact Hb|]. apply lookup_mid_at. rewrite length_fmap. lia. }
  rewrite insert_mid_at by (rewrite length_fmap; lia).
  set (s1 := upd_blk _ _ _).
  assert (Hobj1 : objs s1 !! this = Some (mkVec (mkRaw (Some b) cap) sz)) by done.
  rewrite (bind_Ret _ _ _ _ _ (Size_eq _ _ _ Hobj1)).
  rewrite (set_size_eq _ _ _ _ Hobj1). simpl. subst sz.
  replace (length l + 1 - 1) with (length l) by lia. unfold s1.
  do 3 f_equal. unfold block_of.
  rewrite (replicate_S_pred None (cap - length l)) by lia.
  do 3 f_equal. lia.
Qed.

Lemma PopBack_empty s this v :
  vec_at s this v [] → PopBack this s = Fault.
Proof.
  intros [Hobj (Hsz & Hcap & Hblk)]. simpl in *.
  unfold PopBack. rewrite (bind_Ret _ _ _ _ _ (end_eq _ _ _ Hobj)).
  rewrite Hsz. apply bind_Fault.
  destruct v as [[[b|] cap] sz]; unfold Destroy, slot_at; simpl in *; [|done].
  rewrite Hblk; simpl. rewrite block_of_nil. by destruct cap.
Qed.

(** *** [Emplace] when it cannot complete *)

Lemma construct_from_throw args (s : @State T) :
  arg_value args = None → construct_from args s = Throw s.
Proof. unfold construct_from. by intros ->. Qed.

Lemma grown_pos cap : 0 < grown cap.
Proof. unfold grown. case_decide; lia. Qed.

(** the new block is released when the scope of [new_data] is left by an
    exception *)
Lemma release_fresh s n :
  n ≤ avail s →
  RawMemory_dtor (mkRaw (Some (fresh (dom (heap s)))) n)
    (mkState (<[fresh (dom (heap s)) := replicate n None]> (heap s)) (objs s)
             (avail s - n))
  = Ret tt s.
Proof.
  intros Hn. unfold RawMemory_dtor; simpl.
  erewrite Deallocate_eq by (simpl; apply lookup_insert_eq). simpl.
  rewrite delete_insert_id by apply fresh_block. rewrite length_replicate.
  replace (avail s - n + n) with (avail s) by lia. by rewrite State_eta.
Qed.

Lemma Emplace_ctor_throw s this v p args :
  objs s !! this = Some v → arg_value args = None →
  Emplace this (GetAddress (data_ v) +ₚ p) args s = Throw s.
Proof.
  intros Hobj Hx. unfold Emplace.
  rewrite (bind_Ret _ _ _ _ _ (Size_eq _ _ _ Hobj)).
  rewrite (bind_Ret _ _ _ _ _ (Capacity_eq _ _ _ Hobj)).
  case_decide as Hfree.
  - rewrite (bind_Ret _ _ _ _ _ (end_eq _ _ _ Hobj)).
    apply bind_Throw. case_decide.
    + by apply bind_Throw, construct_from_throw.
    + by apply bind_Throw, construct_from_throw.
  - rewrite (bind_Ret _ _ _ _ _ (get_data_eq _ _ _ Hobj)).
    fold (grown (capacity_ (data_ v))). set (newcap := grown (capacity_ (data_ v))).
    pose proof (grown_pos (capacity_ (data_ v))) as Hpos. fold newcap in Hpos.
    unfold RawMemory_ctor. rewrite bind_assoc.
    destruct (decide (newcap ≤ avail s)) as [Hav|Hav]; cycle 1.
    { apply bind_Throw, Allocate_throw. lia. }
    rewrite (bind_Ret _ _ _ _ _ (Allocate_eq newcap s ltac:(lia) Hav)).
    rewrite bind_ret_l.
    unfold distance at 1. rewrite decide_True by (simpl; split; [done|lia]).
    rewrite bind_ret_l. apply bind_Throw.
    eapply on_throw_Throw.
    + by apply bind_Throw, construct_from_throw.
    + by apply release_fresh.
Qed.

Lemma Emplace_alloc_throw s this v p args :
  objs s !! this = Some v → ¬ size_ v < capacity_ (data_ v) →
  avail s < grown (capacity_ (data_ v)) →
  Emplace this (GetAddress (data_ v) +ₚ p) args s = Throw s.
Proof.
  intros Hobj Hfull Hav. unfold Emplace.
  rewrite (bind_Ret _ _ _ _ _ (Size_eq _ _ _ Hobj)).
  rewrite (bind_Ret _ _ _ _ _ (Capacity_eq _ _ _ Hobj)).
  rewrite decide_False by done.
  rewrite (bind_Ret _ _ _ _ _ (get_data_eq _ _ _ Hobj)).
  fold (grown (capacity_ (data_ v))).
  unfold RawMemory_ctor. rewrite bind_assoc.
  by apply bind_Throw, Allocate_throw.
Qed.

(** an append to a full vector whose relocation (by copy) throws: the
    handlers swallow the exception and the vector adopts a block of raw
    slots *)
Lemma EmplaceBack_hollow s this v l args x :
  vec_at s this v l → length l = capacity_ (data_ v) → 0 < length l →
  relocates_by_move = false →
  forallb (λ y, negb (copy_throws y)) l = false →
  arg_value args = Some x →
  grown (capacity_ (data_ v)) ≤ avail s →
  EmplaceBack this args s
  = Ret (Ptr (Some (fresh (dom (heap s)))) (length l))
        (hollow_state s this v (S (length l)) (grown (capacity_ (data_ v)))).
Proof.
  intros [Hobj (Hsz & Hcap & Hblk)] Hfull Hpos Hmode Hbad Hx Havail.
  unfold EmplaceBack. rewrite (bind_Ret _ _ _ _ _ (end_eq _ _ _ Hobj)).
  unfold Emplace.
  rewrite (bind_Ret _ _ _ _ _ (Size_eq _ _ _ Hobj)).
  rewrite (bind_Ret _ _ _ _ _ (Capacity_eq _ _ _ Hobj)).
  rewrite Hsz, decide_False by lia.
  rewrite (bind_Ret _ _ _ _ _ (get_data_eq _ _ _ Hobj)).
  fold (grown (capacity_ (data_ v))).
  set (newcap := grown (capacity_ (data_ v))) in *.
  assert (Hnew : capacity_ (data_ v) < newcap).
  { unfold newcap, grown. case_decide; lia. }
  unfold RawMemory_ctor. rewrite bind_assoc.
  rewrite (bind_Ret _ _ _ _ _ (Allocate_eq newcap s ltac:(lia) Havail)).
  set (nb := fresh (dom (heap s))). set (s1 := mkState _ _ _).
  rewrite bind_ret_l.
  destruct v as [[[ob|] cap] sz]; simpl in *; subst sz cap; [|lia].
  assert (Hne : ob ≠ nb) by (by eapply fresh_block_ne).
  unfold GetAddress, ptr_add; simpl.
  rewrite (bind_Ret _ _ _ _ _ (distance_eq ob 0 (length l) s1 ltac:(lia))).
  rewrite Nat.sub_0_r.
  assert (Hd1 : heap s1 !! nb = Some (replicate (length l) None ++ None
                                        :: replicate (newcap - S (length l)) None)).
  { unfold s1; simpl. rewrite lookup_insert_eq. f_equal.
    rewrite (replicate_split None newcap (length l)) by lia. f_equal.
    rewrite (replicate_S_pred None (newcap - length l)) by lia. do 2 f_equal. lia. }
  erewrite bind_Ret; cycle 1.
  { apply on_throw_Ret.
    rewrite (bind_Ret _ _ _ _ _ (construct_from_eq _ _ _ Hx)).
    eapply emplace_at_eq; [exact Hd1|].
    apply lookup_mid_at. by rewrite length_replicate. }
  rewrite insert_mid_at by (by rewrite length_replicate).
  set (s2 := upd_blk nb _ s1).
  assert (Hobj2 : objs s2 !! this = Some (mkVec (mkRaw (Some ob) (length l)) (length l)))
    by done.
  rewrite (bind_Ret _ _ _ _ _ (begin_eq _ _ _ Hobj2)).
  rewrite (bind_Ret _ _ _ _ _ (end_eq _ _ _ Hobj2)).
  unfold GetAddress, ptr_add; simpl.
  (* the prefix: the copy throws, the handler destroys the new element *)
  assert (Hs2 : heap s2 !! ob = Some ([] ++ (Some <$> l)
                                        ++ replicate (length l - length l) None)).
  { unfold s2, s1; simpl. by rewrite !lookup_insert_ne by done. }
  assert (Hd2 : heap s2 !! nb = Some ([] ++ replicate (length l) None
                                        ++ Some x :: replicate (newcap - S (length l)) None)).
  { unfold s2. by rewrite lookup_upd_blk. }
  set (s3 := upd_blk nb (replicate (length l) None ++ None
                           :: replicate (newcap - S (length l)) None) s2).
  erewrite bind_Ret with (s' := s3); cycle 1.
  { rewrite decide_True by (intros [=]; lia).
    erewrite try_catch_Throw; cycle 1.
    { rewrite (bind_Ret _ _ _ _ _ (distance_eq ob 0 (length l) s2 ltac:(lia))).
      rewrite Nat.sub_0_r. unfold CopyOrMoveData. fold relocates_by_move.
      rewrite Hmode.
      pose proof (uninitialized_copy_n_eq l [] _ [] _ ob nb s2 Hne Hs2 Hd2) as HU.
      simpl in HU. rewrite HU. by rewrite Hbad. }
    erewrite Destroy_eq; [|apply lookup_upd_blk|].
    - unfold s3. by rewrite insert_mid_at by (by rewrite length_replicate).
    - apply lookup_mid_at. by rewrite length_replicate. }
  (* the suffix is empty *)
  erewrite bind_Ret with (s' := s3); cycle 1.
  { apply try_catch_Ret.
    rewrite (bind_Ret _ _ _ _ _ (distance_eq ob (length l) (length l) s3 ltac:(lia))).
    by rewrite Nat.sub_diag, CopyOrMoveData_0. }
  assert (Hobj3 : objs s3 !! this = Some (mkVec (mkRaw (Some ob) (length l)) (length l)))
    by done.
  rewrite (bind_Ret _ _ _ _ _ (set_data_eq _ _ _ _ Hobj3)). simpl.
  set (s5 := upd_obj _ _ _).
  assert (Hobj5 : objs s5 !! this = Some (mkVec (mkRaw (Some nb) newcap) (length l)))
    by apply lookup_upd_obj.
  rewrite (bind_Ret _ _ _ _ _ (Size_eq _ _ _ Hobj5)). simpl.
  assert (Hs5 : heap s5 !! ob = Some ([] ++ (Some <$> l)
                                        ++ replicate (length l - length l) None)).
  { unfold s5, s3, s2, s1; simpl. by rewrite !lookup_insert_ne by done. }
  pose proof (DestroyN_eq _ _ _ _ _ Hs5) as HD. simpl in HD.
  unfold GetAddress; simpl. rewrite (bind_Ret _ _ _ _ _ HD).
  erewrite bind_Ret; cycle 1.
  { apply set_size_eq. exact Hobj5. }
  simpl. unfold RawMemory_dtor; simpl.
  erewrite bind_Ret; cycle 1.
  { eapply Deallocate_eq. apply lookup_upd_blk. }
  unfold ret, hollow_state; simpl. fold nb. apply Ret_state_eq.
  - repeat (rewrite delete_insert_eq || rewrite delete_insert_ne by done).
    rewrite ?insert_insert_eq. f_equal.
    rewrite (replicate_split None newcap (length l)) by lia. f_equal.
    rewrite (replicate_S_pred None (newcap - length l)) by lia. do 2 f_equal. lia.
  - by rewrite insert_insert_eq.
  - rewrite length_app, !length_replicate. lia.
Qed.

(** *** [Resize] when value-initialisation throws *)

Lemma uninitialized_value_construct_n_None (p : ptr) n s :
  value_init = None → 0 < n →
  uninitialized_value_construct_n p n s = Throw s.
Proof.
  intros Hd Hn. destruct n as [|n]; [lia|].
  unfold uninitialized_value_construct_n, value_construct_at. by rewrite Hd.
Qed.

Lemma Resize_grow_throw s this v l n :
  vec_at s this v l → length l < n → value_init = None →
  (capacity_ (data_ v) < n → Forall nothrow l ∧ n ≤ avail s) →
  ∃ s' v', Resize this n s = Throw s' ∧
           vec_at s' this v' l ∧
           capacity_ (data_ v') = capacity_ (data_ v) `max` n ∧
           size_ v' = size_ v.
Proof.
  intros Hv Hn Hd Hgrow. unfold Resize.
  rewrite (bind_Ret _ _ _ _ _ (Size_eq _ _ _ (proj1 Hv))).
  pose proof Hv as [Hobj (Hsz & Hcap & Hblk)].
  rewrite Hsz, decide_False, decide_True by lia.
  destruct (Reserve_ensures s this v l n Hv Hgrow) as (s1 & v1 & HR & Hv1 & Hcap1 & Hsz1).
  rewrite (bind_Ret _ _ _ _ _ HR).
  rewrite (bind_Ret _ _ _ _ _ (get_data_eq _ _ _ (proj1 Hv1))).
  exists s1, v1. split; [|split; [done|split; [done|congruence]]].
  apply bind_Throw, uninitialized_value_construct_n_None; [done|lia].
Qed.

(** *** [operator[]] *)

Lemma lookup_block_of l cap i x :
  l !! i = Some x → block_of l cap !! i = Some (Some x).
Proof.
  intros Hi. unfold block_of.
  rewrite lookup_app_l by (rewrite length_fmap; by eapply lookup_lt_Some).
  by rewrite list_lookup_fmap, Hi.
Qed.

Lemma index_eq s this v l i x :
  vec_at s this v l → l !! i = Some x →
  index this i s = Ret (GetAddress (data_ v) +ₚ i) s ∧
  read (GetAddress (data_ v) +ₚ i) s = Ret x s.
Proof.
  intros [Hobj (Hsz & Hcap & Hblk)] Hi.
  pose proof (lookup_lt_Some _ _ _ Hi) as Hlt. split.
  - unfold index. rewrite (bind_Ret _ _ _ _ _ (get_obj_eq _ _ _ Hobj)).
    by rewrite !decide_True by lia.
  - destruct v as [[[b|] cap] sz]; simpl in *; [|lia].
    unfold GetAddress, ptr_add; simpl.
    eapply read_eq; [exact Hblk|]. by apply lookup_block_of.
Qed.

Lemma index_out_of_range s this v l i :
  vec_at s this v l → length l ≤ i → index this i s = Fault.
Proof.
  intros [Hobj (Hsz & _)] Hi. unfold index.
  rewrite (bind_Ret _ _ _ _ _ (get_obj_eq _ _ _ Hobj)).
  by rewrite decide_False by lia.
Qed.

(** *** Appending to a full vector, with the state it ends in *)

Lemma PushBack_full_eq s this v l x :
  vec_at s this v l → length l = capacity_ (data_ v) →
  Forall nothrow (x :: l) → grown (capacity_ (data_ v)) ≤ avail s →
  PushBack this x s
  = Ret tt (realloc_state s this v (l ++ [x]) (grown (capacity_ (data_ v)))).
Proof.
  intros Hv Hfull Hok Havail.
  apply Forall_cons in Hok as [(Hx & _) Hok].
  assert (Hxv : arg_value (ByCopy x) = Some x) by (simpl; by rewrite Hx).
  pose proof (Emplace_full s this v l (length l) (ByCopy x) x Hv Hfull (le_n _)
                Hxv Hok Havail) as HE.
  rewrite take_ge, drop_ge in HE by lia.
  unfold PushBack, EmplaceBack. rewrite ?bind_assoc.
  rewrite (bind_Ret _ _ _ _ _ (end_eq _ _ _ (proj1 Hv))).
  destruct Hv as (_ & -> & _). by rewrite (bind_Ret _ _ _ _ _ HE).
Qed.

(** *** Copy assignment in place, when an assignment throws *)



(** *** [RawMemory]: ownership *)

Lemma RawMemory_ctor_0 s : RawMemory_ctor 0 s = Ret (mkRaw None 0) s.
Proof. done. Qed.

Lemma RawMemory_ctor_eq s n :
  n ≠ 0 → n ≤ avail s →
  RawMemory_ctor n s
  = Ret (mkRaw (Some (fresh (dom (heap s)))) n)
        (mkState (<[fresh (dom (heap s)) := replicate n None]> (heap s))
                 (objs s) (avail s - n)).
Proof.
  intros Hn Hav. unfold RawMemory_ctor.
  by rewrite (bind_Ret _ _ _ _ _ (Allocate_eq n s Hn Hav)).
Qed.

Lemma RawMemory_dtor_null s c : RawMemory_dtor (mkRaw None c) s = Ret tt s.
Proof. done. Qed.

(** a block allocated and released: the state is as before *)
Lemma alloc_release s n b :
  n ≤ avail s → heap s !! b = None →
  RawMemory_dtor (mkRaw (Some b) n)
    (mkState (<[b := replicate n None]> (heap s)) (objs s) (avail s - n))
  = Ret tt s.
Proof.
  intros Hn Hb. unfold RawMemory_dtor; simpl.
  erewrite Deallocate_eq by (simpl; apply lookup_insert_eq). simpl.
  rewrite delete_insert_id by done. rewrite length_replicate.
  replace (avail s - n + n) with (avail s) by lia. by rewrite State_eta.
Qed.

(** *** Other vectors are not touched *)

Lemma vec_at_upd_obj_frame s a va la this w :
  vec_at s a va la → a ≠ this → vec_at (upd_obj this w s) a va la.
Proof.
  intros Hv Hne. apply (vec_at_frame s); [done| |done].
  rewrite objs_upd_obj, lookup_insert_ne by done. apply Hv.
Qed.

Lemma vec_at_constructed_frame s a va la this l :
  vec_at s a va la → a ≠ this → vec_at (constructed_state s this l) a va la.
Proof.
  intros Hv Hne. apply (vec_at_frame s); [done|..].
  - simpl. rewrite lookup_insert_ne by done. apply Hv.
  - intros b Hb. simpl. destruct Hv as (_ & _ & _ & Hblk). rewrite Hb in Hblk.
    rewrite lookup_insert_ne; [done|]. symmetry. by eapply fresh_block_ne.
Qed.

Lemma vec_at_realloc_frame s a va la this v l' c :
  vec_at s a va la → a ≠ this → separate va v →
  vec_at (realloc_state s this v l' c) a va la.
Proof.
  intros Hv Hne Hsep. apply (vec_at_frame s); [done|..].
  - simpl. rewrite lookup_insert_ne by done. apply Hv.
  - intros b Hb. simpl. destruct Hv as (_ & _ & _ & Hblk). rewrite Hb in Hblk.
    rewrite lookup_insert_ne by (symmetry; by eapply fresh_block_ne).
    destruct (buffer_ (data_ v)) as [ob|] eqn:Hob; simpl; [|done].
    rewrite lookup_delete_ne; [done|]. intros ->. by apply (Hsep b).
Qed.

(** [EmplaceBack] with spare capacity constructs in the first raw slot and
    touches no other element *)
Lemma EmplaceBack_fast s this v l args x :
  vec_at s this v l → length l < capacity_ (data_ v) →
  arg_value args = Some x →
  ∃ s', EmplaceBack this args s = Ret (GetAddress (data_ v) +ₚ length l) s' ∧
        vec_at s' this (mkVec (data_ v) (S (length l))) (l ++ [x]) ∧
        avail s' = avail s.
Proof.
  intros [Hobj (Hsz & Hcap & Hblk)] Hfree Hx. unfold EmplaceBack, Emplace.
  rewrite (bind_Ret _ _ _ _ _ (end_eq _ _ _ Hobj)).
  rewrite (bind_Ret _ _ _ _ _ (Size_eq _ _ _ Hobj)).
  rewrite (bind_Ret _ _ _ _ _ (Capacity_eq _ _ _ Hobj)).
  rewrite Hsz, decide_True by done.
  rewrite (bind_Ret _ _ _ _ _ (end_eq _ _ _ Hobj)).
  destruct v as [[[b|] cap] sz]; simpl in *; [|lia]. subst sz.
  unfold GetAddress, ptr_add; simpl.
  rewrite decide_True by done.
  rewrite ?bind_assoc, (bind_Ret _ _ _ _ _ (construct_from_eq _ _ _ Hx)).
  rewrite bind_assoc.
  erewrite bind_Ret; cycle 1.
  { eapply emplace_at_eq; [exact Hblk|].
    unfold block_of. rewrite (replicate_S_pred None (cap - length l)) by lia.
    apply lookup_mid_at. by rewrite length_fmap. }
  set (s1 := upd_blk _ _ _).
  assert (Hobj1 : objs s1 !! this = Some (mkVec (mkRaw (Some b) cap) (length l))) by done.
  rewrite (bind_Ret _ _ _ _ _ (end_eq _ _ _ Hobj1)).
  rewrite (bind_Ret _ _ _ _ _ (set_size_eq _ _ _ _ Hobj1)).
  eexists. split; [done|]. split; [|done].
  split; [apply lookup_upd_obj|]. unfold holds; simpl.
  rewrite length_app; simpl. split; [lia|]. split; [lia|].
  rewrite lookup_insert_eq. f_equal.
  unfold block_of at 1.
  rewrite (replicate_S_pred None (cap - length l)) by lia.
  rewrite insert_mid_at by (by rewrite length_fmap).
  unfold block_of. rewrite length_app, fmap_app, <- (assoc_L (++)). simpl.
  do 3 f_equal. lia.
Qed.

(** [Resize] growing within the capacity works in the block the vector has *)
Lemma Resize_grow_in_place s this v l n d :
  vec_at s this v l → length l < n → n ≤ capacity_ (data_ v) →
  value_init = Some d →
  ∃ s', Resize this n s = Ret tt s' ∧
        vec_at s' this (mkVec (data_ v) n) (l ++ replicate (n - length l) d) ∧
        avail s' = avail s.
Proof.
  intros [Hobj (Hsz & Hcap & Hblk)] Hn Hc Hd. unfold Resize.
  rewrite (bind_Ret _ _ _ _ _ (Size_eq _ _ _ Hobj)).
  rewrite Hsz, decide_False, decide_True by lia.
  rewrite (bind_Ret _ _ _ _ _ (Reserve_noop _ _ _ _ Hobj Hc)).
  rewrite (bind_Ret _ _ _ _ _ (get_data_eq _ _ _ Hobj)).
  destruct v as [[[b|] cap] sz]; simpl in *; [|lia].
  unfold GetAddress; simpl.
  assert (Hb : heap s !! b = Some ((Some <$> l) ++ replicate (n - length l) None
                                     ++ replicate (cap - n) None)).
  { rewrite Hblk. unfold block_of. rewrite <- replicate_add. do 3 f_equal. lia. }
  pose proof (uninitialized_value_construct_n_eq (n - length l) d _ _ _ _ Hd Hb) as HC.
  rewrite length_fmap in HC. rewrite (bind_Ret _ _ _ _ _ HC).
  eexists. split; [by apply set_size_eq|].
  split; [|done].
  split; [apply lookup_upd_obj|]. unfold holds; simpl.
  rewrite length_app, length_replicate.
  split; [lia|]. split; [lia|].
  rewrite lookup_insert_eq. unfold block_of.
  rewrite length_app, length_replicate, fmap_app, fmap_replicate.
  rewrite <- (assoc_L (++)). do 4 f_equal. lia.
Qed.

End more_lemmas.

Section more_properties.
Context {T : Type} `{!Element T}.
Implicit Types (s : @State T) (v : Vector) (l : list T) (this : nat).

(** X1. [Vector(n)] at a new address, when the allocator has room for
    [n] slots: if value-initialisation yields [d], the vector holds [n]
    copies of [d] in a block of exactly [n] slots charged to the allocator;
    if [n > 0] and value-initialisation throws, the constructor throws and
    the state is as before: the block is released and no object is left. *)
Theorem sized_construction s this n :
  objs s !! this = None → n ≤ avail s →
  (∀ d, value_init = Some d →
     ∃ s' v', Vector_ctor_size this n s = Ret tt s' ∧
              vec_at s' this v' (replicate n d) ∧
              capacity_ (data_ v') = n ∧
              avail s' + n = avail s) ∧
  (0 < n → value_init = None → Vector_ctor_size this n s = Throw s).
Proof.
  intros Hnew Hav. split.
  - intros d Hd. destruct (decide (n = 0)) as [->|Hn].
    + eexists _, _. split; [apply Vector_ctor_size_0|].
      split; [apply vec_at_default|]. simpl. split; [done|lia].
    + rewrite (Vector_ctor_size_eq s this n Hnew) by lia. rewrite Hd.
      eexists _, _. split; [done|].
      split; [apply vec_at_constructed_state|]. simpl.
      rewrite length_replicate. split; [done|lia].
  - intros Hpos Hbad. rewrite (Vector_ctor_size_eq s this n Hnew Hpos Hav).
    by rewrite Hbad.
Qed.

(** X2. [Vector(const Vector& other)] at a new address: when the allocator
    has room and no copy throws, the new vector holds the elements of
    [other] in a block of its own of exactly [other.size] slots and [other]
    is unchanged; otherwise the constructor throws and the state is as
    before. *)
Theorem copy_construction s this other vb lb :
  objs s !! this = None → vec_at s other vb lb →
  (length lb ≤ avail s → Forall (λ x, copy_throws x = false) lb →
     ∃ s' v', Vector_ctor_copy this other s = Ret tt s' ∧
              vec_at s' this v' lb ∧ vec_at s' other vb lb ∧
              capacity_ (data_ v') = length lb ∧
              separate v' vb) ∧
  (¬ (length lb ≤ avail s ∧ Forall (λ x, copy_throws x = false) lb) →
     Vector_ctor_copy this other s = Throw s).
Proof.
  intros Hnew Hvb.
  assert (Hne : other ≠ this).
  { intros ->. destruct Hvb as [Hb _]. congruence. }
  destruct lb as [|x0 lb0] eqn:Hlb.
  { split.
    - intros _ _. eexists _, _. split; [by eapply Vector_ctor_copy_empty|].
      split; [apply vec_at_default|].
      split; [by apply vec_at_upd_obj_frame|]. split; [done|]. by intros b.
    - intros Hno. exfalso. apply Hno. split; [simpl; lia|done]. }
  rewrite <- Hlb in *. assert (0 < length lb) as Hpos by (rewrite Hlb; simpl; lia).
  clear Hlb x0 lb0.
  rewrite (Vector_ctor_copy_eq s this other vb lb Hnew Hvb Hpos). split.
  - intros Hav Hok. rewrite decide_True, forallb_copy_ok by done.
    eexists _, _. split; [done|].
    split; [apply vec_at_constructed_state|].
    split; [by apply vec_at_constructed_frame|]. split; [done|].
    intros b [= <-] Hb. destruct Hvb as (_ & _ & _ & Hblk). rewrite Hb in Hblk.
    by rewrite fresh_block in Hblk.
  - intros Hno. case_decide as Hav; [|done].
    destruct (forallb _ lb) eqn:Hok; [|done].
    exfalso. apply Hno. split; [done|].
    rewrite forallb_forall in Hok. apply Forall_forall. intros x Hx.
    apply negb_true_iff, Hok. by apply list_elem_of_In.
Qed.

(** X3. [~Vector()] on a vector that satisfies the invariant returns
    normally: the object is gone, its block is released, the allocator gets
    back [capacity] slots, and every other block and object is as before. *)
Theorem destruction_releases s this v l :
  vec_at s this v l →
  ∃ s', Vector_dtor this s = Ret tt s' ∧
        objs s' !! this = None ∧
        avail s' = avail s + capacity_ (data_ v) ∧
        (∀ b, buffer_ (data_ v) = Some b → heap s' !! b = None) ∧
        (∀ b, buffer_ (data_ v) ≠ Some b → heap s' !! b = heap s !! b) ∧
        (∀ a, a ≠ this → objs s' !! a = objs s !! a).
Proof.
  intros Hv. eexists. split; [by eapply Vector_dtor_eq|]. simpl.
  split; [apply lookup_delete_eq|]. split; [done|]. split; [|split].
  - intros b ->. apply lookup_delete_eq.
  - intros b Hb. destruct (buffer_ (data_ v)) as [ob|]; simpl; [|done].
    apply lookup_delete_ne. intros ->. by apply Hb.
  - intros a Ha. by apply lookup_delete_ne.
Qed.

(** X4. Constructing a vector and destroying it leaves no trace: after
    [{ Vector tmp(other); }] and after [{ Vector tmp(n); }] the state is
    exactly the state before, blocks and allocator budget included. *)
Theorem construct_destroy_round_trip s tmp other vb lb n d :
  objs s !! tmp = None → vec_at s other vb lb →
  length lb ≤ avail s → Forall (λ x, copy_throws x = false) lb →
  value_init = Some d → n ≤ avail s →
  (Vector_ctor_copy tmp other;; Vector_dtor tmp) s = Ret tt s ∧
  (Vector_ctor_size tmp n;; Vector_dtor tmp) s = Ret tt s.
Proof.
  intros Hnew Hvb Hav Hok Hd Hn.
  assert (Hback : ∀ l, length l ≤ avail s →
    Vector_dtor tmp (constructed_state s tmp l) = Ret tt s).
  { intros l Hl. rewrite (Vector_dtor_eq _ _ _ l (vec_at_constructed_state s tmp l)).
    simpl. rewrite delete_insert_id by apply fresh_block.
    rewrite delete_insert_id by done.
    replace (avail s - length l + length l) with (avail s) by lia.
    by rewrite State_eta. }
  assert (Hback0 :
    Vector_dtor tmp (upd_obj tmp (mkVec RawMemory_default 0) s) = Ret tt s).
  { rewrite (Vector_dtor_eq _ _ _ [] (vec_at_default s tmp)). simpl.
    rewrite delete_insert_id by done. rewrite Nat.add_0_r. by rewrite State_eta. }
  split.
  - destruct (decide (length lb = 0)) as [H0|H0].
    + destruct lb; [|done].
      by rewrite (bind_Ret _ _ _ _ _ (Vector_ctor_copy_empty _ _ _ _ Hvb)).
    + erewrite bind_Ret; [by apply (Hback lb)|].
      rewrite (Vector_ctor_copy_eq s tmp other vb lb Hnew Hvb) by lia.
      by rewrite decide_True, forallb_copy_ok by done.
  - destruct (decide (n = 0)) as [->|H0].
    + by rewrite (bind_Ret _ _ _ _ _ (Vector_ctor_size_0 _ _)).
    + erewrite bind_Ret; [apply (Hback (replicate n d)); by rewrite length_replicate|].
      rewrite (Vector_ctor_size_eq s tmp n Hnew) by lia.
      by rewrite Hd.
Qed.

(** X5. [PopBack()] on a vector holding [l ++ [x]] leaves it holding [l] in
    the same block with the same capacity, the slot of [x] raw again; on an
    empty vector it is undefined behaviour (it destroys a slot that holds no
    object). *)
Theorem PopBack_spec s this v l x :
  (vec_at s this v (l ++ [x]) →
     ∃ s', PopBack this s = Ret tt s' ∧
           vec_at s' this (mkVec (data_ v) (size_ v - 1)) l ∧
           avail s' = avail s) ∧
  (vec_at s this v [] → PopBack this s = Fault).
Proof.
  split; [|apply PopBack_empty].
  intros Hv. destruct (PopBack_eq s this v l x Hv) as (b & Hb & HP).
  destruct Hv as (Hobj & Hsz & Hcap & _). rewrite length_app in Hsz, Hcap.
  simpl in *. eexists. split; [exact HP|]. split; [|done].
  replace (size_ v - 1) with (length l) by lia.
  split; [apply lookup_upd_obj|]. unfold holds; simpl.
  split; [done|]. split; [lia|]. rewrite Hb. apply lookup_insert_eq.
Qed.

(** X6. [PushBack(x)] followed by [PopBack()] gives back the elements the
    vector had (when nothing throws and the allocator has room); size is as
    before, capacity may have grown. *)
Theorem PushBack_PopBack_round_trip s this v l x :
  vec_at s this v l → Forall nothrow (x :: l) →
  (length l = capacity_ (data_ v) → grown (capacity_ (data_ v)) ≤ avail s) →
  ∃ s' v', (PushBack this x;; PopBack this) s = Ret tt s' ∧
           vec_at s' this v' l ∧
           size_ v' = size_ v ∧
           capacity_ (data_ v) ≤ capacity_ (data_ v').
Proof.
  intros Hv Hok Havail.
  destruct (PushBack_ok s this v l x Hv Hok Havail) as (s1 & v1 & HP & Hv1 & Hc1 & _).
  destruct (PopBack_eq s1 this v1 l x Hv1) as (b & Hb & HQ).
  rewrite (bind_Ret _ _ _ _ _ HP).
  eexists _, _. split; [exact HQ|].
  destruct Hv1 as (_ & Hsz1 & Hcap1 & _). rewrite length_app in Hsz1, Hcap1.
  simpl in *. split.
  - split; [apply lookup_upd_obj|]. unfold holds; simpl.
    split; [done|]. split; [lia|]. rewrite Hb. apply lookup_insert_eq.
  - simpl. destruct Hv as (_ & -> & _). split; [done|].
    rewrite Hc1. case_decide; [done|]. unfold grown. case_decide; lia.
Qed.

(** X7. [Erase(Insert(begin + p, x))] gives back the elements the vector
    had: inserting at a position and erasing at the iterator returned
    restores the sequence (when nothing throws and the allocator has room). *)
Theorem Insert_Erase_round_trip s this v l p x :
  vec_at s this v l → p ≤ length l → Forall nothrow (x :: l) →
  (length l = capacity_ (data_ v) → grown (capacity_ (data_ v)) ≤ avail s) →
  ∃ s' v' it,
    (it <- Insert this (GetAddress (data_ v) +ₚ p) x;; Erase this it) s = Ret it s' ∧
    vec_at s' this v' l ∧
    size_ v' = size_ v ∧
    it = GetAddress (data_ v') +ₚ p.
Proof.
  intros Hv Hp Hok Havail.
  assert (Hx : arg_value (ByCopy x) = Some x).
  { apply Forall_cons in Hok as [(Hx & _) _]. simpl. by rewrite Hx. }
  destruct (Emplace_ok s this v l p (ByCopy x) x Hv Hp Hx Hok Havail)
    as (s1 & v1 & HE & Hv1 & Hsz1 & _).
  assert (Hdrop : drop (S p) (take p l ++ x :: drop p l) = drop p l).
  { rewrite cons_middle, (assoc_L (++)).
    apply drop_app_length'. rewrite length_app, length_take; simpl. lia. }
  assert (Htake : take p (take p l ++ x :: drop p l) = take p l).
  { apply take_app_length'. rewrite length_take. lia. }
  destruct (Erase_eq s1 this v1 _ p Hv1) as (s2 & HR & Hv2 & _).
  { rewrite length_app, length_take; simpl. lia. }
  { rewrite Hdrop. apply Forall_drop, Forall_nothrow_move_assign.
    by apply Forall_cons in Hok as [_ Hok]. }
  rewrite Htake, Hdrop, take_drop in Hv2.
  unfold Insert. rewrite (bind_Ret _ _ _ _ _ HE).
  eexists _, _, _. split; [exact HR|]. split; [exact Hv2|]. simpl.
  split; [|done].
  rewrite length_app, length_take, Nat.min_l by lia. simpl.
  rewrite length_drop. destruct Hv as (_ & -> & _). lia.
Qed.

(** X8. [Swap] exchanges the blocks, sizes, capacities and elements of two
    distinct vectors without touching a block; swapping twice restores the
    state, and swapping a vector with itself does nothing. *)
Theorem Swap_spec s a b va la vb lb :
  a ≠ b → vec_at s a va la → vec_at s b vb lb →
  (∃ s', Swap a b s = Ret tt s' ∧
         vec_at s' a vb lb ∧ vec_at s' b va la ∧
         heap s' = heap s ∧ avail s' = avail s ∧
         Swap a b s' = Ret tt s) ∧
  Swap a a s = Ret tt s.
Proof.
  intros Hne [Ha Hla] [Hb Hlb]. split; [|by eapply Swap_self].
  eexists. split; [by apply Swap_eq|]. split; [|split; [|split; [done|split; [done|]]]].
  - split; [|done]. rewrite !objs_upd_obj, lookup_insert_ne by done.
    apply lookup_insert_eq.
  - split; [apply lookup_upd_obj|done].
  - erewrite Swap_eq; [|done| |apply lookup_upd_obj].
    2:{ rewrite !objs_upd_obj, lookup_insert_ne by done. apply lookup_insert_eq. }
    destruct s as [h o n]. unfold upd_obj, set_objs; simpl in *.
    apply Ret_state_eq; [done| |done].
    apply map_eq; intros k. rewrite !lookup_insert.
    repeat case_decide; subst; try done; congruence.
Qed.

(** X9. [Reserve(n)] with [n > capacity] and room in the allocator for
    [n] slots, for an element type that is relocated by copy: if every copy
    succeeds it returns with capacity [n] and the same elements; if some
    copy throws it throws with the state exactly as before, the new block
    released. *)
Theorem Reserve_strong_guarantee s this v l n :
  relocates_by_move = false →
  vec_at s this v l → capacity_ (data_ v) < n → n ≤ avail s →
  (Forall (λ x, copy_throws x = false) l →
     ∃ s' v', Reserve this n s = Ret tt s' ∧ vec_at s' this v' l ∧
              capacity_ (data_ v') = n ∧ size_ v' = size_ v) ∧
  (¬ Forall (λ x, copy_throws x = false) l →
     Reserve this n s = Throw s).
Proof.
  intros Hmode Hv Hn Hav. split.
  - intros Hok.
    exists (realloc_state s this v l n),
           (mkVec (mkRaw (Some (fresh (dom (heap s)))) n) (length l)).
    split.
    { apply Reserve_grow_relocatable; [done..|].
      eapply Forall_impl; [exact Hok|]. intros x Hx. unfold relocatable.
      by rewrite Hmode. }
    split; [apply vec_at_realloc_state; destruct Hv as (_ & _ & ? & _); lia|].
    simpl. split; [done|]. by destruct Hv as (_ & -> & _).
  - intros Hno.
    apply (Reserve_copy_throw s this v l n Hmode Hv Hn Hav).
    destruct (forallb _ l) eqn:Hok; [|done].
    exfalso. apply Hno.
    rewrite forallb_forall in Hok. apply Forall_forall. intros x Hx.
    apply negb_true_iff, Hok. by apply list_elem_of_In.
Qed.

(** X10. For an element type whose move constructor is [noexcept],
    [CopyOrMoveData] moves and never calls the copy constructor: [Reserve(n)]
    with [n > capacity] and room in the allocator for [n] slots returns with
    capacity [n] and the same elements, whatever the copy constructor would
    throw on. *)
Theorem Reserve_nothrow_move s this v l n :
  is_nothrow_move_constructible = true →
  vec_at s this v l → capacity_ (data_ v) < n → n ≤ avail s →
  ∃ s' v', Reserve this n s = Ret tt s' ∧ vec_at s' this v' l ∧
           capacity_ (data_ v') = n ∧ size_ v' = size_ v.
Proof.
  intros Hnt Hv Hn Hav.
  exists (realloc_state s this v l n),
         (mkVec (mkRaw (Some (fresh (dom (heap s)))) n) (length l)).
  split.
  { apply Reserve_grow_relocatable; [done..|].
    apply Forall_forall. intros x _. unfold relocatable, relocates_by_move.
    rewrite Hnt. simpl. by apply nothrow_move_sound. }
  split; [apply vec_at_realloc_state; destruct Hv as (_ & _ & ? & _); lia|].
  simpl. split; [done|]. by destruct Hv as (_ & -> & _).
Qed.

(** X11. An [Emplace] that cannot construct its element (the constructor
    throws), or that needs a larger block and cannot get it, throws and
    leaves the state exactly as before: nothing has moved and a block
    allocated for the attempt is released. *)
Theorem Emplace_failure_leaves_state s this v p args :
  objs s !! this = Some v →
  arg_value args = None ∨
  (¬ size_ v < capacity_ (data_ v) ∧ avail s < grown (capacity_ (data_ v))) →
  Emplace this (GetAddress (data_ v) +ₚ p) args s = Throw s.
Proof.
  intros Hobj [Hx|[Hfull Hav]].
  - by apply Emplace_ctor_throw.
  - by apply Emplace_alloc_throw.
Qed.

(** X12. [EmplaceBack] on a full, non-empty vector whose elements are
    relocated by copy, when some copy throws: the call does not throw.  It
    returns an iterator into a fresh block of [max(1, 2 * capacity)] raw
    slots that the vector has adopted with its size incremented; the old
    elements are destroyed and their block released. *)
Theorem EmplaceBack_swallows_relocation_failure s this v l args x :
  vec_at s this v l → length l = capacity_ (data_ v) → 0 < length l →
  relocates_by_move = false →
  ¬ Forall (λ y, copy_throws y = false) l →
  arg_value args = Some x →
  grown (capacity_ (data_ v)) ≤ avail s →
  ∃ s' v', EmplaceBack this args s = Ret (GetAddress (data_ v') +ₚ size_ v) s' ∧
           objs s' !! this = Some v' ∧
           size_ v' = S (size_ v) ∧
           capacity_ (data_ v') = grown (capacity_ (data_ v)) ∧
           (∀ i, i < capacity_ (data_ v') →
                 slot_at s' (GetAddress (data_ v') +ₚ i) = Some None) ∧
           (∀ b, buffer_ (data_ v) = Some b → heap s' !! b = None).
Proof.
  intros Hv Hfull Hpos Hmode Hbad Hx Hav.
  assert (Hb : forallb (λ y, negb (copy_throws y)) l = false).
  { destruct (forallb _ l) eqn:Hok; [|done]. exfalso. apply Hbad.
    rewrite forallb_forall in Hok. apply Forall_forall. intros y Hy.
    apply negb_true_iff, Hok. by apply list_elem_of_In. }
  pose proof (EmplaceBack_hollow s this v l args x Hv Hfull Hpos Hmode Hb Hx Hav) as HE.
  exists (hollow_state s this v (S (length l)) (grown (capacity_ (data_ v)))),
         (mkVec (mkRaw (Some (fresh (dom (heap s)))) (grown (capacity_ (data_ v))))
                (S (length l))).
  destruct Hv as (Hobj & Hsz & Hcap & Hblk). rewrite Hsz.
  split; [exact HE|]. simpl.
  split; [apply lookup_insert_eq|]. split; [done|]. split; [done|]. split.
  - intros i Hi. unfold slot_at; simpl. rewrite lookup_insert_eq. simpl.
    by apply lookup_replicate_2.
  - intros b Hbuf. rewrite Hbuf in Hblk. rewrite Hbuf. simpl.
    rewrite lookup_insert_ne by (symmetry; by eapply fresh_block_ne).
    apply lookup_delete_eq.
Qed.

(** X13. [Resize(n)] growing a vector of an element type whose default
    constructor throws: the call throws, the vector still holds the same
    elements with the same size, but its capacity has already been raised to
    [max(capacity, n)] by the [Reserve] that ran first. *)
Theorem Resize_failure_keeps_elements s this v l n :
  vec_at s this v l → length l < n → value_init = None →
  (capacity_ (data_ v) < n → Forall nothrow l ∧ n ≤ avail s) →
  ∃ s' v', Resize this n s = Throw s' ∧
           vec_at s' this v' l ∧
           size_ v' = size_ v ∧
           capacity_ (data_ v') = capacity_ (data_ v) `max` n.
Proof.
  intros Hv Hn Hd Hre.
  destruct (Resize_grow_throw s this v l n Hv Hn Hd Hre) as (s' & v' & ? & ? & ? & ?).
  by exists s', v'.
Qed.

(** X14. [operator[]] is checked against the size: for [i < Size()] it
    returns the address [data_ + i], at which the [i]-th element is read,
    and leaves the state alone; for [i >= Size()] the assertion fails, also
    when [i] is below the capacity. *)
Theorem index_spec s this v l i :
  vec_at s this v l →
  (∀ x, l !! i = Some x →
        (p <- index this i;; read p) s = Ret x s ∧
        index this i s = Ret (GetAddress (data_ v) +ₚ i) s) ∧
  (length l ≤ i → index this i s = Fault).
Proof.
  intros Hv. split.
  - intros x Hx. destruct (index_eq s this v l i x Hv Hx) as [Hi Hr].
    split; [|done]. by rewrite (bind_Ret _ _ _ _ _ Hi).
  - intros Hi. by eapply index_out_of_range.
Qed.


(** X16. A copy is independent of its source: after copy-constructing
    [b] from [a] and appending to [b], the vector [a] still holds its
    elements in its own block, and [b] holds them followed by the new one in
    a block of its own. *)
Theorem copy_is_independent s a b va la x :
  objs s !! b = None → a ≠ b → vec_at s a va la →
  Forall nothrow (x :: la) →
  length la + grown (length la) ≤ avail s →
  ∃ s' vb', (Vector_ctor_copy b a;; PushBack b x) s = Ret tt s' ∧
            vec_at s' a va la ∧
            vec_at s' b vb' (la ++ [x]) ∧
            separate va vb'.
Proof.
  intros Hfree Hne Ha Hok Hav.
  assert (Hcopy : forallb (λ y, negb (copy_throws y)) la = true).
  { apply forallb_forall. intros y Hy. apply negb_true_iff.
    apply Forall_cons in Hok as [_ Hok]. rewrite Forall_forall in Hok.
    apply Hok. by apply list_elem_of_In. }
  destruct (decide (0 < length la)) as [Hpos|Hz].
  - pose proof (Vector_ctor_copy_eq s b a va la Hfree Ha Hpos) as HC.
    rewrite decide_True, Hcopy in HC by lia.
    rewrite (bind_Ret _ _ _ _ _ HC).
    pose proof (vec_at_constructed_state s b la) as Hb.
    rewrite (PushBack_full_eq _ b _ la x Hb) by (simpl; first [done|lia]).
    eexists _, _. split; [done|].
    assert (Hsep : separate va (mkVec (mkRaw (Some (fresh (dom (heap s)))) (length la))
                                      (length la))).
    { intros k Hk [= <-]. destruct Ha as (_ & _ & _ & Hblk). rewrite Hk in Hblk.
      by eapply fresh_block_ne. }
    split; [|split].
    + apply vec_at_realloc_frame; [|done|done].
      by apply vec_at_constructed_frame.
    + apply vec_at_realloc_state. rewrite length_app; simpl. unfold grown.
      case_decide; lia.
    + intros k Hk [= <-]. simpl in *.
      pose proof (vec_at_constructed_frame s a va la b la Ha Hne) as (_ & _ & _ & Hblk).
      rewrite Hk in Hblk. by eapply fresh_block_ne.
  - assert (la = []) as -> by (destruct la; [done|simpl in *; lia]).
    rewrite (bind_Ret _ _ _ _ _ (Vector_ctor_copy_empty s b a va Ha)).
    assert (Hb : vec_at (upd_obj b (mkVec RawMemory_default 0) s) b
                        (mkVec RawMemory_default 0) []).
    { split; [apply lookup_upd_obj|]. by unfold holds. }
    rewrite (PushBack_full_eq _ b _ [] x Hb) by (simpl; first [done|lia]).
    eexists _, _. split; [done|]. split; [|split].
    + apply vec_at_realloc_frame; [|done|by intros k _].
      by apply vec_at_upd_obj_frame.
    + apply vec_at_realloc_state. simpl. unfold grown. case_decide; lia.
    + intros k Hk [= <-]. simpl in *.
      pose proof (vec_at_upd_obj_frame s a va [] b (mkVec RawMemory_default 0) Ha Hne)
        as (_ & _ & _ & Hblk).
      rewrite Hk in Hblk. by eapply fresh_block_ne.
Qed.

(** X17. Moving a [RawMemory] transfers ownership of its block: after
    allocating [a] and [b], move-constructing [c] from [a], move-assigning
    [c] to [b] and running the three destructors, every block has been
    released exactly once and the state is the initial one. *)
Theorem RawMemory_moves_transfer_ownership s n m (b_addr c_addr : nat) :
  b_addr ≠ c_addr → n + m ≤ avail s →
  (a <- RawMemory_ctor n;;
   b <- RawMemory_ctor m;;
   let ca := RawMemory_ctor_move a in
   bc <- RawMemory_assign_move b_addr c_addr b ca.1;;
   RawMemory_dtor bc.2;;
   RawMemory_dtor bc.1;;
   RawMemory_dtor ca.2) s = Ret tt s.
Proof.
  intros Hne Hav.
  destruct (decide (n = 0)) as [->|Hn].
  - rewrite (bind_Ret _ _ _ _ _ (RawMemory_ctor_0 s)).
    destruct (decide (m = 0)) as [->|Hm].
    + rewrite (bind_Ret _ _ _ _ _ (RawMemory_ctor_0 s)).
      unfold RawMemory_assign_move. rewrite decide_True by done. simpl.
      rewrite ?bind_assoc.
      by rewrite (bind_Ret _ _ _ _ _ (RawMemory_dtor_null s 0)), bind_ret_l.
    + rewrite (bind_Ret _ _ _ _ _ (RawMemory_ctor_eq s m Hm ltac:(lia))).
      unfold RawMemory_assign_move. rewrite decide_True by done. simpl.
      rewrite ?bind_assoc.
      rewrite (bind_Ret _ _ _ _ _ (release_fresh s m ltac:(lia))), bind_ret_l.
      simpl. by rewrite !(bind_Ret _ _ _ _ _ (RawMemory_dtor_null s 0)).
  - rewrite (bind_Ret _ _ _ _ _ (RawMemory_ctor_eq s n Hn ltac:(lia))).
    set (s1 := mkState _ _ _).
    assert (Hs1 : RawMemory_dtor (mkRaw (Some (fresh (dom (heap s)))) n) s1 = Ret tt s)
      by (apply release_fresh; lia).
    destruct (decide (m = 0)) as [->|Hm].
    + rewrite (bind_Ret _ _ _ _ _ (RawMemory_ctor_0 s1)).
      unfold RawMemory_assign_move. rewrite decide_True by done. simpl.
      rewrite ?bind_assoc.
      rewrite (bind_Ret _ _ _ _ _ (RawMemory_dtor_null s1 0)), bind_ret_l. simpl.
      rewrite (bind_Ret _ _ _ _ _ (RawMemory_dtor_null s1 0)).
      rewrite (bind_Ret _ _ _ _ _ Hs1).
      apply RawMemory_dtor_null.
    + rewrite (bind_Ret _ _ _ _ _ (RawMemory_ctor_eq s1 m Hm ltac:(simpl; lia))).
      unfold RawMemory_assign_move. rewrite decide_True by done. simpl.
      rewrite ?bind_assoc.
      rewrite (bind_Ret _ _ _ _ _ (release_fresh s1 m ltac:(simpl; lia))), bind_ret_l.
      simpl. rewrite (bind_Ret _ _ _ _ _ (RawMemory_dtor_null s1 0)).
      rewrite (bind_Ret _ _ _ _ _ Hs1).
      apply RawMemory_dtor_null.
Qed.

(** X18. [EmplaceBack] (and so both [PushBack] overloads) on a vector with
    spare capacity constructs the new element in place and touches nothing
    else: it needs only the element's own constructor to succeed, whatever
    copying or moving the present elements would throw; the block, the
    capacity and the allocator are unchanged, and the reference returned is
    to the new last element.  The rvalue [PushBack] does not call the copy
    constructor. *)
Theorem EmplaceBack_in_place s this v l args x :
  vec_at s this v l → length l < capacity_ (data_ v) →
  (arg_value args = Some x →
     ∃ s', EmplaceBack this args s = Ret (GetAddress (data_ v) +ₚ length l) s' ∧
           vec_at s' this (mkVec (data_ v) (S (length l))) (l ++ [x]) ∧
           read (GetAddress (data_ v) +ₚ length l) s' = Ret x s' ∧
           avail s' = avail s) ∧
  (move_throws x = false →
     ∃ s', PushBack_move this x s = Ret tt s' ∧
           vec_at s' this (mkVec (data_ v) (S (length l))) (l ++ [x]) ∧
           avail s' = avail s).
Proof.
  intros Hv Hfree. split.
  - intros Hx.
    destruct (EmplaceBack_fast s this v l args x Hv Hfree Hx) as (s' & HE & Hv' & Hav).
    exists s'. split; [done|]. split; [done|]. split; [|done].
    eapply (index_eq s' this _ (l ++ [x]) (length l) x Hv').
    by apply list_lookup_middle.
  - intros Hx.
    destruct (EmplaceBack_fast s this v l (ByMove x) x Hv Hfree) as (s' & HE & Hv' & Hav).
    { simpl. by rewrite Hx. }
    exists s'. unfold PushBack_move. by rewrite (bind_Ret _ _ _ _ _ HE).
Qed.

(** X19. The iterator range: [end() - begin()] is [Size()], and reading at
    [begin() + i] for [i < Size()] gives the [i]-th element; neither call
    changes the state. *)
Theorem begin_end_range s this v l :
  vec_at s this v l →
  (b <- begin_ this;; e <- end_ this;; distance b e) s = Ret (length l) s ∧
  (∀ i x, l !! i = Some x → (b <- begin_ this;; read (b +ₚ i)) s = Ret x s).
Proof.
  intros Hv. pose proof Hv as [Hobj (Hsz & Hcap & Hblk)]. split.
  - rewrite (bind_Ret _ _ _ _ _ (begin_eq _ _ _ Hobj)).
    rewrite (bind_Ret _ _ _ _ _ (end_eq _ _ _ Hobj)).
    unfold distance, GetAddress, ptr_add. simpl.
    rewrite decide_True by (split; [done|lia]).
    unfold ret. f_equal. lia.
  - intros i x Hx.
    rewrite (bind_Ret _ _ _ _ _ (begin_eq _ _ _ Hobj)).
    by destruct (index_eq s this v l i x Hv Hx) as [_ Hr].
Qed.

(** X20. Shrinking with [Resize] destroys the tail for good: [Resize(k)]
    followed by [Resize] back to the old size keeps the block and the
    capacity, keeps the first [k] elements, and fills the rest with
    value-initialised elements, not the old ones. *)
Theorem Resize_shrink_then_grow s this v l k d :
  vec_at s this v l → k < length l → value_init = Some d →
  ∃ s', (Resize this k;; Resize this (length l)) s = Ret tt s' ∧
        vec_at s' this v (take k l ++ replicate (length l - k) d) ∧
        avail s' = avail s.
Proof.
  intros Hv Hk Hd.
  destruct (Resize_shrink s this v l k Hv Hk) as (s1 & H1 & Hv1 & Hav1).
  rewrite (bind_Ret _ _ _ _ _ H1).
  assert (Hlen : length (take k l) = k) by (rewrite length_take; lia).
  destruct (Resize_grow_in_place s1 this _ (take k l) (length l) d Hv1)
    as (s2 & H2 & Hv2 & Hav2); [lia| |done|].
  { simpl. by destruct Hv as (_ & _ & ? & _). }
  exists s2. split; [done|]. split; [|congruence].
  rewrite Hlen in Hv2. simpl in Hv2.
  destruct Hv as (_ & Hsz & _). rewrite <- Hsz in Hv2 at 1. by destruct v.
Qed.

End more_properties.

(** * The operations on concrete vectors of integers *)

Import IntElem.

Ltac vec_at_compute :=
  split; [reflexivity|split; [reflexivity|split; [simpl; lia|reflexivity]]].

Ltac nothrow_compute :=
  repeat first [apply Forall_nil | apply Forall_cons; split
               | split | reflexivity].

Lemma Emplace_inserts_one_witness :
  ∃ s' v',
    Emplace 0 (GetAddress (data_ v123) +ₚ 1) (ByCopy 99%Z) st123
    = Ret (GetAddress (data_ v') +ₚ 1) s' ∧
    vec_at s' 0 v' (take 1 [1; 2; 3] ++ 99 :: drop 1 [1; 2; 3])%Z ∧
    size_ v' = S (size_ v123) ∧
    (take 1 [1; 2; 3] ++ 99 :: drop 1 [1; 2; 3])%Z !! 1 = Some 99%Z.
Proof.
  apply (Emplace_inserts_one st123 0 v123 [1; 2; 3]%Z 1 (ByCopy 99%Z) 99%Z).
  - vec_at_compute.
  - simpl; lia.
  - reflexivity.
  - nothrow_compute.
  - simpl. intros H; discriminate H.
Defined.

Lemma assign_copy_spec_witness :
  (capacity_ (data_ v7) < length [1; 2]%Z →
     (length [1; 2]%Z ≤ avail st_two ∧ Forall (λ x, copy_throws x = false) [1; 2]%Z →
        ∃ s' va', assign_copy 0 1 st_two = Ret 0 s' ∧
                  vec_at s' 0 va' [1; 2]%Z ∧ vec_at s' 1 v12 [1; 2]%Z ∧
                  capacity_ (data_ va') = length [1; 2]%Z ∧
                  buffer_ (data_ va') ≠ buffer_ (data_ v7)) ∧
     (¬ (length [1; 2]%Z ≤ avail st_two ∧ Forall (λ x, copy_throws x = false) [1; 2]%Z) →
        assign_copy 0 1 st_two = Throw st_two)) ∧
  (length [1; 2]%Z ≤ capacity_ (data_ v7) →
   Forall (λ x, copy_assign_throws x = false) (take (length [7]%Z) [1; 2]%Z) →
   Forall (λ x, copy_throws x = false) (drop (length [7]%Z) [1; 2]%Z) →
     ∃ s', assign_copy 0 1 st_two = Ret 0 s' ∧
           vec_at s' 0 (mkVec (data_ v7) (length [1; 2]%Z)) [1; 2]%Z ∧
           vec_at s' 1 v12 [1; 2]%Z).
Proof.
  apply (assign_copy_spec st_two 0 1 v7 [7]%Z v12 [1; 2]%Z).
  - lia.
  - vec_at_compute.
  - vec_at_compute.
  - intros b Hb Hb'. simpl in Hb, Hb'. congruence.
Defined.

Lemma move_spec_witness :
  (∃ s', Vector_ctor_move 2 1 st_two = Ret tt s' ∧
         vec_at s' 2 v12 [1; 2]%Z ∧
         vec_at s' 1 (mkVec RawMemory_default 0) []) ∧
  (∃ s', assign_move 0 1 st_two = Ret 0 s' ∧
         vec_at s' 0 v12 [1; 2]%Z ∧
         vec_at s' 1 v7 [7]%Z).
Proof.
  apply (move_spec st_two 1 0 2 v12 [1; 2]%Z v7 [7]%Z).
  - lia.
  - lia.
  - vec_at_compute.
  - vec_at_compute.
Defined.

Lemma growth_doubles_witness :
  (∃ s' v', Emplace 0 (GetAddress (data_ v_full) +ₚ 2) (@FromArgs Z elem 3%Z) st_full
            = Ret (GetAddress (data_ v') +ₚ 2) s' ∧
            objs s' !! 0 = Some v' ∧
            capacity_ (data_ v') = 1 `max` (2 * capacity_ (data_ v_full))) ∧
  (∃ s' v', PushBack_all 0 [1; 2; 3]%Z st_empty = Ret tt s' ∧
            vec_at s' 0 v' [1; 2; 3]%Z ∧
            (∀ k, length [1; 2; 3]%Z ≤ 2 ^ k → capacity_ (data_ v') ≤ 2 ^ k) ∧
            (length [1; 2; 3]%Z = 1 → capacity_ (data_ v') = 1)).
Proof.
  apply (growth_doubles st_full 0 v_full [1; 2]%Z 2 (@FromArgs Z elem 3%Z) 3%Z
                        st_empty [1; 2; 3]%Z).
  - vec_at_compute.
  - reflexivity.
  - simpl; lia.
  - reflexivity.
  - nothrow_compute.
  - vm_compute. lia.
  - vec_at_compute.
  - nothrow_compute.
  - simpl; lia.
Defined.

Lemma Reserve_spec_witness :
  ∃ s' v', Reserve 0 10 st123 = Ret tt s' ∧
           vec_at s' 0 v' [1; 2; 3]%Z ∧ size_ v' = size_ v123 ∧
           (10 ≤ capacity_ (data_ v123) → s' = st123 ∧ v' = v123) ∧
           (capacity_ (data_ v123) < 10 → capacity_ (data_ v') = 10).
Proof.
  apply (Reserve_spec st123 0 v123 [1; 2; 3]%Z 10).
  - vec_at_compute.
  - intros _. split; [nothrow_compute|simpl; lia].
Defined.

Lemma Resize_spec_witness :
  ∃ s' v', Resize 0 5 st123 = Ret tt s' ∧ size_ v' = 5 ∧
           (5 < length [1; 2; 3]%Z →
              v' = mkVec (data_ v123) 5 ∧ vec_at s' 0 v' (take 5 [1; 2; 3]%Z)) ∧
           (length [1; 2; 3]%Z < 5 →
              vec_at s' 0 v' ([1; 2; 3] ++ replicate (5 - length [1; 2; 3]%Z) 0)%Z ∧
              capacity_ (data_ v') = capacity_ (data_ v123) `max` 5).
Proof.
  apply (Resize_spec st123 0 v123 [1; 2; 3]%Z 5 0%Z).
  - vec_at_compute.
  - reflexivity.
  - intros _. split; [nothrow_compute|simpl; lia].
Defined.

Lemma Erase_spec_witness :
  ∃ s', Erase 0 (GetAddress (data_ v123) +ₚ 1) st123
        = Ret (GetAddress (data_ v123) +ₚ 1) s' ∧
        vec_at s' 0 (mkVec (data_ v123) (size_ v123 - 1))
               (take 1 [1; 2; 3] ++ drop 2 [1; 2; 3])%Z ∧
        length (take 1 [1; 2; 3] ++ drop 2 [1; 2; 3])%Z = length [1; 2; 3]%Z - 1.
Proof.
  apply (Erase_spec st123 0 v123 [1; 2; 3]%Z 1).
  - vec_at_compute.
  - simpl; lia.
  - nothrow_compute.
Defined.

(** C5 as stated fails for move assignment into a non-empty vector: after
    [b = std::move(a)] with [b] holding [7] and [a] holding [1, 2], the
    moved-from [a] has size 1 and capacity 1, not 0. *)
Lemma move_assignment_leaves_source_nonempty :
  vec_at st_two 0 v7 [7]%Z ∧ vec_at st_two 1 v12 [1; 2]%Z ∧
  ∃ s', assign_move 0 1 st_two = Ret 0 s' ∧
        Size 1 s' = Ret 1 s' ∧ Capacity 1 s' = Ret 1 s' ∧
        Size 1 s' ≠ Ret 0 s' ∧ Capacity 1 s' ≠ Ret 0 s' ∧
        vec_at s' 1 v7 [7]%Z.
Proof.
  split; [vec_at_compute|]. split; [vec_at_compute|].
  eexists. split; [vm_compute; reflexivity|].
  split; [vm_compute; reflexivity|]. split; [vm_compute; reflexivity|].
  split; [vm_compute; discriminate|]. split; [vm_compute; discriminate|].
  vec_at_compute.
Qed.

(** The scenario of the specification, run on the model: three appends to
    an empty vector, [Insert(begin + 1, 99)], [Erase(begin + 2)],
    [Resize(1)] and [Resize(4)]. *)
Example scenario :
  ∃ s1 s2 s3 s4 s5 b1,
    PushBack_all 0 [1; 2; 3]%Z st_empty = Ret tt s1 ∧
    vec_at s1 0 (mkVec (mkRaw (Some b1) 4) 3) [1; 2; 3]%Z ∧
    Insert 0 (Ptr (Some b1) 1) 99%Z s1 = Ret (Ptr (Some b1) 1) s2 ∧
    vec_at s2 0 (mkVec (mkRaw (Some b1) 4) 4) [1; 99; 2; 3]%Z ∧
    Erase 0 (Ptr (Some b1) 2) s2 = Ret (Ptr (Some b1) 2) s3 ∧
    vec_at s3 0 (mkVec (mkRaw (Some b1) 4) 3) [1; 99; 3]%Z ∧
    Resize 0 1 s3 = Ret tt s4 ∧
    vec_at s4 0 (mkVec (mkRaw (Some b1) 4) 1) [1]%Z ∧
    Resize 0 4 s4 = Ret tt s5 ∧
    vec_at s5 0 (mkVec (mkRaw (Some b1) 4) 4) [1; 0; 0; 0]%Z.
Proof.
  eexists _, _, _, _, _, _.
  split; [vm_compute; reflexivity|]. split; [vec_at_compute|].
  split; [vm_compute; reflexivity|]. split; [vec_at_compute|].
  split; [vm_compute; reflexivity|]. split; [vec_at_compute|].
  split; [vm_compute; reflexivity|]. split; [vec_at_compute|].
  split; [vm_compute; reflexivity|]. vec_at_compute.
Qed.

(** C1. The reallocating path of [Emplace] does not re-throw.  The vector
    at address 0, built by two calls of [EmplaceBack], is full and holds
    [1, -2]; copying [-2] throws, so the
    relocation into a larger block fails ([Reserve] shows it: it throws and
    leaves the state untouched).  [PushBack(3)] fails in the transfer of the
    prefix, [Insert(begin + 1, 3)] in the transfer of the suffix; both
    nevertheless return normally, with the old block released, size 3,
    capacity 4 and raw slots where the elements should be. *)
Theorem reallocating_Emplace_swallows_transfer_failure :
  build_bad (mkState ∅ ∅ 100) = Ret tt st_bad ∧
  vec_at st_bad 0 v_full [1; -2]%Z ∧
  size_ v_full = capacity_ (data_ v_full) ∧
  copy_throws (-2)%Z = true ∧
  Reserve 0 4 st_bad = Throw st_bad ∧
  PushBack 0 3%Z st_bad
  = Ret tt (mkState {[2 := [None; None; None; None]]}
                    {[0 := mkVec (mkRaw (Some 2) 4) 3]} 96) ∧
  Insert 0 (GetAddress (data_ v_full) +ₚ 1) 3%Z st_bad
  = Ret (Ptr (Some 2) 1)
        (mkState {[2 := [None; Some 3%Z; None; None]]}
                 {[0 := mkVec (mkRaw (Some 2) 4) 3]} 96).
Proof.
  split; [vm_compute; reflexivity|].
  split; [vec_at_compute|]. split; [reflexivity|]. split; [reflexivity|].
  split; [vm_compute; reflexivity|]. split; vm_compute; reflexivity.
Qed.

(** C2. An [Emplace] that returns normally need not have kept the other
    elements.  On the full vector holding [1, -2], whose elements are
    relocated by copy and where copying [-2] throws, [Emplace(begin, 3)]
    returns normally with an iterator to the new element, which holds [3],
    and with the size incremented to 3: one element was constructed at the
    position.  But the suffix transfer failed and its [catch] block did not
    re-throw, so the two elements that were there are gone: slots 1 and 2
    are raw, neither [1] nor [-2] can be read any more, and the vector does
    not hold [3, 1, -2]. *)
Theorem Emplace_returns_without_the_other_elements :
  build_bad (mkState ∅ ∅ 100) = Ret tt st_bad ∧
  vec_at st_bad 0 v_full [1; -2]%Z ∧
  relocates_by_move = false ∧
  ∃ s' v',
    Emplace 0 (GetAddress (data_ v_full) +ₚ 0) (@FromArgs Z elem 3%Z) st_bad
    = Ret (GetAddress (data_ v') +ₚ 0) s' ∧
    objs s' !! 0 = Some v' ∧
    size_ v' = S (size_ v_full) ∧
    read (GetAddress (data_ v') +ₚ 0) s' = Ret 3%Z s' ∧
    slot_at s' (GetAddress (data_ v') +ₚ 1) = Some None ∧
    slot_at s' (GetAddress (data_ v') +ₚ 2) = Some None ∧
    read (GetAddress (data_ v') +ₚ 1) s' = Fault ∧
    read (GetAddress (data_ v') +ₚ 2) s' = Fault ∧
    ¬ vec_at s' 0 v' (take 0 [1; -2] ++ 3 :: drop 0 [1; -2])%Z ∧
    (∀ l, ¬ holds s' v' l).
Proof.
  split; [vm_compute; reflexivity|].
  split; [vec_at_compute|]. split; [reflexivity|].
  exists (mkState {[2 := [Some 3%Z; None; None; None]]}
                  {[0 := mkVec (mkRaw (Some 2) 4) 3]} 96),
         (mkVec (mkRaw (Some 2) 4) 3).
  split; [vm_compute; reflexivity|].
  split; [reflexivity|]. split; [reflexivity|].
  split; [vm_compute; reflexivity|].
  split; [reflexivity|]. split; [reflexivity|].
  split; [vm_compute; reflexivity|]. split; [vm_compute; reflexivity|].
  assert (Hno : ∀ l, ¬ holds
            (mkState {[2 := [Some 3%Z; None; None; None]]}
                     {[0 := mkVec (mkRaw (Some 2) 4) 3]} 96)
            (mkVec (mkRaw (Some 2) 4) 3) l).
  { intros l (Hsz & _ & Hblk). simpl in Hsz, Hblk.
    destruct l as [|a [|b [|c [|d l]]]]; try discriminate Hsz.
    vm_compute in Hblk. discriminate Hblk. }
  split; [|exact Hno]. intros [_ Hh]. exact (Hno _ Hh).
Qed.

(** C3. The invariant does not survive that path: after [PushBack(3)] on
    the full vector holding [1, -2] has returned normally, the vector has
    size 3 but its first slot is raw storage, so no sequence of elements
    satisfies the invariant, and destroying the vector destroys a raw slot. *)
Theorem invariant_lost_after_swallowed_failure :
  build_bad (mkState ∅ ∅ 100) = Ret tt st_bad ∧
  vec_at st_bad 0 v_full [1; -2]%Z ∧
  ∃ s' v', PushBack 0 3%Z st_bad = Ret tt s' ∧
           objs s' !! 0 = Some v' ∧
           size_ v' = 3 ∧
           slot_at s' (GetAddress (data_ v')) = Some None ∧
           (∀ l, ¬ holds s' v' l) ∧
           Vector_dtor 0 s' = Fault.
Proof.
  split; [vm_compute; reflexivity|].
  split; [vec_at_compute|].
  eexists _, _. split; [vm_compute; reflexivity|].
  split; [reflexivity|]. split; [reflexivity|]. split; [reflexivity|].
  split; [|vm_compute; reflexivity].
  intros l (Hsz & _ & Hblk). simpl in Hsz, Hblk.
  destruct l as [|a [|b [|c [|d l]]]]; try discriminate Hsz.
  vm_compute in Hblk. discriminate Hblk.
Qed.

(** ** The further properties on concrete vectors *)

Lemma sized_construction_witness :
  (∃ s' v', Vector_ctor_size 5 2 st123 = Ret tt s' ∧
            vec_at s' 5 v' (replicate 2 0%Z) ∧
            capacity_ (data_ v') = 2 ∧
            avail s' + 2 = avail st123) ∧
  @Vector_ctor_size Z MoveElem.elem 5 2 st123 = Throw st123.
Proof.
  split.
  - apply (sized_construction st123 5 2); [reflexivity|simpl; lia|reflexivity].
  - apply (@sized_construction Z MoveElem.elem st123 5 2);
      [reflexivity|simpl; lia|lia|reflexivity].
Defined.

Lemma copy_construction_witness :
  (length [1; 2]%Z ≤ avail st_two → Forall (λ x, copy_throws x = false) [1; 2]%Z →
     ∃ s' v', Vector_ctor_copy 5 1 st_two = Ret tt s' ∧
              vec_at s' 5 v' [1; 2]%Z ∧ vec_at s' 1 v12 [1; 2]%Z ∧
              capacity_ (data_ v') = length [1; 2]%Z ∧
              separate v' v12) ∧
  (¬ (length [1; 2]%Z ≤ avail st_two ∧ Forall (λ x, copy_throws x = false) [1; 2]%Z) →
     Vector_ctor_copy 5 1 st_two = Throw st_two).
Proof.
  apply (copy_construction st_two 5 1 v12 [1; 2]%Z).
  - reflexivity.
  - vec_at_compute.
Defined.

Lemma destruction_releases_witness :
  ∃ s', Vector_dtor 0 st_two = Ret tt s' ∧
        objs s' !! 0 = None ∧
        avail s' = avail st_two + capacity_ (data_ v7) ∧
        (∀ b, buffer_ (data_ v7) = Some b → heap s' !! b = None) ∧
        (∀ b, buffer_ (data_ v7) ≠ Some b → heap s' !! b = heap st_two !! b) ∧
        (∀ a, a ≠ 0 → objs s' !! a = objs st_two !! a).
Proof.
  apply (destruction_releases st_two 0 v7 [7]%Z). vec_at_compute.
Defined.

Lemma construct_destroy_round_trip_witness :
  (Vector_ctor_copy 5 1;; Vector_dtor 5) st_two = Ret tt st_two ∧
  (Vector_ctor_size 5 3;; Vector_dtor 5) st_two = Ret tt st_two.
Proof.
  apply (construct_destroy_round_trip st_two 5 1 v12 [1; 2]%Z 3 0%Z).
  - reflexivity.
  - vec_at_compute.
  - simpl; lia.
  - nothrow_compute.
  - reflexivity.
  - simpl; lia.
Defined.

Lemma PopBack_spec_witness :
  (∃ s', PopBack 0 st123 = Ret tt s' ∧
         vec_at s' 0 (mkVec (data_ v123) (size_ v123 - 1)) [1; 2]%Z ∧
         avail s' = avail st123) ∧
  PopBack 0 st_empty = Fault.
Proof.
  split.
  - apply (PopBack_spec st123 0 v123 [1; 2]%Z 3%Z). vec_at_compute.
  - apply (PopBack_spec st_empty 0 (mkVec RawMemory_default 0) [] 0%Z).
    vec_at_compute.
Defined.

Lemma PushBack_PopBack_round_trip_witness :
  ∃ s' v', (PushBack 0 4%Z;; PopBack 0) st123 = Ret tt s' ∧
           vec_at s' 0 v' [1; 2; 3]%Z ∧
           size_ v' = size_ v123 ∧
           capacity_ (data_ v123) ≤ capacity_ (data_ v').
Proof.
  apply (PushBack_PopBack_round_trip st123 0 v123 [1; 2; 3]%Z 4%Z).
  - vec_at_compute.
  - nothrow_compute.
  - simpl. intros H; discriminate H.
Defined.

Lemma Insert_Erase_round_trip_witness :
  ∃ s' v' it,
    (it <- Insert 0 (GetAddress (data_ v_full) +ₚ 1) 99%Z;; Erase 0 it) st_full
    = Ret it s' ∧
    vec_at s' 0 v' [1; 2]%Z ∧
    size_ v' = size_ v_full ∧
    it = GetAddress (data_ v') +ₚ 1.
Proof.
  apply (Insert_Erase_round_trip st_full 0 v_full [1; 2]%Z 1 99%Z).
  - vec_at_compute.
  - simpl; lia.
  - nothrow_compute.
  - intros _. vm_compute. lia.
Defined.

Lemma Swap_spec_witness :
  (∃ s', Swap 0 1 st_two = Ret tt s' ∧
         vec_at s' 0 v12 [1; 2]%Z ∧ vec_at s' 1 v7 [7]%Z ∧
         heap s' = heap st_two ∧ avail s' = avail st_two ∧
         Swap 0 1 s' = Ret tt st_two) ∧
  Swap 0 0 st_two = Ret tt st_two.
Proof.
  apply (Swap_spec st_two 0 1 v7 [7]%Z v12 [1; 2]%Z).
  - lia.
  - vec_at_compute.
  - vec_at_compute.
Defined.

Lemma Reserve_strong_guarantee_witness :
  (∃ s' v', Reserve 0 10 st123 = Ret tt s' ∧ vec_at s' 0 v' [1; 2; 3]%Z ∧
            capacity_ (data_ v') = 10 ∧ size_ v' = size_ v123) ∧
  Reserve 0 4 st_bad = Throw st_bad.
Proof.
  split.
  - apply (Reserve_strong_guarantee st123 0 v123 [1; 2; 3]%Z 10);
      [reflexivity|vec_at_compute|simpl; lia|simpl; lia|nothrow_compute].
  - apply (Reserve_strong_guarantee st_bad 0 v_full [1; -2]%Z 4);
      [reflexivity|vec_at_compute|simpl; lia|simpl; lia|].
    intros H. apply Forall_cons in H as [_ H]. apply Forall_cons in H as [H _].
    vm_compute in H. discriminate H.
Defined.

Lemma Reserve_nothrow_move_witness :
  ∃ s' v', @Reserve Z MoveElem.elem 0 4 st_bad = Ret tt s' ∧
           vec_at s' 0 v' [1; -2]%Z ∧
           capacity_ (data_ v') = 4 ∧ size_ v' = size_ v_full.
Proof.
  apply (@Reserve_nothrow_move Z MoveElem.elem st_bad 0 v_full [1; -2]%Z 4).
  - reflexivity.
  - vec_at_compute.
  - simpl; lia.
  - simpl; lia.
Defined.

Lemma Emplace_failure_leaves_state_witness :
  Emplace 0 (GetAddress (data_ v123) +ₚ 1) (ByCopy (-5)%Z) st123 = Throw st123.
Proof.
  apply (Emplace_failure_leaves_state st123 0 v123 1 (ByCopy (-5)%Z)).
  - reflexivity.
  - left. reflexivity.
Defined.

Lemma EmplaceBack_swallows_relocation_failure_witness :
  ∃ s' v', EmplaceBack 0 (@FromArgs Z elem 3%Z) st_bad
           = Ret (GetAddress (data_ v') +ₚ size_ v_full) s' ∧
           objs s' !! 0 = Some v' ∧
           size_ v' = S (size_ v_full) ∧
           capacity_ (data_ v') = grown (capacity_ (data_ v_full)) ∧
           (∀ i, i < capacity_ (data_ v') →
                 slot_at s' (GetAddress (data_ v') +ₚ i) = Some None) ∧
           (∀ b, buffer_ (data_ v_full) = Some b → heap s' !! b = None).
Proof.
  apply (EmplaceBack_swallows_relocation_failure st_bad 0 v_full [1; -2]%Z
           (@FromArgs Z elem 3%Z) 3%Z).
  - vec_at_compute.
  - reflexivity.
  - simpl; lia.
  - reflexivity.
  - intros H. apply Forall_cons in H as [_ H]. apply Forall_cons in H as [H _].
    vm_compute in H. discriminate H.
  - reflexivity.
  - vm_compute. lia.
Defined.

Lemma Resize_failure_keeps_elements_witness :
  ∃ s' v', @Resize Z MoveElem.elem 0 6 st123 = Throw s' ∧
           vec_at s' 0 v' [1; 2; 3]%Z ∧
           size_ v' = size_ v123 ∧
           capacity_ (data_ v') = capacity_ (data_ v123) `max` 6.
Proof.
  apply (@Resize_failure_keeps_elements Z MoveElem.elem st123 0 v123 [1; 2; 3]%Z 6).
  - vec_at_compute.
  - simpl; lia.
  - reflexivity.
  - intros _. split; [nothrow_compute|simpl; lia].
Defined.

Lemma index_spec_witness :
  (∀ x, [1; 2; 3]%Z !! 1 = Some x →
        (p <- index 0 1;; read p) st123 = Ret x st123 ∧
        index 0 1 st123 = Ret (GetAddress (data_ v123) +ₚ 1) st123) ∧
  (length [1; 2; 3]%Z ≤ 1 → index 0 1 st123 = Fault).
Proof.
  apply (index_spec st123 0 v123 [1; 2; 3]%Z 1). vec_at_compute.
Defined.


Lemma copy_is_independent_witness :
  ∃ s' vb', (Vector_ctor_copy 5 0;; PushBack 5 4%Z) st123 = Ret tt s' ∧
            vec_at s' 0 v123 [1; 2; 3]%Z ∧
            vec_at s' 5 vb' ([1; 2; 3] ++ [4])%Z ∧
            separate v123 vb'.
Proof.
  apply (copy_is_independent st123 0 5 v123 [1; 2; 3]%Z 4%Z).
  - reflexivity.
  - lia.
  - vec_at_compute.
  - nothrow_compute.
  - vm_compute. lia.
Defined.

Lemma RawMemory_moves_transfer_ownership_witness :
  (a <- RawMemory_ctor 2;;
   b <- RawMemory_ctor 3;;
   let ca := RawMemory_ctor_move a in
   bc <- RawMemory_assign_move 1 2 b ca.1;;
   RawMemory_dtor bc.2;;
   RawMemory_dtor bc.1;;
   RawMemory_dtor ca.2) st_two = Ret tt st_two.
Proof.
  apply (RawMemory_moves_transfer_ownership st_two 2 3 1 2).
  - lia.
  - simpl; lia.
Defined.

Lemma EmplaceBack_in_place_witness :
  (arg_value (ByMove 4%Z) = Some 4%Z →
     ∃ s', EmplaceBack 0 (ByMove 4%Z) st123
           = Ret (GetAddress (data_ v123) +ₚ length [1; 2; 3]%Z) s' ∧
           vec_at s' 0 (mkVec (data_ v123) (S (length [1; 2; 3]%Z))) ([1; 2; 3] ++ [4])%Z ∧
           read (GetAddress (data_ v123) +ₚ length [1; 2; 3]%Z) s' = Ret 4%Z s' ∧
           avail s' = avail st123) ∧
  (move_throws 4%Z = false →
     ∃ s', PushBack_move 0 4%Z st123 = Ret tt s' ∧
           vec_at s' 0 (mkVec (data_ v123) (S (length [1; 2; 3]%Z))) ([1; 2; 3] ++ [4])%Z ∧
           avail s' = avail st123).
Proof.
  apply (EmplaceBack_in_place st123 0 v123 [1; 2; 3]%Z (ByMove 4%Z) 4%Z).
  - vec_at_compute.
  - simpl; lia.
Defined.

Lemma begin_end_range_witness :
  (b <- begin_ 0;; e <- end_ 0;; distance b e) st123 = Ret (length [1; 2; 3]%Z) st123 ∧
  (∀ i x, [1; 2; 3]%Z !! i = Some x → (b <- begin_ 0;; read (b +ₚ i)) st123 = Ret x st123).
Proof.
  apply (begin_end_range st123 0 v123 [1; 2; 3]%Z). vec_at_compute.
Defined.

Lemma Resize_shrink_then_grow_witness :
  ∃ s', (Resize 0 1;; Resize 0 (length [1; 2; 3]%Z)) st123 = Ret tt s' ∧
        vec_at s' 0 v123 (take 1 [1; 2; 3] ++ replicate (length [1; 2; 3] - 1) 0)%Z ∧
        avail s' = avail st123.
Proof.
  apply (Resize_shrink_then_grow st123 0 v123 [1; 2; 3]%Z 1 0%Z).
  - vec_at_compute.
  - simpl; lia.
  - reflexivity.
Defined.
